(** * The syntax tree, its deep copy, the Command rewriter and the LSP loop

    A shallow embedding of [ast/TreeCopying.cc], [dsl/Command.cc] and
    [main/LSPLoop.cc], and the properties of these three files that the
    design document states.

    Conventions.
    - A [std::unique_ptr<Expression>] is a nullable owning pointer: [ptr],
      that is [option Expression].  The owner holds the pointee inline.
    - Every node carries its address, the identity that [this == avoid]
      compares.  [make_unique] takes the next free address from a counter.
    - A [TreeRef] holds the address of a tree stored elsewhere; the map
      [shared] gives the tree rooted at such an address.
    - The copy runs on fuel: a chain of [TreeRef]s that never reaches the
      avoided node makes the source recurse without end. *)

From stdpp Require Import base option list gmap strings pretty.


(** ** Part 1: the tree ([ast/]) *)

Module ast.

(** Handles of [core/], kept as numbers: they are copied by value and
    only ever compared. *)
Definition addr := nat.
Definition FileRef := nat.
Definition SymbolRef := nat.
Definition NameRef := nat.
Definition LocalVariable := nat.
Definition TypePtr := nat.

Record Loc := mkLoc { file : FileRef; begin_pos : nat; end_pos : nat }.

Inductive ClassDefKind := Module | Class.

Inductive VarKind := VarLocal | VarInstance | VarClass | VarGlobal.

Global Instance ClassDefKind_eq_dec : EqDecision ClassDefKind.
Proof. solve_decision. Defined.

(** Modelled from the spec: the classes of the tree are declared in
    [ast.h], which is not among the sources.  Every class has the fields
    that its constructor call in [TreeCopying.cc] passes, in that order and
    under the names used there and in §3 of the design; the first field is
    the address of the node.  A [TreeRef] holds a shared, non-owning
    pointer to a tree that is stored elsewhere (§3). *)
#[warnings="-register-all"]
Inductive Expression :=
| ClassDef (a : addr) (loc : Loc) (symbol : SymbolRef) (name : option Expression)
    (ancestors rhs : list (option Expression)) (kind : ClassDefKind)
| MethodDef (a : addr) (loc : Loc) (symbol : SymbolRef) (name : NameRef)
    (args : list (option Expression)) (rhs : option Expression) (isSelf : bool)
| ConstDef (a : addr) (loc : Loc) (symbol : SymbolRef) (rhs : option Expression)
| If (a : addr) (loc : Loc) (cond thenp elsep : option Expression)
| While (a : addr) (loc : Loc) (cond body : option Expression)
| Break (a : addr) (loc : Loc) (expr : option Expression)
| Retry (a : addr) (loc : Loc)
| Next (a : addr) (loc : Loc) (expr : option Expression)
| Return (a : addr) (loc : Loc) (expr : option Expression)
| Yield (a : addr) (loc : Loc) (expr : option Expression)
| RescueCase (a : addr) (loc : Loc) (exceptions : list (option Expression))
    (var body : option Expression)
| Rescue (a : addr) (loc : Loc) (body : option Expression)
    (rescueCases : list (option Expression)) (else_ ensure : option Expression)
| Ident (a : addr) (loc : Loc) (symbol : SymbolRef)
| Local (a : addr) (loc : Loc) (localVariable : LocalVariable)
| UnresolvedIdent (a : addr) (loc : Loc) (kind : VarKind) (name : NameRef)
| RestArg (a : addr) (loc : Loc) (expr : option Expression)
| KeywordArg (a : addr) (loc : Loc) (expr : option Expression)
| OptionalArg (a : addr) (loc : Loc) (expr default_ : option Expression)
| BlockArg (a : addr) (loc : Loc) (expr : option Expression)
| ShadowArg (a : addr) (loc : Loc) (expr : option Expression)
| Assign (a : addr) (loc : Loc) (lhs rhs : option Expression)
| Send (a : addr) (loc : Loc) (recv : option Expression) (fun_ : NameRef)
    (args : list (option Expression)) (block : option Expression)
| Cast (a : addr) (loc : Loc) (type : TypePtr) (arg : option Expression) (cast : NameRef)
| Hash (a : addr) (loc : Loc) (keys values : list (option Expression))
| Array (a : addr) (loc : Loc) (elems : list (option Expression))
| Literal (a : addr) (loc : Loc) (value : TypePtr)
| ConstantLit (a : addr) (loc : Loc) (scope : option Expression) (cnst : NameRef)
| ArraySplat (a : addr) (loc : Loc) (arg : option Expression)
| HashSplat (a : addr) (loc : Loc) (arg : option Expression)
| ZSuperArgs (a : addr) (loc : Loc)
| Self (a : addr) (loc : Loc) (claz : SymbolRef)
| Block (a : addr) (loc : Loc) (args : list (option Expression))
    (body : option Expression) (symbol : SymbolRef)
| InsSeq (a : addr) (loc : Loc) (stats : list (option Expression)) (expr : option Expression)
| EmptyTree (a : addr) (loc : Loc)
| TreeRef (a : addr) (loc : Loc) (tree : option addr).

Abbreviation ptr := (option Expression).

(** The dynamic class of a node, which [cast_tree] and [isa_tree] test. *)
Inductive NodeClass :=
| K_ClassDef | K_MethodDef | K_ConstDef | K_If | K_While | K_Break | K_Retry
| K_Next | K_Return | K_Yield | K_RescueCase | K_Rescue | K_Ident | K_Local
| K_UnresolvedIdent | K_RestArg | K_KeywordArg | K_OptionalArg | K_BlockArg
| K_ShadowArg | K_Assign | K_Send | K_Cast | K_Hash | K_Array | K_Literal
| K_ConstantLit | K_ArraySplat | K_HashSplat | K_ZSuperArgs | K_Self | K_Block
| K_InsSeq | K_EmptyTree | K_TreeRef.

Global Instance NodeClass_eq_dec : EqDecision NodeClass.
Proof. solve_decision. Defined.

Definition class_of (e : Expression) : NodeClass :=
  match e with
  | ClassDef _ _ _ _ _ _ _ => K_ClassDef | MethodDef _ _ _ _ _ _ _ => K_MethodDef
  | ConstDef _ _ _ _ => K_ConstDef | If _ _ _ _ _ => K_If | While _ _ _ _ => K_While
  | Break _ _ _ => K_Break | Retry _ _ => K_Retry | Next _ _ _ => K_Next
  | Return _ _ _ => K_Return | Yield _ _ _ => K_Yield
  | RescueCase _ _ _ _ _ => K_RescueCase | Rescue _ _ _ _ _ _ => K_Rescue
  | Ident _ _ _ => K_Ident | Local _ _ _ => K_Local
  | UnresolvedIdent _ _ _ _ => K_UnresolvedIdent | RestArg _ _ _ => K_RestArg
  | KeywordArg _ _ _ => K_KeywordArg | OptionalArg _ _ _ _ => K_OptionalArg
  | BlockArg _ _ _ => K_BlockArg | ShadowArg _ _ _ => K_ShadowArg
  | Assign _ _ _ _ => K_Assign | Send _ _ _ _ _ _ => K_Send | Cast _ _ _ _ _ => K_Cast
  | Hash _ _ _ _ => K_Hash | Array _ _ _ => K_Array | Literal _ _ _ => K_Literal
  | ConstantLit _ _ _ _ => K_ConstantLit | ArraySplat _ _ _ => K_ArraySplat
  | HashSplat _ _ _ => K_HashSplat | ZSuperArgs _ _ => K_ZSuperArgs | Self _ _ _ => K_Self
  | Block _ _ _ _ _ => K_Block | InsSeq _ _ _ _ => K_InsSeq | EmptyTree _ _ => K_EmptyTree
  | TreeRef _ _ _ => K_TreeRef
  end.

(** [this]: the address of the node itself. *)
Definition address (e : Expression) : addr :=
  match e with
  | ClassDef a _ _ _ _ _ _ | MethodDef a _ _ _ _ _ _ | ConstDef a _ _ _ | If a _ _ _ _
  | While a _ _ _ | Break a _ _ | Retry a _ | Next a _ _ | Return a _ _ | Yield a _ _
  | RescueCase a _ _ _ _ | Rescue a _ _ _ _ _ | Ident a _ _ | Local a _ _
  | UnresolvedIdent a _ _ _ | RestArg a _ _ | KeywordArg a _ _ | OptionalArg a _ _ _
  | BlockArg a _ _ | ShadowArg a _ _ | Assign a _ _ _ | Send a _ _ _ _ _ | Cast a _ _ _ _
  | Hash a _ _ _ | Array a _ _ | Literal a _ _ | ConstantLit a _ _ _ | ArraySplat a _ _
  | HashSplat a _ _ | ZSuperArgs a _ | Self a _ _ | Block a _ _ _ _ | InsSeq a _ _ _
  | EmptyTree a _ | TreeRef a _ _ => a
  end.

(** [isa_tree<T>(p)] and [cast_tree<T>(p)]: a [dynamic_cast], null on a null
    pointer and on a node of another class. *)
Definition isa_tree (T : NodeClass → bool) (p : ptr) : bool :=
  match p with Some e => T (class_of e) | None => false end.

Definition cast_tree (T : NodeClass → bool) (p : ptr) : ptr :=
  if isa_tree T p then p else None.

Definition exactly (k : NodeClass) : NodeClass → bool := fun k' => bool_decide (k' = k).

(** [cast_tree<Expression>]: every class derives from [Expression]. *)
Definition AnyExpression : NodeClass → bool := fun _ => true.

(** ** The outcome of a computation that allocates and may throw *)

Inductive outcome (A : Type) :=
| Done (x : A) (next : addr)
| Thrown
| Fault
| OutOfFuel.
Global Arguments Done {A} x next.
Global Arguments Thrown {A}.
Global Arguments Fault {A}.
Global Arguments OutOfFuel {A}.

(** A computation reads the next free address and returns an outcome.
    [Thrown] is a [DeepCopyError] in flight, [Fault] the dereference of a
    null or dangling pointer. *)
Definition M (A : Type) := addr → outcome A.

Definition ret {A} (x : A) : M A := fun n => Done x n.

Definition bind {A B} (m : M A) (k : A → M B) : M B :=
  fun n => match m n with
           | Done x n' => k x n'
           | Thrown => Thrown
           | Fault => Fault
           | OutOfFuel => OutOfFuel
           end.

Definition throw {A} : M A := fun _ => Thrown.
Definition fault {A} : M A := fun _ => Fault.
Definition out_of_fuel {A} : M A := fun _ => OutOfFuel.

(** [make_unique<T>(...)]: the arguments are evaluated before the call, the
    object is allocated last. *)
Definition make_unique (build : addr → Expression) : M Expression :=
  fun n => Done (build n) (S n).

Declare Scope copy_scope.
Delimit Scope copy_scope with copy.
Notation "x <- m ;; k" := (bind m (fun x => k))
  (at level 100, m at next level, right associativity) : copy_scope.

Fixpoint mapM {A B} (f : A → M B) (l : list A) : M (list B) :=
  match l with
  | [] => ret []
  | x :: l => (y <- f x;; ys <- mapM f l;; ret (y :: ys))%copy
  end.

(** ** The arguments of a call

    The language leaves open in which order the arguments of a call are
    evaluated; a call of [_deepCopy] in one argument returns before the
    call in another begins.  The choice of the compiler for a call is a
    list of numbers: each says which of the arguments that are still to be
    evaluated comes next, counted from the left and from 0.  A missing
    number stands for 0, a number past the last argument for the last one:
    the empty list is the order from left to right, and [[1]], [[2; 1]] and
    [[3; 2; 1]] are the orders from right to left of two, three and four
    arguments.  [k] is the call itself, which takes the values of the
    arguments. *)
Definition pick (o : list nat) : nat := default 0 (head o).

Definition args2 {A B C} (o : list nat) (m1 : M A) (m2 : M B)
    (k : A → B → M C) : M C :=
  match pick o with
  | 0 => (x <- m1;; y <- m2;; k x y)%copy
  | _ => (y <- m2;; x <- m1;; k x y)%copy
  end.

Definition args3 {A B C D} (o : list nat) (m1 : M A) (m2 : M B) (m3 : M C)
    (k : A → B → C → M D) : M D :=
  match pick o with
  | 0 => (x <- m1;; args2 (tail o) m2 m3 (fun y z => k x y z))%copy
  | 1 => (y <- m2;; args2 (tail o) m1 m3 (fun x z => k x y z))%copy
  | _ => (z <- m3;; args2 (tail o) m1 m2 (fun x y => k x y z))%copy
  end.

Definition args4 {A B C D E} (o : list nat) (m1 : M A) (m2 : M B) (m3 : M C) (m4 : M D)
    (k : A → B → C → D → M E) : M E :=
  match pick o with
  | 0 => (x <- m1;; args3 (tail o) m2 m3 m4 (fun y z w => k x y z w))%copy
  | 1 => (y <- m2;; args3 (tail o) m1 m3 m4 (fun x z w => k x y z w))%copy
  | 2 => (z <- m3;; args3 (tail o) m1 m2 m4 (fun x y w => k x y z w))%copy
  | _ => (w <- m4;; args3 (tail o) m1 m2 m3 (fun x y z => k x y z w))%copy
  end.

(** Two choices that a compiler can make for every call: the arguments
    from the first to the last, and from the last to the first. *)
Definition left_to_right {K} : K → list nat := λ _, [].
Definition right_to_left {K} : K → list nat := λ _, [3; 2; 1].

(** The pieces of the copy, over the method [rec] that copies a node
    below the root ([e->_deepCopy(avoid)], where [root] takes its default,
    false). *)
Section CopyPieces.

Variable rec : Expression → M Expression.

Local Open Scope copy_scope.

(** [p->_deepCopy(avoid)] *)
Definition copy (p : ptr) : M Expression :=
  match p with
  | Some e => rec e
  | None => fault
  end.

(** [deepCopyVec<Elem>(avoid, origin)] *)
Definition deepCopyVec (Elem : NodeClass → bool) (origin : list ptr) : M (list ptr) :=
  mapM (fun memb => c <- copy memb;; ret (cast_tree Elem (Some c))) origin.

(** [unique_ptr<T>(cast_tree<T>(p->_deepCopy(avoid).release()))] *)
Definition copyAs (T : NodeClass → bool) (p : ptr) : M ptr :=
  c <- copy p;; ret (cast_tree T (Some c)).

(** [block == nullptr ? nullptr : unique_ptr<Block>(cast_tree<Block>(...))] *)
Definition copyBlock (block : ptr) : M ptr :=
  match block with
  | None => ret None
  | Some _ => copyAs (exactly K_Block) block
  end.

End CopyPieces.

Section TreeCopying.

(** The class hierarchy is declared in [ast.h], which is not among the
    sources: the set of classes that derive from [Reference] is a
    parameter. *)
Variable Reference : NodeClass → bool.

(** The trees that [TreeRef]s point to, by the address of their root. *)
Variable shared : gmap addr Expression.

(** The order in which the compiler evaluates the arguments of the
    constructor call, in the override of [_deepCopy] of each class. *)
Variable order : NodeClass → list nat.

Local Open Scope copy_scope.

(** The bodies of the overrides of [_deepCopy], after their common test,
    in one match on the class of [this].  The copies of the pointers of a
    node are arguments of one call, of [make_unique]: they are made in the
    order that the compiler has chosen for this call.  [deepCopyVec] is a
    loop, from the first element to the last. *)
Definition copy_node (rec : Expression → M Expression) (avoid : addr) (this : Expression)
  : M Expression :=
  match this with
  | ClassDef _ loc symbol name ancestors rhs kind =>
      args3 (order K_ClassDef)
        (copy rec name)
        (deepCopyVec rec AnyExpression ancestors)
        (deepCopyVec rec AnyExpression rhs)
        (fun name' ancestors' rhs' =>
           make_unique (fun a => ClassDef a loc symbol (Some name') ancestors' rhs' kind))
  | MethodDef _ loc symbol name args rhs isSelf =>
      args2 (order K_MethodDef)
        (deepCopyVec rec AnyExpression args)
        (copy rec rhs)
        (fun args' rhs' =>
           make_unique (fun a => MethodDef a loc symbol name args' (Some rhs') isSelf))
  | ConstDef _ loc symbol rhs =>
      rhs' <- copy rec rhs;;
      make_unique (fun a => ConstDef a loc symbol (Some rhs'))
  | If _ loc cond thenp elsep =>
      args3 (order K_If) (copy rec cond) (copy rec thenp) (copy rec elsep)
        (fun cond' thenp' elsep' =>
           make_unique (fun a => If a loc (Some cond') (Some thenp') (Some elsep')))
  | While _ loc cond body =>
      args2 (order K_While) (copy rec cond) (copy rec body)
        (fun cond' body' => make_unique (fun a => While a loc (Some cond') (Some body')))
  | Break _ loc expr =>
      expr' <- copy rec expr;; make_unique (fun a => Break a loc (Some expr'))
  | Retry _ loc => make_unique (fun a => Retry a loc)
  | Next _ loc expr =>
      expr' <- copy rec expr;; make_unique (fun a => Next a loc (Some expr'))
  | Return _ loc expr =>
      expr' <- copy rec expr;; make_unique (fun a => Return a loc (Some expr'))
  | Yield _ loc expr =>
      expr' <- copy rec expr;; make_unique (fun a => Yield a loc (Some expr'))
  | RescueCase _ loc exceptions var body =>
      args3 (order K_RescueCase)
        (deepCopyVec rec AnyExpression exceptions)
        (copy rec var)
        (copy rec body)
        (fun exceptions' var' body' =>
           make_unique (fun a => RescueCase a loc exceptions' (Some var') (Some body')))
  | Rescue _ loc body rescueCases else_ ensure =>
      args4 (order K_Rescue)
        (copy rec body)
        (deepCopyVec rec (exactly K_RescueCase) rescueCases)
        (copy rec else_)
        (copy rec ensure)
        (fun body' rescueCases' else' ensure' =>
           make_unique (fun a => Rescue a loc (Some body') rescueCases' (Some else')
                                   (Some ensure')))
  | Ident _ loc symbol => make_unique (fun a => Ident a loc symbol)
  | Local _ loc localVariable => make_unique (fun a => Local a loc localVariable)
  | UnresolvedIdent _ loc kind name => make_unique (fun a => UnresolvedIdent a loc kind name)
  | RestArg _ loc expr =>
      expr' <- copyAs rec Reference expr;; make_unique (fun a => RestArg a loc expr')
  | KeywordArg _ loc expr =>
      expr' <- copyAs rec Reference expr;; make_unique (fun a => KeywordArg a loc expr')
  | OptionalArg _ loc expr default_ =>
      args2 (order K_OptionalArg) (copyAs rec Reference expr) (copy rec default_)
        (fun expr' default' =>
           make_unique (fun a => OptionalArg a loc expr' (Some default')))
  | BlockArg _ loc expr =>
      expr' <- copyAs rec Reference expr;; make_unique (fun a => BlockArg a loc expr')
  | ShadowArg _ loc expr =>
      expr' <- copyAs rec Reference expr;; make_unique (fun a => ShadowArg a loc expr')
  | Assign _ loc lhs rhs =>
      args2 (order K_Assign) (copy rec lhs) (copy rec rhs)
        (fun lhs' rhs' => make_unique (fun a => Assign a loc (Some lhs') (Some rhs')))
  | Send _ loc recv fun_ args block =>
      args3 (order K_Send)
        (copy rec recv)
        (deepCopyVec rec AnyExpression args)
        (copyBlock rec block)
        (fun recv' args' block' =>
           make_unique (fun a => Send a loc (Some recv') fun_ args' block'))
  | Cast _ loc type arg cast =>
      arg' <- copy rec arg;; make_unique (fun a => Cast a loc type (Some arg') cast)
  | Hash _ loc keys values =>
      args2 (order K_Hash)
        (deepCopyVec rec AnyExpression keys)
        (deepCopyVec rec AnyExpression values)
        (fun keys' values' => make_unique (fun a => Hash a loc keys' values'))
  | Array _ loc elems =>
      elems' <- deepCopyVec rec AnyExpression elems;;
      make_unique (fun a => Array a loc elems')
  | Literal _ loc value => make_unique (fun a => Literal a loc value)
  | ConstantLit _ loc scope cnst =>
      scope' <- copy rec scope;; make_unique (fun a => ConstantLit a loc (Some scope') cnst)
  | ArraySplat _ loc arg =>
      arg' <- copy rec arg;; make_unique (fun a => ArraySplat a loc (Some arg'))
  | HashSplat _ loc arg =>
      arg' <- copy rec arg;; make_unique (fun a => HashSplat a loc (Some arg'))
  | ZSuperArgs _ loc => make_unique (fun a => ZSuperArgs a loc)
  | Self _ loc claz => make_unique (fun a => Self a loc claz)
  | Block _ loc args body symbol =>
      args2 (order K_Block)
        (deepCopyVec rec AnyExpression args)
        (copy rec body)
        (fun args' body' =>
           (* [res->symbol = this->symbol] follows the construction *)
           make_unique (fun a => Block a loc args' (Some body') symbol))
  | InsSeq _ loc stats expr =>
      args2 (order K_InsSeq)
        (deepCopyVec rec AnyExpression stats)
        (copy rec expr)
        (fun stats' expr' => make_unique (fun a => InsSeq a loc stats' (Some expr')))
  | EmptyTree _ loc => make_unique (fun a => EmptyTree a loc)
  | TreeRef _ loc tree =>
      if bool_decide (tree = Some avoid) then throw else
      match tree with
      | None => throw
      | Some t =>
          (* [tree->_deepCopy(avoid)], on the tree at that address *)
          match shared !! t with
          | Some target => rec target
          | None => fault
          end
      end
  end.

(** [Expression::_deepCopy(avoid, root)]: the test that every override
    starts with, then the body of the override of the class of [this]. *)
Fixpoint _deepCopy (fuel : nat) (avoid : addr) (root : bool) (this : Expression)
  : M Expression :=
  match fuel with
  | 0 => out_of_fuel
  | S fuel =>
    if negb root && bool_decide (address this = avoid) then throw
    else copy_node (_deepCopy fuel avoid false) avoid this
  end.

(** [Expression::deepCopy()]: the entry point catches the error and returns
    null.  The result is [Done None] for the null pointer; the nodes that
    were built before the error are destroyed with the pointers that own
    them, so that their addresses are free again. *)
Definition deepCopy (fuel : nat) (this : Expression) : M ptr :=
  fun n => match _deepCopy fuel (address this) true this n with
           | Done res n' => Done (Some res) n'
           | Thrown => Done None n
           | Fault => Fault
           | OutOfFuel => OutOfFuel
           end.

(** ** The copy returns, and what it returns *)

(** [deepCopy] returns within the fuel, a tree or the null pointer. *)
Definition returns (fuel : nat) (e : Expression) : Prop :=
  ∀ n, ∃ r n', deepCopy fuel e n = Done r n'.

(** [r] is what [deepCopy] returned for [e]. *)
Definition copied (fuel : nat) (e : Expression) (r : ptr) : Prop :=
  ∃ n n', deepCopy fuel e n = Done r n'.

(** ** The shape of a tree *)

(** The pointers that a node owns, in the order of the arguments of its
    constructor. *)
Definition children (e : Expression) : list ptr :=
  match e with
  | ClassDef _ _ _ name ancestors rhs _ => name :: ancestors ++ rhs
  | MethodDef _ _ _ _ args rhs _ => args ++ [rhs]
  | ConstDef _ _ _ rhs => [rhs]
  | If _ _ cond thenp elsep => [cond; thenp; elsep]
  | While _ _ cond body => [cond; body]
  | Break _ _ expr | Next _ _ expr | Return _ _ expr | Yield _ _ expr => [expr]
  | RescueCase _ _ exceptions var body => exceptions ++ [var; body]
  | Rescue _ _ body rescueCases else_ ensure => body :: rescueCases ++ [else_; ensure]
  | RestArg _ _ expr | KeywordArg _ _ expr | BlockArg _ _ expr | ShadowArg _ _ expr => [expr]
  | OptionalArg _ _ expr default_ => [expr; default_]
  | Assign _ _ lhs rhs => [lhs; rhs]
  | Send _ _ recv _ args block => recv :: args ++ [block]
  | Cast _ _ _ arg _ => [arg]
  | Hash _ _ keys values => keys ++ values
  | Array _ _ elems => elems
  | ConstantLit _ _ scope _ => [scope]
  | ArraySplat _ _ arg | HashSplat _ _ arg => [arg]
  | Block _ _ args body _ => args ++ [body]
  | InsSeq _ _ stats expr => stats ++ [expr]
  | Retry _ _ | Ident _ _ _ | Local _ _ _ | UnresolvedIdent _ _ _ _ | Literal _ _ _
  | ZSuperArgs _ _ | Self _ _ _ | EmptyTree _ _ | TreeRef _ _ _ => []
  end.

(** [c] is a child of [e]. *)
Definition child (e c : Expression) : Prop := Some c ∈ children e.

(** [e] owns [x]: [x] is [e] or a node below it. *)
Definition owns : relation Expression := rtc child.

(** One step of the traversal: to a child, or from a [TreeRef] to the tree
    it points to. *)
Inductive visits : relation Expression :=
| visits_child e c : child e c → visits e c
| visits_target a loc t target :
    shared !! t = Some target → visits (TreeRef a loc (Some t)) target.

(** [e] transitively contains [x], [TreeRef]s expanded. *)
Definition reaches : relation Expression := rtc visits.

(** ** Structural equality, and equality up to the expansion of [TreeRef]s

    [similar via e e']: [e'] has the shape of [e], node by node, with the
    same locations, symbols, names, values and kinds; addresses are not
    compared.  A [TreeRef] of [e] may stand in [e'] as it is, or, when
    [via] knows its target, be replaced by a tree similar to the target. *)
#[warnings="-register-all"]
Inductive similar (via : gmap addr Expression) : Expression → Expression → Prop :=
| sim_ClassDef a a' loc symbol name name' ancestors ancestors' rhs rhs' kind :
    option_Forall2 (similar via) name name' →
    Forall2 (option_Forall2 (similar via)) ancestors ancestors' →
    Forall2 (option_Forall2 (similar via)) rhs rhs' →
    similar via (ClassDef a loc symbol name ancestors rhs kind)
                (ClassDef a' loc symbol name' ancestors' rhs' kind)
| sim_MethodDef a a' loc symbol name args args' rhs rhs' isSelf :
    Forall2 (option_Forall2 (similar via)) args args' →
    option_Forall2 (similar via) rhs rhs' →
    similar via (MethodDef a loc symbol name args rhs isSelf)
                (MethodDef a' loc symbol name args' rhs' isSelf)
| sim_ConstDef a a' loc symbol rhs rhs' :
    option_Forall2 (similar via) rhs rhs' →
    similar via (ConstDef a loc symbol rhs) (ConstDef a' loc symbol rhs')
| sim_If a a' loc cond cond' thenp thenp' elsep elsep' :
    option_Forall2 (similar via) cond cond' →
    option_Forall2 (similar via) thenp thenp' →
    option_Forall2 (similar via) elsep elsep' →
    similar via (If a loc cond thenp elsep) (If a' loc cond' thenp' elsep')
| sim_While a a' loc cond cond' body body' :
    option_Forall2 (similar via) cond cond' →
    option_Forall2 (similar via) body body' →
    similar via (While a loc cond body) (While a' loc cond' body')
| sim_Break a a' loc expr expr' :
    option_Forall2 (similar via) expr expr' →
    similar via (Break a loc expr) (Break a' loc expr')
| sim_Retry a a' loc : similar via (Retry a loc) (Retry a' loc)
| sim_Next a a' loc expr expr' :
    option_Forall2 (similar via) expr expr' →
    similar via (Next a loc expr) (Next a' loc expr')
| sim_Return a a' loc expr expr' :
    option_Forall2 (similar via) expr expr' →
    similar via (Return a loc expr) (Return a' loc expr')
| sim_Yield a a' loc expr expr' :
    option_Forall2 (similar via) expr expr' →
    similar via (Yield a loc expr) (Yield a' loc expr')
| sim_RescueCase a a' loc exceptions exceptions' var var' body body' :
    Forall2 (option_Forall2 (similar via)) exceptions exceptions' →
    option_Forall2 (similar via) var var' →
    option_Forall2 (similar via) body body' →
    similar via (RescueCase a loc exceptions var body) (RescueCase a' loc exceptions' var' body')
| sim_Rescue a a' loc body body' rescueCases rescueCases' else_ else' ensure ensure' :
    option_Forall2 (similar via) body body' →
    Forall2 (option_Forall2 (similar via)) rescueCases rescueCases' →
    option_Forall2 (similar via) else_ else' →
    option_Forall2 (similar via) ensure ensure' →
    similar via (Rescue a loc body rescueCases else_ ensure)
                (Rescue a' loc body' rescueCases' else' ensure')
| sim_Ident a a' loc symbol : similar via (Ident a loc symbol) (Ident a' loc symbol)
| sim_Local a a' loc localVariable :
    similar via (Local a loc localVariable) (Local a' loc localVariable)
| sim_UnresolvedIdent a a' loc kind name :
    similar via (UnresolvedIdent a loc kind name) (UnresolvedIdent a' loc kind name)
| sim_RestArg a a' loc expr expr' :
    option_Forall2 (similar via) expr expr' →
    similar via (RestArg a loc expr) (RestArg a' loc expr')
| sim_KeywordArg a a' loc expr expr' :
    option_Forall2 (similar via) expr expr' →
    similar via (KeywordArg a loc expr) (KeywordArg a' loc expr')
| sim_OptionalArg a a' loc expr expr' default_ default' :
    option_Forall2 (similar via) expr expr' →
    option_Forall2 (similar via) default_ default' →
    similar via (OptionalArg a loc expr default_) (OptionalArg a' loc expr' default')
| sim_BlockArg a a' loc expr expr' :
    option_Forall2 (similar via) expr expr' →
    similar via (BlockArg a loc expr) (BlockArg a' loc expr')
| sim_ShadowArg a a' loc expr expr' :
    option_Forall2 (similar via) expr expr' →
    similar via (ShadowArg a loc expr) (ShadowArg a' loc expr')
| sim_Assign a a' loc lhs lhs' rhs rhs' :
    option_Forall2 (similar via) lhs lhs' →
    option_Forall2 (similar via) rhs rhs' →
    similar via (Assign a loc lhs rhs) (Assign a' loc lhs' rhs')
| sim_Send a a' loc recv recv' fun_ args args' block block' :
    option_Forall2 (similar via) recv recv' →
    Forall2 (option_Forall2 (similar via)) args args' →
    option_Forall2 (similar via) block block' →
    similar via (Send a loc recv fun_ args block) (Send a' loc recv' fun_ args' block')
| sim_Cast a a' loc type arg arg' cast :
    option_Forall2 (similar via) arg arg' →
    similar via (Cast a loc type arg cast) (Cast a' loc type arg' cast)
| sim_Hash a a' loc keys keys' values values' :
    Forall2 (option_Forall2 (similar via)) keys keys' →
    Forall2 (option_Forall2 (similar via)) values values' →
    similar via (Hash a loc keys values) (Hash a' loc keys' values')
| sim_Array a a' loc elems elems' :
    Forall2 (option_Forall2 (similar via)) elems elems' →
    similar via (Array a loc elems) (Array a' loc elems')
| sim_Literal a a' loc value : similar via (Literal a loc value) (Literal a' loc value)
| sim_ConstantLit a a' loc scope scope' cnst :
    option_Forall2 (similar via) scope scope' →
    similar via (ConstantLit a loc scope cnst) (ConstantLit a' loc scope' cnst)
| sim_ArraySplat a a' loc arg arg' :
    option_Forall2 (similar via) arg arg' →
    similar via (ArraySplat a loc arg) (ArraySplat a' loc arg')
| sim_HashSplat a a' loc arg arg' :
    option_Forall2 (similar via) arg arg' →
    similar via (HashSplat a loc arg) (HashSplat a' loc arg')
| sim_ZSuperArgs a a' loc : similar via (ZSuperArgs a loc) (ZSuperArgs a' loc)
| sim_Self a a' loc claz : similar via (Self a loc claz) (Self a' loc claz)
| sim_Block a a' loc args args' body body' symbol :
    Forall2 (option_Forall2 (similar via)) args args' →
    option_Forall2 (similar via) body body' →
    similar via (Block a loc args body symbol) (Block a' loc args' body' symbol)
| sim_InsSeq a a' loc stats stats' expr expr' :
    Forall2 (option_Forall2 (similar via)) stats stats' →
    option_Forall2 (similar via) expr expr' →
    similar via (InsSeq a loc stats expr) (InsSeq a' loc stats' expr')
| sim_EmptyTree a a' loc : similar via (EmptyTree a loc) (EmptyTree a' loc)
| sim_TreeRef a a' loc tree : similar via (TreeRef a loc tree) (TreeRef a' loc tree)
| sim_expand a loc t target e' :
    via !! t = Some target → similar via target e' →
    similar via (TreeRef a loc (Some t)) e'.

(** Structural equality: no [TreeRef] is expanded. *)
Definition struct_eq : relation Expression := similar ∅.

(** ** The conditions under which the claims hold *)

(** The pointee of [p], when there is one, is of a class in [T]. *)
Definition has_class (T : NodeClass → bool) (p : ptr) : Prop :=
  ∀ c, p = Some c → T (class_of c) = true.

(** The typed pointers of a node hold what their static type says: a
    [unique_ptr<Reference>] a [Reference], and no [TreeRef], which §3 of the
    design lists apart from the references; the block of a [Send] a
    [Block]; the cases of a [Rescue] [RescueCase]s. *)
Definition slot_typed (e : Expression) : Prop :=
  match e with
  | RestArg _ _ expr | KeywordArg _ _ expr | BlockArg _ _ expr | ShadowArg _ _ expr
  | OptionalArg _ _ expr _ =>
      has_class (λ k, Reference k && negb (exactly K_TreeRef k)) expr
  | Send _ _ _ _ _ block => has_class (exactly K_Block) block
  | Rescue _ _ _ rescueCases _ _ => Forall (has_class (exactly K_RescueCase)) rescueCases
  | _ => True
  end.

Definition well_typed (T : Expression) : Prop := ∀ e, reaches T e → slot_typed e.

(** Every node that the copy of [T] can come to was allocated before [n]. *)
Definition allocated (n : addr) (T : Expression) : Prop :=
  ∀ x, reaches T x → address x < n.

(** Distinct objects have distinct addresses: no node below [T] has the
    address of [T]. *)
Definition root_unique (T : Expression) : Prop :=
  ∀ c x, child T c → owns c x → address x ≠ address T.

(** [T] owns no [TreeRef]. *)
Definition no_TreeRef (T : Expression) : Prop :=
  ∀ x, owns T x → class_of x ≠ K_TreeRef.

(** The expansion of the tree at [t] comes to the node at [avoid]. *)
Definition reenters (avoid t : addr) : Prop :=
  t = avoid ∨
  ∃ target x, shared !! t = Some target ∧ reaches target x ∧ address x = avoid.

(** [T] transitively contains a [TreeRef] whose target is null or whose
    expansion would re-enter the avoided node. *)
Definition blocked (avoid : addr) (T : Expression) : Prop :=
  ∃ a loc tree, reaches T (TreeRef a loc tree) ∧
    (tree = None ∨ ∃ t, tree = Some t ∧ reenters avoid t).

(** What the copy of a node leaves in a pointer of the new node: [q]
    stands for [p], copied by [rec] between the addresses [lo] and [hi].
    A null pointer stays null; a cast to another class leaves null. *)
Definition slot_copied (rec : Expression → M Expression) (lo hi : addr) (p q : ptr) : Prop :=
  (p = None ∧ q = None) ∨
  ∃ c c' m m', p = Some c ∧ rec c m = Done c' m' ∧ lo ≤ m ∧ m' ≤ hi ∧
               (q = Some c' ∨ q = None).

(** [rec] only ever moves the next free address up. *)
Definition increasing (rec : Expression → M Expression) : Prop :=
  ∀ e n e' n', rec e n = Done e' n' → n ≤ n'.

(** The copy of [e], met below the root, returns a tree. *)
Definition survives (avoid : addr) (e : Expression) : Prop :=
  ∃ fuel n e' n', _deepCopy fuel avoid false e n = Done e' n'.

(** [c'] stands for [c] in a copy: similar, and of the same class unless
    [c] is a [TreeRef]. *)
Definition stands_for (via : gmap addr Expression) (c c' : Expression) : Prop :=
  similar via c c' ∧ (class_of c ≠ K_TreeRef → class_of c' = class_of c).

(** ** When the copy returns *)

(** An outcome of a copy that has come to its end: a tree, or the error. *)
Definition settled {A} (r : outcome A) : Prop :=
  match r with
  | Done _ _ | Thrown => True
  | Fault | OutOfFuel => False
  end.

(** The pointers that the copy of a node dereferences: all that it owns,
    but for the block of a [Send] when it is null. *)
Definition derefs (e : Expression) : list ptr :=
  match e with
  | Send _ _ recv _ args None => recv :: args
  | _ => children e
  end.

(** No pointer that the copy of [e] dereferences is null or dangling. *)
Definition intact (avoid : addr) (e : Expression) : Prop :=
  (∀ p, p ∈ derefs e → p ≠ None) ∧
  (∀ a loc t, e = TreeRef a loc (Some t) → t ≠ avoid → is_Some (shared !! t)).

(** The nodes that a node leads to in one step. *)
Definition successors (e : Expression) : list Expression :=
  omap id (children e) ++
  match e with
  | TreeRef _ _ (Some t) => option_list (shared !! t)
  | _ => []
  end.

(** A step of the traversal that does not end on the avoided node, where
    the copy stops. *)
Definition expands (avoid : addr) (x y : Expression) : Prop :=
  visits x y ∧ address y ≠ avoid.

(** The traversal from [T] is finite: [TreeRef]s do not lead around in a
    circle, unless through the avoided node. *)
Definition finite_from (avoid : addr) (T : Expression) : Prop :=
  Acc (flip (expands avoid)) T.


(** ** The nodes of a tree *)

Definition nodes_ptr (nodes : Expression → list Expression) (p : ptr) : list Expression :=
  match p with Some c => nodes c | None => [] end.

Definition nodes_vec (nodes : Expression → list Expression) : list ptr → list Expression :=
  fix go l := match l with [] => [] | p :: l => nodes_ptr nodes p ++ go l end.

(** The nodes that [e] owns, [e] first. *)
Fixpoint nodes (e : Expression) : list Expression :=
  let one := nodes_ptr nodes in
  let vec := nodes_vec nodes in
  e ::
  match e with
  | ClassDef _ _ _ name ancestors rhs _ => one name ++ vec ancestors ++ vec rhs
  | MethodDef _ _ _ _ args rhs _ => vec args ++ one rhs
  | ConstDef _ _ _ rhs => one rhs
  | If _ _ cond thenp elsep => one cond ++ one thenp ++ one elsep
  | While _ _ cond body => one cond ++ one body
  | Break _ _ expr | Next _ _ expr | Return _ _ expr | Yield _ _ expr => one expr
  | RescueCase _ _ exceptions var body => vec exceptions ++ one var ++ one body
  | Rescue _ _ body rescueCases else_ ensure =>
      one body ++ vec rescueCases ++ one else_ ++ one ensure
  | RestArg _ _ expr | KeywordArg _ _ expr | BlockArg _ _ expr | ShadowArg _ _ expr => one expr
  | OptionalArg _ _ expr default_ => one expr ++ one default_
  | Assign _ _ lhs rhs => one lhs ++ one rhs
  | Send _ _ recv _ args block => one recv ++ vec args ++ one block
  | Cast _ _ _ arg _ => one arg
  | Hash _ _ keys values => vec keys ++ vec values
  | Array _ _ elems => vec elems
  | ConstantLit _ _ scope _ => one scope
  | ArraySplat _ _ arg | HashSplat _ _ arg => one arg
  | Block _ _ args body _ => vec args ++ one body
  | InsSeq _ _ stats expr => vec stats ++ one expr
  | Retry _ _ | Ident _ _ _ | Local _ _ _ | UnresolvedIdent _ _ _ _ | Literal _ _ _
  | ZSuperArgs _ _ | Self _ _ _ | EmptyTree _ _ | TreeRef _ _ _ => []
  end.

(** The number of nodes of a tree. *)
Definition size (e : Expression) : nat := length (nodes e).

(** ** The copies of the pointers of a node, one after the other *)

(** [threaded rec lo hi l]: each pair of [l] is a pointer with what the
    copy leaves for it, and the pointers are copied by [rec] one after the
    other, in this order, from the address [lo] on, which leaves [hi] for
    the next free address.  A null pointer stays null; the copy of a
    pointee is kept or, when its cast fails, dropped. *)
Inductive threaded (rec : Expression → M Expression) : addr → addr → list (ptr * ptr) → Prop :=
| threaded_nil lo : threaded rec lo lo []
| threaded_null lo hi l :
    threaded rec lo hi l → threaded rec lo hi ((None, None) :: l)
| threaded_copy lo mid hi c c' q l :
    rec c lo = Done c' mid → q = Some c' ∨ q = None →
    threaded rec mid hi l → threaded rec lo hi ((Some c, q) :: l).

(** [tiled rec lo hi ps qs]: the pointers [qs] are what the copy leaves for
    the pointers [ps], which [rec] copies one after the other, in some
    order, between the addresses [lo] and [hi]. *)
Definition tiled (rec : Expression → M Expression) (lo hi : addr) (ps qs : list ptr) : Prop :=
  length ps = length qs ∧ ∃ l, l ≡ₚ zip ps qs ∧ threaded rec lo hi l.

(** The addresses of the nodes of a tree. *)
Definition addresses (e : Expression) : list addr := address <$> nodes e.

(** A plain tree: it owns no [TreeRef], and every pointer that the copy
    dereferences is set. *)
Definition plain (T : Expression) : Prop :=
  ∀ x, owns T x → class_of x ≠ K_TreeRef ∧ ∀ p, p ∈ derefs x → p ≠ None.

(** [e->loc], the location of a node. *)
Definition loc_of (e : Expression) : Loc :=
  match e with
  | ClassDef _ loc _ _ _ _ _ | MethodDef _ loc _ _ _ _ _ | ConstDef _ loc _ _ | If _ loc _ _ _
  | While _ loc _ _ | Break _ loc _ | Retry _ loc | Next _ loc _ | Return _ loc _ | Yield _ loc _
  | RescueCase _ loc _ _ _ | Rescue _ loc _ _ _ _ | Ident _ loc _ | Local _ loc _
  | UnresolvedIdent _ loc _ _ | RestArg _ loc _ | KeywordArg _ loc _ | OptionalArg _ loc _ _
  | BlockArg _ loc _ | ShadowArg _ loc _ | Assign _ loc _ _ | Send _ loc _ _ _ _ | Cast _ loc _ _ _
  | Hash _ loc _ _ | Array _ loc _ | Literal _ loc _ | ConstantLit _ loc _ _ | ArraySplat _ loc _
  | HashSplat _ loc _ | ZSuperArgs _ loc | Self _ loc _ | Block _ loc _ _ _ | InsSeq _ loc _ _
  | EmptyTree _ loc | TreeRef _ loc _ => loc
  end.
(** ** Facts on the computations *)

Lemma bind_Done {A B} (m : M A) (k : A → M B) n y n2 :
  bind m k n = Done y n2 ↔ ∃ x n1, m n = Done x n1 ∧ k x n1 = Done y n2.
Proof.
  unfold bind. split.
  - destruct (m n) as [x n1| | |]; try discriminate. eauto.
  - intros (x & n1 & -> & Hk). exact Hk.
Qed.

Lemma bind_Thrown {A B} (m : M A) (k : A → M B) n :
  bind m k n = Thrown ↔
  m n = Thrown ∨ ∃ x n1, m n = Done x n1 ∧ k x n1 = Thrown.
Proof.
  unfold bind. split.
  - destruct (m n) as [x n1| | |]; try discriminate; eauto.
  - intros [-> | (x & n1 & -> & Hk)]; done.
Qed.

Lemma bind_OutOfFuel {A B} (m : M A) (k : A → M B) n :
  bind m k n = OutOfFuel ↔
  m n = OutOfFuel ∨ ∃ x n1, m n = Done x n1 ∧ k x n1 = OutOfFuel.
Proof.
  unfold bind. split.
  - destruct (m n) as [x n1| | |]; try discriminate; eauto.
  - intros [-> | (x & n1 & -> & Hk)]; done.
Qed.

Lemma make_unique_Done build n e n' :
  make_unique build n = Done e n' ↔ e = build n ∧ n' = S n.
Proof. unfold make_unique. split; [by inversion 1 | by intros [-> ->]]. Qed.

Lemma ret_Done {A} (x y : A) n n' : ret x n = Done y n' ↔ y = x ∧ n' = n.
Proof. unfold ret. split; [by inversion 1 | by intros [-> ->]]. Qed.

(** A call whose arguments were evaluated has evaluated them one after
    the other, in one of the orders. *)
Lemma args2_Done {A B C} o (m1 : M A) (m2 : M B) (k : A → B → M C) n r n' :
  args2 o m1 m2 k n = Done r n' →
  ∃ x y n1 n2, k x y n2 = Done r n' ∧
    ((m1 n = Done x n1 ∧ m2 n1 = Done y n2) ∨ (m2 n = Done y n1 ∧ m1 n1 = Done x n2)).
Proof.
  unfold args2. destruct (pick o); intros H;
    apply bind_Done in H as (u & n1 & Hu & H); apply bind_Done in H as (v & n2 & Hv & H).
  - exists u, v, n1, n2. auto.
  - exists v, u, n1, n2. auto.
Qed.

Lemma args3_Done {A B C D} o (m1 : M A) (m2 : M B) (m3 : M C) (k : A → B → C → M D) n r n' :
  args3 o m1 m2 m3 k n = Done r n' →
  (∃ x n1, m1 n = Done x n1 ∧ args2 (tail o) m2 m3 (λ y z, k x y z) n1 = Done r n') ∨
  (∃ y n1, m2 n = Done y n1 ∧ args2 (tail o) m1 m3 (λ x z, k x y z) n1 = Done r n') ∨
  (∃ z n1, m3 n = Done z n1 ∧ args2 (tail o) m1 m2 (λ x y, k x y z) n1 = Done r n').
Proof.
  unfold args3. destruct (pick o) as [|[|?]]; intros H;
    apply bind_Done in H as (u & n1 & Hu & H); eauto 6.
Qed.

Lemma args4_Done {A B C D E} o (m1 : M A) (m2 : M B) (m3 : M C) (m4 : M D)
    (k : A → B → C → D → M E) n r n' :
  args4 o m1 m2 m3 m4 k n = Done r n' →
  (∃ x n1, m1 n = Done x n1 ∧ args3 (tail o) m2 m3 m4 (λ y z w, k x y z w) n1 = Done r n') ∨
  (∃ y n1, m2 n = Done y n1 ∧ args3 (tail o) m1 m3 m4 (λ x z w, k x y z w) n1 = Done r n') ∨
  (∃ z n1, m3 n = Done z n1 ∧ args3 (tail o) m1 m2 m4 (λ x y w, k x y z w) n1 = Done r n') ∨
  (∃ w n1, m4 n = Done w n1 ∧ args3 (tail o) m1 m2 m3 (λ x y z, k x y z w) n1 = Done r n').
Proof.
  unfold args4. destruct (pick o) as [|[|[|?]]]; intros H;
    apply bind_Done in H as (u & n1 & Hu & H); eauto 8.
Qed.

(** Splits a hypothesis [m n = Done y n'] along the binds of [m] and the
    orders of the arguments of its calls. *)
Ltac inv_Done H :=
  repeat match type of H with
  | bind _ _ _ = Done _ _ =>
      let x := fresh "x" in let n := fresh "n" in let Hx := fresh "Hx" in
      apply bind_Done in H as (x & n & Hx & H)
  | args2 _ _ _ _ _ = Done _ _ =>
      let Hx := fresh "Hx" in let Hy := fresh "Hy" in
      apply args2_Done in H as (? & ? & ? & ? & H & [[Hx Hy]|[Hx Hy]]); cbv beta in H
  | args3 _ _ _ _ _ _ = Done _ _ =>
      let Hx := fresh "Hx" in
      apply args3_Done in H as [(? & ? & Hx & H)|[(? & ? & Hx & H)|(? & ? & Hx & H)]]
  | args4 _ _ _ _ _ _ _ = Done _ _ =>
      let Hx := fresh "Hx" in
      apply args4_Done in H
        as [(? & ? & Hx & H)|[(? & ? & Hx & H)|[(? & ? & Hx & H)|(? & ? & Hx & H)]]]
  | ret _ _ = Done _ _ => apply ret_Done in H as [? ?]
  | make_unique _ _ = Done _ _ => apply make_unique_Done in H as [? ?]
  | throw _ = Done _ _ => discriminate H
  | fault _ = Done _ _ => discriminate H
  | out_of_fuel _ = Done _ _ => discriminate H
  end.

Lemma mapM_Done {A B} (f : A → M B) (P : A → B → Prop) l n l' n' :
  (∀ x m y m', x ∈ l → f x m = Done y m' → P x y) →
  mapM f l n = Done l' n' → Forall2 P l l'.
Proof.
  revert n l'. induction l as [|x l IH]; intros n l' Hf H; simpl in H.
  - inv_Done H. subst. constructor.
  - inv_Done H. subst. constructor.
    + eapply Hf; [left|eassumption].
    + eapply IH; [|eassumption]. intros; eapply Hf; [by right|eassumption].
Qed.

Lemma mapM_returns {A B} (f : A → M B) l :
  Forall (λ x, ∀ n, ∃ y n', f x n = Done y n') l →
  ∀ n, ∃ l' n', mapM f l n = Done l' n'.
Proof.
  induction 1 as [|x l Hx _ IH]; intros n; simpl.
  - by eexists _, _.
  - destruct (Hx n) as (y & n1 & Hy). destruct (IH n1) as (l' & n2 & Hl).
    exists (y :: l'), n2. unfold bind. by rewrite Hy, Hl.
Qed.

Lemma mapM_next {A B} (f : A → M B) l n l' n' :
  (∀ x m y m', x ∈ l → f x m = Done y m' → m ≤ m') →
  mapM f l n = Done l' n' → n ≤ n'.
Proof.
  revert n l'. induction l as [|x l IH]; intros n l' Hf H; simpl in H.
  - inv_Done H. lia.
  - inv_Done H. subst.
    assert (n ≤ n0) by (eapply Hf; [left|eassumption]).
    assert (n0 ≤ n1); [|lia].
    eapply IH; [|eassumption]. intros; eapply Hf; [by right|eassumption].
Qed.

(** ** Facts on the pieces of the copy *)

Section PieceFacts.

Variable rec : Expression → M Expression.
Hypothesis rec_increasing : increasing rec.

Lemma slot_copied_weaken lo hi lo' hi' p q :
  lo' ≤ lo → hi ≤ hi' → slot_copied rec lo hi p q → slot_copied rec lo' hi' p q.
Proof.
  intros ?? [?|(c & c' & m & m' & ? & ? & ? & ? & ?)]; [by left|right].
  exists c, c', m, m'. split_and!; try done; lia.
Qed.

Lemma slots_copied_weaken lo hi lo' hi' l l' :
  lo' ≤ lo → hi ≤ hi' →
  Forall2 (slot_copied rec lo hi) l l' → Forall2 (slot_copied rec lo' hi') l l'.
Proof.
  intros ?? H. eapply Forall2_impl; [exact H|].
  intros p q. by apply slot_copied_weaken.
Qed.

Lemma copy_Done p n c' n' :
  copy rec p n = Done c' n' → ∃ c, p = Some c ∧ rec c n = Done c' n'.
Proof. destruct p as [c|]; [|done]. simpl. eauto. Qed.

Lemma copy_slot p n c' n' :
  copy rec p n = Done c' n' → n ≤ n' ∧ slot_copied rec n n' p (Some c').
Proof.
  intros (c & -> & H)%copy_Done. split; [by eapply rec_increasing|].
  right. exists c, c', n, n'. split_and!; [done|done|lia|lia|by left].
Qed.

Lemma cast_tree_cases T c : cast_tree T (Some c) = Some c ∨ cast_tree T (Some c) = None.
Proof. unfold cast_tree. destruct (isa_tree T (Some c)); auto. Qed.

Lemma copyAs_slot T p n q n' :
  copyAs rec T p n = Done q n' → n ≤ n' ∧ slot_copied rec n n' p q.
Proof.
  unfold copyAs. intros H.
  apply bind_Done in H as (c' & n1 & Hc & H). apply ret_Done in H as [-> ->].
  apply copy_Done in Hc as (c & -> & Hc). split; [by eapply rec_increasing|].
  right. exists c, c', n, n1. split_and!; [done|done|lia|lia|apply cast_tree_cases].
Qed.

Lemma copyBlock_slot p n q n' :
  copyBlock rec p n = Done q n' → n ≤ n' ∧ slot_copied rec n n' p q.
Proof.
  destruct p as [c|]; simpl.
  - apply copyAs_slot.
  - intros [-> ->]%ret_Done. split; [done|]. by left.
Qed.

Lemma deepCopyVec_slots Elem l n l' n' :
  deepCopyVec rec Elem l n = Done l' n' → n ≤ n' ∧ Forall2 (slot_copied rec n n') l l'.
Proof.
  unfold deepCopyVec. revert n l'. induction l as [|p l IH]; intros n l' H; simpl in H.
  - apply ret_Done in H as [-> ->]. split; [done|constructor].
  - apply bind_Done in H as (q & n1 & Hq & H).
    apply bind_Done in Hq as (c' & n0 & Hc & Hq). apply ret_Done in Hq as [-> ->].
    apply bind_Done in H as (qs & n2 & Hqs & H). apply ret_Done in H as [-> ->].
    apply copy_Done in Hc as (c & -> & Hc).
    pose proof (rec_increasing _ _ _ _ Hc).
    apply IH in Hqs as [? Hl]. split; [lia|]. constructor.
    + right. exists c, c', n, n0.
      split_and!; [done|done|lia|lia|apply cast_tree_cases].
    + eapply slots_copied_weaken; [| |exact Hl]; lia.
Qed.

End PieceFacts.

(** Turns the hypotheses on the pieces into facts on the pointers. *)
Ltac pieces Hinc :=
  repeat match goal with
  | H : copy _ _ _ = Done _ _ |- _ => apply (copy_slot _ Hinc) in H as [? ?]
  | H : copyAs _ _ _ _ = Done _ _ |- _ => apply (copyAs_slot _ Hinc) in H as [? ?]
  | H : copyBlock _ _ _ = Done _ _ |- _ => apply (copyBlock_slot _ Hinc) in H as [? ?]
  | H : deepCopyVec _ _ _ _ = Done _ _ |- _ => apply (deepCopyVec_slots _ Hinc) in H as [? ?]
  end.

Ltac slots :=
  repeat first
    [ apply Forall2_nil_2
    | apply Forall2_cons_2
    | apply Forall2_app ];
  first [ eapply slot_copied_weaken; [| |eassumption]; lia
        | eapply slots_copied_weaken; [| |eassumption]; lia ].

(** The copy of a node that is no [TreeRef] is a new node, allocated after
    the copies of what its pointers hold; the copy of a [TreeRef] is the copy
    of its target. *)
Lemma copy_node_Done rec avoid e n e' n' :
  increasing rec →
  copy_node rec avoid e n = Done e' n' →
  (class_of e ≠ K_TreeRef ∧ class_of e' = class_of e ∧ n' = S (address e') ∧
   n ≤ address e' ∧
   Forall2 (slot_copied rec n (address e')) (children e) (children e')) ∨
  (∃ a loc t target, e = TreeRef a loc (Some t) ∧ t ≠ avoid ∧
     shared !! t = Some target ∧ rec target n = Done e' n').
Proof.
  intros Hinc H.
  destruct e; simpl in H;
    try (left; inv_Done H; subst; pieces Hinc; simpl;
         (split_and!; [done|done|done|lia|slots])).
  right. case_bool_decide as Ht; [done|].
  destruct tree as [t|]; [|done].
  destruct (shared !! t) as [target|] eqn:Hs; [|done].
  exists a, loc, t, target. split_and!; try done. congruence.
Qed.

(** ** Where an error comes from *)

Lemma copy_Thrown rec p n :
  copy rec p n = Thrown → ∃ c, p = Some c ∧ rec c n = Thrown.
Proof. destruct p as [c|]; [|done]. simpl. eauto. Qed.

Lemma copyAs_Thrown rec T p n :
  copyAs rec T p n = Thrown → ∃ c, p = Some c ∧ rec c n = Thrown.
Proof.
  unfold copyAs. intros [H|(? & ? & _ & H)]%bind_Thrown; [|done].
  by apply copy_Thrown.
Qed.

Lemma copyBlock_Thrown rec p n :
  copyBlock rec p n = Thrown → ∃ c, p = Some c ∧ rec c n = Thrown.
Proof. destruct p as [c|]; [|done]. simpl. apply copyAs_Thrown. Qed.

Lemma deepCopyVec_Thrown rec Elem l n :
  deepCopyVec rec Elem l n = Thrown → ∃ c m, Some c ∈ l ∧ rec c m = Thrown.
Proof.
  unfold deepCopyVec. revert n. induction l as [|p l IH]; intros n H; simpl in H; [done|].
  apply bind_Thrown in H as [H|(q & n1 & _ & H)].
  - apply bind_Thrown in H as [H|(? & ? & _ & H)]; [|done].
    apply copy_Thrown in H as (c & -> & H). exists c, n. split; [left|done].
  - apply bind_Thrown in H as [H|(? & ? & _ & H)]; [|done].
    apply IH in H as (c & m & ? & ?). exists c, m. split; [by right|done].
Qed.

(** An error in a call with several arguments comes from one of the
    arguments, or from the call. *)
Lemma args2_Thrown {A B C} o (m1 : M A) (m2 : M B) (k : A → B → M C) n :
  args2 o m1 m2 k n = Thrown →
  (∃ a, m1 a = Thrown) ∨ (∃ a, m2 a = Thrown) ∨ (∃ x y a, k x y a = Thrown).
Proof.
  unfold args2. destruct (pick o); intros H;
    apply bind_Thrown in H as [H|(? & ? & _ & H)]; eauto;
    apply bind_Thrown in H as [H|(? & ? & _ & H)]; eauto 7.
Qed.

Lemma args3_Thrown {A B C D} o (m1 : M A) (m2 : M B) (m3 : M C) (k : A → B → C → M D) n :
  args3 o m1 m2 m3 k n = Thrown →
  (∃ a, m1 a = Thrown) ∨ (∃ a, m2 a = Thrown) ∨ (∃ a, m3 a = Thrown) ∨
  (∃ x y z a, k x y z a = Thrown).
Proof.
  unfold args3. destruct (pick o) as [|[|?]]; intros H;
    apply bind_Thrown in H as [H|(? & ? & _ & H)]; eauto 6;
    apply args2_Thrown in H as [[? H]|[[? H]|(? & ? & ? & H)]]; eauto 9.
Qed.

Lemma args4_Thrown {A B C D E} o (m1 : M A) (m2 : M B) (m3 : M C) (m4 : M D)
    (k : A → B → C → D → M E) n :
  args4 o m1 m2 m3 m4 k n = Thrown →
  (∃ a, m1 a = Thrown) ∨ (∃ a, m2 a = Thrown) ∨ (∃ a, m3 a = Thrown) ∨
  (∃ a, m4 a = Thrown) ∨ (∃ x y z w a, k x y z w a = Thrown).
Proof.
  unfold args4. destruct (pick o) as [|[|[|?]]]; intros H;
    apply bind_Thrown in H as [H|(? & ? & _ & H)]; eauto 7;
    apply args3_Thrown in H as [[? H]|[[? H]|[[? H]|(? & ? & ? & ? & H)]]]; eauto 11.
Qed.

Ltac inv_Thrown H :=
  repeat match type of H with
  | bind _ _ _ = Thrown => apply bind_Thrown in H as [H|(? & ? & _ & H)]
  | args2 _ _ _ _ _ = Thrown =>
      apply args2_Thrown in H as [[? H]|[[? H]|(? & ? & ? & H)]]
  | args3 _ _ _ _ _ _ = Thrown =>
      apply args3_Thrown in H as [[? H]|[[? H]|[[? H]|(? & ? & ? & ? & H)]]]
  | args4 _ _ _ _ _ _ _ = Thrown =>
      apply args4_Thrown in H
        as [[? H]|[[? H]|[[? H]|[[? H]|(? & ? & ? & ? & ? & H)]]]]
  end.

Ltac blame H :=
  first
    [ discriminate H
    | apply copy_Thrown in H as (? & -> & H)
    | apply copyAs_Thrown in H as (? & -> & H)
    | apply copyBlock_Thrown in H as (? & -> & H)
    | apply deepCopyVec_Thrown in H as (? & ? & ? & H) ];
  eexists _, _; (split; [|exact H]); unfold child; simpl;
  rewrite ?elem_of_cons, ?elem_of_app, ?elem_of_cons; auto 8.

(** An error in the copy of a node comes from the copy of a child, or the
    node is a [TreeRef] that is null or points to the avoided node, or
    whose target does not copy. *)
Lemma copy_node_Thrown rec avoid e n :
  copy_node rec avoid e n = Thrown →
  (∃ c m, child e c ∧ rec c m = Thrown) ∨
  (∃ a loc tree, e = TreeRef a loc tree ∧ (tree = None ∨ tree = Some avoid)) ∨
  (∃ a loc t target, e = TreeRef a loc (Some t) ∧
     shared !! t = Some target ∧ rec target n = Thrown).
Proof.
  intros H.
  destruct e; simpl in H; try (left; inv_Thrown H; blame H).
  right. case_bool_decide as Ht; [left; eauto 6|].
  destruct tree as [t|]; [|left; eauto 6].
  destruct (shared !! t) as [target|] eqn:Hs; [|done].
  right. by exists a, loc, t, target.
Qed.

(** ** Facts on [_deepCopy] *)

Lemma _deepCopy_S fuel avoid root this :
  _deepCopy (S fuel) avoid root this =
  if negb root && bool_decide (address this = avoid) then throw
  else copy_node (_deepCopy fuel avoid false) avoid this.
Proof. done. Qed.

Lemma _deepCopy_increasing fuel avoid root : increasing (_deepCopy fuel avoid root).
Proof.
  revert root. induction fuel as [|fuel IH]; intros root e n e' n' H; [done|].
  rewrite _deepCopy_S in H. destruct (negb root && _); [done|].
  apply copy_node_Done in H as [(_ & _ & -> & ? & _)|(? & ? & ? & ? & _ & _ & _ & H)];
    [lia| |apply IH].
  by eapply IH.
Qed.

Lemma Forall2_elem_of_l {A B} (P : A → B → Prop) l l' x :
  Forall2 P l l' → x ∈ l → ∃ y, y ∈ l' ∧ P x y.
Proof.
  induction 1 as [|x0 y0 l l' ? ? IH]; [by intros ?%elem_of_nil|].
  intros [->|Hin]%elem_of_cons.
  - exists y0. split; [left|done].
  - destruct (IH Hin) as (y & ? & ?). exists y. split; [by right|done].
Qed.

Lemma Forall2_elem_of_r {A B} (P : A → B → Prop) l l' y :
  Forall2 P l l' → y ∈ l' → ∃ x, x ∈ l ∧ P x y.
Proof.
  induction 1 as [|x0 y0 l l' ? ? IH]; [by intros ?%elem_of_nil|].
  intros [->|Hin]%elem_of_cons.
  - exists x0. split; [left|done].
  - destruct (IH Hin) as (x & ? & ?). exists x. split; [by right|done].
Qed.

(** What holds of a node and is kept by every step holds of all that the
    node reaches. *)
Lemma reaches_closed (P : Expression → Prop) T x :
  P T → (∀ y z, P y → visits y z → P z) → reaches T x → P x.
Proof. intros HT Hstep Hr. induction Hr; eauto. Qed.

(** A copy that returns a tree has copied all that the node leads to,
    with one unit of fuel less. *)
Lemma _deepCopy_Done_below fuel avoid root e n e' n' c :
  _deepCopy (S fuel) avoid root e n = Done e' n' → visits e c →
  ∃ m c' m', _deepCopy fuel avoid false c m = Done c' m'.
Proof.
  rewrite _deepCopy_S.
  destruct (negb root && _); [done|]. intros H Hv.
  apply copy_node_Done in H
      as [(Hk & _ & _ & _ & Hsl)|(a & loc & t & target & -> & ? & Hs & H)];
    [| |apply _deepCopy_increasing].
  - destruct Hv as [e c Hc|]; [|done].
    destruct (Forall2_elem_of_l _ _ _ _ Hsl Hc)
      as (q & _ & [[? _]|(c0 & c' & m & m' & [= <-] & Hrec & _)]); [done|].
    by exists m, c', m'.
  - inversion Hv as [? ? Hc|? ? ? ? Hs']; subst.
    + unfold child in Hc. simpl in Hc. by apply elem_of_nil in Hc.
    + rewrite Hs in Hs'. injection Hs' as <-. by exists n, e', n'.
Qed.

Lemma _deepCopy_Done_visits fuel avoid root e n e' n' c :
  _deepCopy fuel avoid root e n = Done e' n' → visits e c → survives avoid c.
Proof.
  destruct fuel as [|fuel]; [done|]. intros H Hv.
  destruct (_deepCopy_Done_below _ _ _ _ _ _ _ _ H Hv) as (m & c' & m' & Hc).
  by exists fuel, m, c', m'.
Qed.

(** A copy that returns a tree has come to the end of the traversal. *)
Lemma _deepCopy_Done_finite fuel avoid root e n e' n' :
  _deepCopy fuel avoid root e n = Done e' n' → finite_from avoid e.
Proof.
  revert root e n e' n'. induction fuel as [|fuel IH]; intros root e n e' n' H; [done|].
  constructor. intros c [Hv _].
  destruct (_deepCopy_Done_below _ _ _ _ _ _ _ _ H Hv) as (m & c' & m' & Hc).
  by eapply IH.
Qed.

Lemma survives_visits avoid e c : survives avoid e → visits e c → survives avoid c.
Proof. intros (fuel & n & e' & n' & H). by eapply _deepCopy_Done_visits. Qed.

Lemma survives_reaches avoid e x : survives avoid e → reaches e x → survives avoid x.
Proof. intros He Hr. induction Hr; [done|]. eauto using survives_visits. Qed.

Lemma survives_address avoid e : survives avoid e → address e ≠ avoid.
Proof.
  intros (fuel & n & e' & n' & H) Heq. destruct fuel as [|fuel]; [done|].
  rewrite _deepCopy_S in H. simpl in H. by rewrite bool_decide_eq_true_2 in H.
Qed.

(** The [TreeRef]s that the copy has passed have a target, which is not
    the avoided node and which it has copied. *)
Lemma _deepCopy_Done_TreeRef fuel avoid root a loc tree n e' n' :
  _deepCopy fuel avoid root (TreeRef a loc tree) n = Done e' n' →
  ∃ t target, tree = Some t ∧ t ≠ avoid ∧ shared !! t = Some target ∧ survives avoid target.
Proof.
  intros H. pose proof H as H'.
  destruct fuel as [|fuel]; [done|]. rewrite _deepCopy_S in H.
  destruct (negb root && _); [done|]. simpl in H.
  case_bool_decide as Ht; [done|].
  destruct tree as [t|]; [|done].
  destruct (shared !! t) as [target|] eqn:Hs; [|done].
  exists t, target. split_and!; try done; [congruence|].
  by exists fuel, n, e', n'.
Qed.

(** What a copy that returns a tree has reached is no obstacle. *)
Lemma _deepCopy_Done_not_blocked fuel avoid e n e' n' :
  _deepCopy fuel avoid true e n = Done e' n' → ¬ blocked avoid e.
Proof.
  intros H (a & loc & tree & Hr & Hbad).
  assert (∃ t target, tree = Some t ∧ t ≠ avoid ∧ shared !! t = Some target ∧
                      survives avoid target) as (t & target & -> & Ht & Hs & Hsurv).
  { apply rtc_inv in Hr as [He|(c & Hv & Hr)].
    - subst e. by eapply _deepCopy_Done_TreeRef.
    - pose proof (_deepCopy_Done_visits _ _ _ _ _ _ _ _ H Hv) as Hc.
      destruct (survives_reaches _ _ _ Hc Hr) as (f & m & x & m' & Hx).
      by eapply _deepCopy_Done_TreeRef. }
  destruct Hbad as [?|(t' & [= <-] & [?|(target' & x & Hs' & Hrx & Hx)])]; [done..|].
  rewrite Hs in Hs'. injection Hs' as <-.
  by apply (survives_address avoid x); [eapply survives_reaches|].
Qed.

(** The cause of an error: the avoided node, met below the root, or a
    [TreeRef] that is null or points to the avoided node. *)
Lemma _deepCopy_Thrown fuel avoid root e n :
  _deepCopy fuel avoid root e n = Thrown →
  (root = false ∧ address e = avoid) ∨
  (∃ x, tc visits e x ∧ address x = avoid) ∨
  (∃ a loc tree, reaches e (TreeRef a loc tree) ∧ (tree = None ∨ tree = Some avoid)).
Proof.
  revert root e n. induction fuel as [|fuel IH]; intros root e n H; [done|].
  rewrite _deepCopy_S in H.
  destruct (negb root && _) eqn:Hguard.
  { left. apply andb_true_iff in Hguard as [?%negb_true_iff ?%bool_decide_eq_true]. done. }
  assert (Hstep : ∀ c m, visits e c → _deepCopy fuel avoid false c m = Thrown →
    (∃ x, tc visits e x ∧ address x = avoid) ∨
    (∃ a loc tree, reaches e (TreeRef a loc tree) ∧ (tree = None ∨ tree = Some avoid))).
  { intros c m Hv Hc. destruct (IH _ _ _ Hc) as [[_ ?]|[(x & ? & ?)|(a & loc & tree & ? & ?)]].
    - left. exists c. split; [by apply tc_once|done].
    - left. exists x. split; [by eapply tc_l|done].
    - right. exists a, loc, tree. split; [by eapply rtc_l|done]. }
  right.
  apply copy_node_Thrown in H
    as [(c & m & Hc & H)|[(a & loc & tree & He & Ht)|(a & loc & t & target & He & Hs & H)]].
  - eapply Hstep; [by apply visits_child|done].
  - right. exists a, loc, tree. rewrite He. split; [apply rtc_refl|done].
  - eapply Hstep; [|done]. rewrite He. by apply visits_target.
Qed.

(** A path either stays within what the first node owns, or it passes a
    [TreeRef] and goes on from its target. *)
Lemma tc_visits_split e x :
  tc visits e x →
  (∃ c, child e c ∧ owns c x) ∨
  (∃ a loc t target, reaches e (TreeRef a loc (Some t)) ∧
     shared !! t = Some target ∧ reaches target x).
Proof.
  induction 1 as [e x Hv|e y x Hv Htc IH].
  - destruct Hv as [e c Hc|a loc t target Hs].
    + left. exists c. split; [done|apply rtc_refl].
    + right. exists a, loc, t, target. split_and!; [apply rtc_refl|done|apply rtc_refl].
  - destruct Hv as [e c Hc|a loc t target Hs].
    + destruct IH as [(c' & Hc' & Hown)|(a & loc & t & target & Hr & Hs & Hx)].
      * left. exists c. split; [done|]. by eapply rtc_l.
      * right. exists a, loc, t, target. split_and!; [|done..].
        eapply rtc_l; [|done]. by apply visits_child.
    + right. exists a, loc, t, target. split_and!; [apply rtc_refl|done|].
      by apply tc_rtc.
Qed.

Lemma _deepCopy_Thrown_blocked fuel T n :
  root_unique T → _deepCopy fuel (address T) true T n = Thrown → blocked (address T) T.
Proof.
  intros Huniq H.
  apply _deepCopy_Thrown in H as [[? _]|[(x & Hx & Hax)|(a & loc & tree & Hr & Ht)]]; [done| |].
  - apply tc_visits_split in Hx as [(c & Hc & Hown)|(a & loc & t & target & Hr & Hs & Hrx)].
    + by destruct (Huniq c x Hc Hown).
    + exists a, loc, (Some t). split; [done|]. right. exists t. split; [done|].
      right. by exists target, x.
  - exists a, loc, tree. split; [done|].
    destruct Ht as [->| ->]; [by left|]. right. exists (address T). split; [done|by left].
Qed.

(** ** The copy is similar to the original *)

Section SimilarPieces.

Variable via : gmap addr Expression.
Variable rec : Expression → M Expression.

Lemma copy_similar p n c' n' :
  (∀ c, Some c ∈ [p] → ∀ m c' m', rec c m = Done c' m' → stands_for via c c') →
  copy rec p n = Done c' n' → option_Forall2 (similar via) p (Some c').
Proof.
  intros Hrec (c & -> & H)%copy_Done. constructor.
  eapply Hrec; [by apply list_elem_of_singleton|done].
Qed.

Lemma copyAs_similar T p n q n' :
  (∀ c, Some c ∈ [p] → ∀ m c' m', rec c m = Done c' m' → stands_for via c c') →
  has_class (λ k, T k && negb (exactly K_TreeRef k)) p →
  copyAs rec T p n = Done q n' → option_Forall2 (similar via) p q.
Proof.
  intros Hrec Hty H. unfold copyAs in H.
  apply bind_Done in H as (c' & n1 & Hc & H). apply ret_Done in H as [-> ->].
  apply copy_Done in Hc as (c & -> & Hc).
  destruct (Hrec c (proj2 (list_elem_of_singleton _ _) eq_refl) _ _ _ Hc) as [Hsim Hk].
  specialize (Hty c eq_refl). apply andb_true_iff in Hty as [HT Hnot].
  unfold cast_tree, isa_tree. rewrite Hk, HT; [by constructor|].
  intros Heq. unfold exactly in Hnot. by rewrite bool_decide_eq_true_2 in Hnot.
Qed.

Lemma copyBlock_similar p n q n' :
  (∀ c, Some c ∈ [p] → ∀ m c' m', rec c m = Done c' m' → stands_for via c c') →
  has_class (exactly K_Block) p →
  copyBlock rec p n = Done q n' → option_Forall2 (similar via) p q.
Proof.
  intros Hrec Hty. destruct p as [c|]; simpl.
  - apply copyAs_similar; [done|]. intros ? [= <-].
    specialize (Hty c eq_refl). rewrite Hty. simpl.
    unfold exactly in *. apply bool_decide_eq_true in Hty. rewrite Hty. done.
  - intros [-> ->]%ret_Done. constructor.
Qed.

Lemma deepCopyVec_similar Elem l n l' n' :
  (∀ c, Some c ∈ l → ∀ m c' m', rec c m = Done c' m' → stands_for via c c') →
  (Elem = AnyExpression ∨ Forall (has_class (λ k, Elem k && negb (exactly K_TreeRef k))) l) →
  deepCopyVec rec Elem l n = Done l' n' → Forall2 (option_Forall2 (similar via)) l l'.
Proof.
  unfold deepCopyVec. revert n l'.
  induction l as [|p l IH]; intros n l' Hrec Hty H; simpl in H.
  - apply ret_Done in H as [-> ->]. constructor.
  - apply bind_Done in H as (q & n1 & Hq & H).
    apply bind_Done in H as (qs & n2 & Hqs & H). apply ret_Done in H as [-> ->].
    constructor.
    + destruct Hty as [->|Hty].
      * apply bind_Done in Hq as (c' & n0 & Hc & Hq). apply ret_Done in Hq as [-> ->].
        eapply copy_similar; [|exact Hc].
        intros c ?%list_elem_of_singleton. subst. apply Hrec. left.
      * eapply (copyAs_similar Elem); [| |exact Hq].
        -- intros c ?%list_elem_of_singleton. subst. apply Hrec. left.
        -- by apply Forall_cons in Hty as [? _].
    + eapply IH; [| |exact Hqs].
      * intros c ?. apply Hrec. by right.
      * destruct Hty as [->|Hty]; [by left|right]. by apply Forall_cons in Hty as [_ ?].
Qed.

End SimilarPieces.

Ltac below Hch :=
  let c := fresh "c" in let Hin := fresh "Hin" in
  intros c Hin; apply Hch; unfold child; simpl;
  revert Hin; rewrite ?elem_of_cons, ?elem_of_app, ?elem_of_cons, ?elem_of_nil; tauto.

Lemma exactly_not_TreeRef k l :
  k ≠ K_TreeRef → Forall (has_class (exactly k)) l →
  Forall (has_class (λ k', exactly k k' && negb (exactly K_TreeRef k'))) l.
Proof.
  intros Hk Hty. eapply Forall_impl; [exact Hty|]. intros p Hp c ->.
  specialize (Hp c eq_refl). unfold exactly in *.
  apply bool_decide_eq_true in Hp. rewrite Hp.
  rewrite bool_decide_eq_true_2 by done. by rewrite bool_decide_eq_false_2.
Qed.

Ltac similar_slots Hch Hty :=
  first
    [ eapply copy_similar; [below Hch|eassumption]
    | eapply deepCopyVec_similar; [below Hch|by left|eassumption]
    | eapply copyAs_similar; [below Hch|exact Hty|eassumption]
    | eapply copyBlock_similar; [below Hch|exact Hty|eassumption]
    | eapply deepCopyVec_similar; [below Hch| |eassumption];
        right; by apply exactly_not_TreeRef ].

(** The copy of a node is similar to the node, when the copies of what it
    leads to stand for their originals. *)
Lemma copy_node_similar via rec avoid e n e' n' :
  (∀ c, visits e c → ∀ m c' m', rec c m = Done c' m' → stands_for via c c') →
  slot_typed e →
  (∀ a loc t, e = TreeRef a loc (Some t) → via !! t = shared !! t) →
  copy_node rec avoid e n = Done e' n' → similar via e e'.
Proof.
  intros Hrec Hty Hvia H.
  assert (Hch : ∀ c, child e c → ∀ m c' m', rec c m = Done c' m' → stands_for via c c').
  { intros c Hc. apply Hrec. by apply visits_child. }
  destruct e; simpl in H, Hty;
    try (solve [inv_Done H; subst; constructor; similar_slots Hch Hty]).
  (* TreeRef *)
  case_bool_decide as Ht; [done|].
  destruct tree as [t|]; [|done].
  destruct (shared !! t) as [target|] eqn:Hs; [|done].
  apply sim_expand with target; [by rewrite (Hvia a loc t)|].
  eapply Hrec; [by apply visits_target|exact H].
Qed.

Lemma _deepCopy_stands_for via fuel avoid root e n e' n' :
  well_typed e →
  (∀ a loc t, reaches e (TreeRef a loc (Some t)) → via !! t = shared !! t) →
  _deepCopy fuel avoid root e n = Done e' n' → stands_for via e e'.
Proof.
  revert root e n e' n'. induction fuel as [|fuel IH]; intros root e n e' n' Hty Hvia H; [done|].
  rewrite _deepCopy_S in H. destruct (negb root && _); [done|].
  split.
  - eapply copy_node_similar; [|by apply Hty, rtc_refl| |exact H].
    + intros c Hc m c' m' Hrec. eapply IH; [| |exact Hrec].
      * intros x Hx. apply Hty. by eapply rtc_l.
      * intros a loc t Hr. eapply Hvia. by eapply rtc_l.
    + intros a loc t ->. eapply Hvia, rtc_refl.
  - intros Hk.
    apply copy_node_Done in H as [(_ & ? & _)|(? & ? & ? & ? & -> & _)];
      [done|done|apply _deepCopy_increasing].
Qed.

(** The nodes of a copy are new, and none of them is a [TreeRef]. *)
Lemma _deepCopy_fresh fuel avoid root e n e' n' :
  _deepCopy fuel avoid root e n = Done e' n' →
  ∀ x, owns e' x → n ≤ address x < n' ∧ class_of x ≠ K_TreeRef.
Proof.
  revert root e n e' n'. induction fuel as [|fuel IH]; intros root e n e' n' H; [done|].
  rewrite _deepCopy_S in H. destruct (negb root && _); [done|].
  apply copy_node_Done in H
      as [(Hk & Hk' & -> & Hn & Hsl)|(a & loc & t & target & -> & ? & Hs & H)];
    [| |apply _deepCopy_increasing].
  - intros x [->|(c' & Hc' & Hx)]%rtc_inv.
    + split; [lia|congruence].
    + destruct (Forall2_elem_of_r _ _ _ _ Hsl Hc')
        as (p & _ & [[_ ?]|(c & c0 & m & m' & -> & Hrec & ? & ? & [[= <-]|?])]); [done| |done].
      destruct (IH _ _ _ _ _ Hrec x Hx). split; [lia|done].
  - by eapply IH.
Qed.

(** ** Enough fuel: the copy of a finite tree returns *)

(** Two kinds of outcome are kept by every step of a copy: those of a
    copy that has come to its end, and those of a copy that has met no
    null or dangling pointer.  [good] is either. *)
Section Kinds.

Variable good : ∀ A, outcome A → Prop.
Hypothesis good_Done : ∀ A (x : A) n, good A (Done x n).
Hypothesis good_Thrown : ∀ A, good A Thrown.
Hypothesis good_bind : ∀ A B (m : M A) (k : A → M B) n,
  good A (m n) → (∀ x n', good B (k x n')) → good B (bind m k n).

Lemma args2_good {A B C} o (m1 : M A) (m2 : M B) (k : A → B → M C) n :
  (∀ a, good A (m1 a)) → (∀ a, good B (m2 a)) → (∀ x y a, good C (k x y a)) →
  good C (args2 o m1 m2 k n).
Proof.
  intros H1 H2 Hk. unfold args2.
  destruct (pick o); apply good_bind; try done; intros; apply good_bind; done.
Qed.

Lemma args3_good {A B C D} o (m1 : M A) (m2 : M B) (m3 : M C) (k : A → B → C → M D) n :
  (∀ a, good A (m1 a)) → (∀ a, good B (m2 a)) → (∀ a, good C (m3 a)) →
  (∀ x y z a, good D (k x y z a)) →
  good D (args3 o m1 m2 m3 k n).
Proof.
  intros H1 H2 H3 Hk. unfold args3.
  destruct (pick o) as [|[|?]]; apply good_bind; try done; intros; apply args2_good; done.
Qed.

Lemma args4_good {A B C D E} o (m1 : M A) (m2 : M B) (m3 : M C) (m4 : M D)
    (k : A → B → C → D → M E) n :
  (∀ a, good A (m1 a)) → (∀ a, good B (m2 a)) → (∀ a, good C (m3 a)) →
  (∀ a, good D (m4 a)) → (∀ x y z w a, good E (k x y z w a)) →
  good E (args4 o m1 m2 m3 m4 k n).
Proof.
  intros H1 H2 H3 H4 Hk. unfold args4.
  destruct (pick o) as [|[|[|?]]]; apply good_bind; try done; intros; apply args3_good; done.
Qed.

Variable rec : Expression → M Expression.

Lemma copy_good p n :
  (∀ q, q ∈ [p] → q ≠ None) →
  (∀ c, Some c ∈ [p] → ∀ m, good _ (rec c m)) →
  good _ (copy rec p n).
Proof.
  intros Hnn Hrec. destruct p as [c|]; simpl.
  - apply Hrec. by apply list_elem_of_singleton.
  - by destruct (Hnn None (proj2 (list_elem_of_singleton _ _) eq_refl)).
Qed.

Lemma copyAs_good T p n :
  (∀ q, q ∈ [p] → q ≠ None) →
  (∀ c, Some c ∈ [p] → ∀ m, good _ (rec c m)) →
  good _ (copyAs rec T p n).
Proof. intros. apply good_bind; [by apply copy_good|]. intros. apply good_Done. Qed.

Lemma copyBlock_good p n :
  (∀ c, Some c ∈ [p] → ∀ m, good _ (rec c m)) →
  good _ (copyBlock rec p n).
Proof.
  intros Hrec. destruct p as [c|]; simpl; [|apply good_Done].
  apply copyAs_good; [|done]. by intros q ->%list_elem_of_singleton.
Qed.

Lemma deepCopyVec_good Elem l n :
  (∀ q, q ∈ l → q ≠ None) →
  (∀ c, Some c ∈ l → ∀ m, good _ (rec c m)) →
  good _ (deepCopyVec rec Elem l n).
Proof.
  unfold deepCopyVec. revert n. induction l as [|p l IH]; intros n Hnn Hrec; simpl;
    [apply good_Done|].
  apply good_bind.
  - apply good_bind; [|intros; apply good_Done]. apply copy_good.
    + intros q ->%list_elem_of_singleton. apply Hnn. left.
    + intros c ?%list_elem_of_singleton. subst. apply Hrec. left.
  - intros x n'. apply good_bind; [|intros; apply good_Done]. apply IH.
    + intros q ?. apply Hnn. by right.
    + intros c ?. apply Hrec. by right.
Qed.

Ltac within H :=
  let q := fresh "q" in let Hin := fresh "Hin" in
  intros q Hin; apply H; simpl;
  revert Hin; rewrite ?elem_of_cons, ?elem_of_app, ?elem_of_cons, ?elem_of_nil; tauto.

Ltac settle Hnn Hch :=
  repeat first
    [ apply good_bind; [|intros ? ?]
    | apply args2_good; [intros ?|intros ?|intros ? ? ?]
    | apply args3_good; [intros ?|intros ?|intros ?|intros ? ? ? ?]
    | apply args4_good; [intros ?|intros ?|intros ?|intros ?|intros ? ? ? ? ?]
    | apply copy_good; [within Hnn|within Hch]
    | apply copyAs_good; [within Hnn|within Hch]
    | apply copyBlock_good; within Hch
    | apply deepCopyVec_good; [within Hnn|within Hch]
    | apply good_Done
    | apply good_Thrown ].

(** The copy of a node has a good outcome when the copies of what the
    node leads to have one, and the node has no null or dangling
    pointer. *)
Lemma copy_node_good avoid e n :
  intact avoid e →
  (∀ c, visits e c → ∀ m, good _ (rec c m)) →
  good _ (copy_node rec avoid e n).
Proof.
  intros [Hnn Htarget] Hrec.
  assert (Hch : ∀ c, Some c ∈ children e → ∀ m, good _ (rec c m)).
  { intros c Hc. apply Hrec. by apply visits_child. }
  destruct e; simpl in Hnn, Hch |- *; try (solve [settle Hnn Hch]).
  - (* Send *)
    destruct block as [b|]; simpl in Hnn; settle Hnn Hch.
  - (* TreeRef *)
    case_bool_decide as Hne; [apply good_Thrown|].
    destruct tree as [t|]; [|apply good_Thrown].
    destruct (Htarget a loc t eq_refl) as [target Ht]; [congruence|]. rewrite Ht.
    apply Hrec. by apply visits_target.
Qed.

End Kinds.

(** No null or dangling pointer was dereferenced. *)
Definition faultless {A} (r : outcome A) : Prop := r ≠ Fault.

Lemma bind_settled {A B} (m : M A) (k : A → M B) n :
  settled (m n) → (∀ x n', settled (k x n')) → settled (bind m k n).
Proof. unfold bind. intros Hm Hk. destruct (m n); [apply Hk|done..]. Qed.

Lemma bind_faultless {A B} (m : M A) (k : A → M B) n :
  faultless (m n) → (∀ x n', faultless (k x n')) → faultless (bind m k n).
Proof. unfold bind. intros Hm Hk. destruct (m n); [apply Hk|done..]. Qed.

(** The copy of a node comes to its end when the copies of what the node
    leads to do. *)
Lemma copy_node_settled rec avoid e n :
  intact avoid e →
  (∀ c, visits e c → ∀ m, settled (rec c m)) →
  settled (copy_node rec avoid e n).
Proof.
  apply (copy_node_good (@settled)); [done..|]. intros. by apply bind_settled.
Qed.

(** The copy of a node meets no null or dangling pointer when the node has
    none and the copies of what it leads to meet none. *)
Lemma copy_node_faultless rec avoid e n :
  intact avoid e →
  (∀ c, visits e c → ∀ m, faultless (rec c m)) →
  faultless (copy_node rec avoid e n).
Proof.
  apply (copy_node_good (@faultless)); [done..|]. intros. by apply bind_faultless.
Qed.

Lemma visits_successors e c : visits e c → c ∈ successors e.
Proof.
  unfold successors. intros [e' c' Hc|a loc t target Hs]; apply elem_of_app.
  - left. apply list_elem_of_omap. by exists (Some c').
  - right. rewrite Hs. simpl. left.
Qed.

Lemma uniform_fuel (P : nat → Expression → Prop) l :
  Forall (λ y, ∃ f, ∀ f', f ≤ f' → P f' y) l →
  ∃ F, ∀ f', F ≤ f' → Forall (P f') l.
Proof.
  induction 1 as [|y l [f Hf] _ [F HF]]; [by exists 0|].
  exists (f `max` F). intros f' ?. constructor; [apply Hf|apply HF]; lia.
Qed.

Lemma _deepCopy_settles avoid e :
  finite_from avoid e →
  (∀ x, reaches e x → intact avoid x) →
  ∃ fuel, ∀ fuel', fuel ≤ fuel' → ∀ root n, settled (_deepCopy fuel' avoid root e n).
Proof.
  induction 1 as [e _ IH]. intros Hintact.
  destruct (uniform_fuel (λ f y, ∀ n, settled (_deepCopy f avoid false y n)) (successors e))
    as [F HF].
  { apply Forall_forall. intros y Hy.
    assert (Hv : visits e y).
    { unfold successors in Hy. apply elem_of_app in Hy as [Hy|Hy].
      - apply list_elem_of_omap in Hy as ([c|] & Hc & [= <-]). by apply visits_child.
      - destruct e; try by apply elem_of_nil in Hy.
        destruct tree as [t|]; [|by apply elem_of_nil in Hy].
        destruct (shared !! t) eqn:Hs; [|by apply elem_of_nil in Hy].
        apply list_elem_of_singleton in Hy as ->. by apply visits_target. }
    destruct (decide (address y = avoid)) as [Hy'|Hy'].
    - exists 1. intros [|f'] ? n; [lia|]. rewrite _deepCopy_S. simpl.
      by rewrite bool_decide_eq_true_2.
    - destruct (IH y) as [f Hf]; [by split| |].
      + intros x Hx. apply Hintact. by eapply rtc_l.
      + exists f. intros f' ? n. by apply Hf. }
  exists (S F). intros [|fuel'] ? root n; [lia|].
  rewrite _deepCopy_S. destruct (negb root && _); [done|].
  apply copy_node_settled; [apply Hintact, rtc_refl|].
  intros c Hc m. assert (F ≤ fuel') as HF' by lia.
  specialize (HF fuel' HF'). rewrite Forall_forall in HF.
  apply HF. by apply visits_successors.
Qed.

(** Enough fuel gives the result: on a tree from which the traversal is
    finite and whose pointers are intact, [deepCopy] returns, a tree or the
    null pointer, with any fuel above some bound. *)
Lemma deepCopy_returns T :
  finite_from (address T) T →
  (∀ x, reaches T x → intact (address T) x) →
  ∃ fuel, ∀ fuel', fuel ≤ fuel' → returns fuel' T.
Proof.
  intros Hfin Hintact. destruct (_deepCopy_settles _ _ Hfin Hintact) as [fuel Hfuel].
  exists fuel. intros fuel' Hle n. specialize (Hfuel fuel' Hle true n).
  unfold deepCopy. destruct (_deepCopy fuel' (address T) true T n); try done; by eexists _, _.
Qed.

(** The copy of a tree whose pointers are intact dereferences no null or
    dangling pointer, with any fuel. *)
Lemma _deepCopy_faultless fuel avoid root e n :
  (∀ x, reaches e x → intact avoid x) →
  faultless (_deepCopy fuel avoid root e n).
Proof.
  revert root e n. induction fuel as [|fuel IH]; intros root e n Hintact; [done|].
  rewrite _deepCopy_S. destruct (negb root && _); [done|].
  apply copy_node_faultless; [apply Hintact, rtc_refl|].
  intros c Hc m. apply IH. intros x Hx. apply Hintact. by eapply rtc_l.
Qed.

(** Without end: on a tree whose pointers are intact, that holds no
    [TreeRef] that is null or re-enters the root, and from which the
    traversal is not finite, [deepCopy] runs out of any fuel. *)
Lemma deepCopy_without_end T :
  root_unique T →
  (∀ x, reaches T x → intact (address T) x) →
  ¬ blocked (address T) T → ¬ finite_from (address T) T →
  ∀ fuel n, deepCopy fuel T n = OutOfFuel.
Proof.
  intros Huniq Hintact Hnb Hnf fuel n. unfold deepCopy.
  destruct (_deepCopy fuel (address T) true T n) as [res m| | |] eqn:Hcopy; [| | |done].
  - destruct Hnf. by eapply _deepCopy_Done_finite.
  - destruct Hnb. by eapply _deepCopy_Thrown_blocked.
  - by destruct (_deepCopy_faultless fuel (address T) true T n Hintact).
Qed.
(** ** The claims on the copy *)

(** A copy that [deepCopy] returns is similar to its original, up to the
    expansion of [TreeRef]s. *)
Lemma copied_similar fuel e e' :
  well_typed e → copied fuel e (Some e') → similar shared e e'.
Proof.
  intros Hty (n & n' & H). unfold deepCopy in H.
  destruct (_deepCopy fuel (address e) true e n) as [res m| | |] eqn:Hcopy; try done.
  injection H as <- <-. by eapply (_deepCopy_stands_for shared).
Qed.

(** Whenever [deepCopy] returns, it returns the null pointer if and only
    if the tree is blocked. *)
Lemma deepCopy_Done_null fuel T n r n' :
  root_unique T → deepCopy fuel T n = Done r n' →
  (r = None ↔ blocked (address T) T).
Proof.
  intros Huniq H. unfold deepCopy in H.
  destruct (_deepCopy fuel (address T) true T n) as [res m| | |] eqn:Hcopy; try done.
  - injection H as <- <-. split; [done|].
    intros Hb. by destruct (_deepCopy_Done_not_blocked _ _ _ _ _ _ Hcopy).
  - injection H as <- <-. split; [|done].
    intros _. by eapply _deepCopy_Thrown_blocked.
Qed.

Lemma copied_null fuel e r :
  root_unique e → copied fuel e r → (r = None ↔ blocked (address e) e).
Proof. intros Huniq (n & n' & H). by eapply deepCopy_Done_null. Qed.

(** C5, as the code has it: in whatever order the arguments of a
    constructor are evaluated, whenever [deepCopy] returns, it returns the
    null pointer, and no tree, if and only if the tree transitively
    contains a [TreeRef] whose target is null or whose expansion would
    re-enter the avoided node, which is the root.  It does return, with
    enough fuel, on every tree from which the traversal is finite and whose
    pointers are intact.  It never returns, whatever the fuel, on a tree
    whose pointers are intact, that contains no such [TreeRef] and from
    which the traversal is not finite: [TreeRef]s that lead around in a
    circle that does not pass through the root. *)
Theorem deepCopy_null_iff_blocked T :
  root_unique T →
  (∀ fuel n r n',
     deepCopy fuel T n = Done r n' →
     (r = None ↔ blocked (address T) T)) ∧
  (finite_from (address T) T → (∀ x, reaches T x → intact (address T) x) →
   ∃ fuel, ∀ fuel' n, fuel ≤ fuel' →
     ∃ r n', deepCopy fuel' T n = Done r n' ∧ (r = None ↔ blocked (address T) T)) ∧
  ((∀ x, reaches T x → intact (address T) x) →
   ¬ blocked (address T) T → ¬ finite_from (address T) T →
   ∀ fuel n, deepCopy fuel T n = OutOfFuel).
Proof.
  intros Huniq.
  assert (Hiff : ∀ fuel n r n',
     deepCopy fuel T n = Done r n' →
     (r = None ↔ blocked (address T) T)).
  { intros fuel n r n' H. by eapply deepCopy_Done_null. }
  split_and!; [exact Hiff| |by apply deepCopy_without_end].
  intros Hfin Hintact. destruct (deepCopy_returns T Hfin Hintact) as [fuel Hfuel].
  exists fuel. intros fuel' n Hle. destruct (Hfuel fuel' Hle n) as (r & n' & H).
  exists r, n'. split; [done|]. by apply (Hiff _ _ _ _ H).
Qed.

(** The entry point returns a tree exactly when the copy from the root,
    with the root to avoid, returns it. *)
Lemma deepCopy_Some fuel T n T' n' :
  deepCopy fuel T n = Done (Some T') n' ↔
  _deepCopy fuel (address T) true T n = Done T' n'.
Proof.
  unfold deepCopy. destruct (_deepCopy fuel (address T) true T n); split; congruence.
Qed.

(** C6, as the code has it: a copy that succeeds, whatever the node to
    avoid, is the tree with every [TreeRef] replaced by a copy of its
    target.  It is similar to the tree up to this expansion, with
    locations, symbols, names, values and kinds, [Block.symbol],
    [ClassDef.kind] and [MethodDef.isSelf] as they were; it is structurally
    equal to the tree when the tree owns no [TreeRef]; all its nodes are
    new, so that it shares none with the tree or with what the tree points
    to; and it holds no [TreeRef].  This holds of [deepCopy], which copies
    from the root with the root to avoid. *)
Theorem deepCopy_similar fuel avoid root T n T' n' :
  well_typed T → allocated n T →
  _deepCopy fuel avoid root T n = Done T' n' ∨ deepCopy fuel T n = Done (Some T') n' →
  similar shared T T' ∧
  (no_TreeRef T → struct_eq T T') ∧
  (∀ x y, reaches T x → owns T' y → address x ≠ address y) ∧
  (∀ y, owns T' y → n ≤ address y < n' ∧ class_of y ≠ K_TreeRef).
Proof.
  intros Hty Halloc H.
  assert (∃ avoid' root', _deepCopy fuel avoid' root' T n = Done T' n')
    as (avoid' & root' & Hcopy).
  { destruct H as [H|H%deepCopy_Some]; eauto. }
  clear H.
  pose proof (_deepCopy_fresh _ _ _ _ _ _ _ Hcopy) as Hfresh.
  split_and!.
  - by eapply (_deepCopy_stands_for shared).
  - intros Hno. eapply (_deepCopy_stands_for ∅); [done| |exact Hcopy].
    intros a loc t Hr. exfalso.
    assert (Hown : ∀ x, reaches T x → owns T x ∨ ∃ y, owns T y ∧ class_of y = K_TreeRef).
    { clear. intros x Hr. induction Hr as [e|e c x Hv Hr IH]; [left; apply rtc_refl|].
      destruct Hv as [e c Hc|a loc t target Hs].
      - destruct IH as [?|(y & ? & ?)].
        + left. by eapply rtc_l.
        + right. exists y. split; [by eapply rtc_l|done].
      - right. eexists. split; [apply rtc_refl|done]. }
    destruct (Hown _ Hr) as [Ho|(y & Ho & Hy)]; by eapply Hno.
  - intros x y Hx Hy. specialize (Halloc x Hx). destruct (Hfresh y Hy). lia.
  - done.
Qed.


(** ** The nodes of a tree, and the order of the copy *)

Lemma nodes_vec_bind l : nodes_vec nodes l = l ≫= nodes_ptr nodes.
Proof. induction l as [|p l IH]; simpl; [done|]. by rewrite IH. Qed.

Lemma nodes_children e : nodes e = e :: (children e ≫= nodes_ptr nodes).
Proof.
  destruct e; simpl; rewrite ?nodes_vec_bind, ?bind_app; simpl; rewrite ?app_nil_r; done.
Qed.

Lemma child_nodes e c x : child e c → x ∈ nodes c → x ∈ children e ≫= nodes_ptr nodes.
Proof. intros Hc Hx. apply list_elem_of_bind. by exists (Some c). Qed.

Lemma child_size e c : child e c → size c < size e.
Proof.
  unfold child, size. intros Hc. rewrite (nodes_children e). simpl.
  apply list_elem_of_split in Hc as (l1 & l2 & ->).
  rewrite bind_app, bind_cons, !length_app. simpl. lia.
Qed.

(** The nodes of a tree are what it owns. *)
Lemma nodes_owns e x : x ∈ nodes e ↔ owns e x.
Proof.
  split.
  - remember (size e) as k eqn:Hk. revert e Hk x.
    induction k as [k IH] using lt_wf_ind. intros e -> x.
    rewrite nodes_children. intros [->|Hx]%elem_of_cons; [apply rtc_refl|].
    apply list_elem_of_bind in Hx as ([c|] & Hx & Hc); [|by apply elem_of_nil in Hx].
    eapply rtc_l; [exact Hc|]. eapply IH; [|done|exact Hx]. by apply child_size.
  - induction 1 as [e|e c x Hc _ IH]; [rewrite nodes_children; left|].
    rewrite nodes_children. right. by eapply child_nodes.
Qed.


Section Threaded.

Variable rec : Expression → M Expression.

Lemma threaded_app lo mid hi l l' :
  threaded rec lo mid l → threaded rec mid hi l' → threaded rec lo hi (l ++ l').
Proof. induction 1; simpl; eauto using threaded. Qed.

Lemma copy_threaded p n c' n' :
  copy rec p n = Done c' n' → threaded rec n n' [(p, Some c')].
Proof. intros (c & -> & H)%copy_Done. eauto using threaded. Qed.

Lemma copyAs_threaded T p n q n' :
  copyAs rec T p n = Done q n' → threaded rec n n' [(p, q)].
Proof.
  unfold copyAs. intros H.
  apply bind_Done in H as (c' & n1 & Hc & H). apply ret_Done in H as [-> ->].
  apply copy_Done in Hc as (c & -> & Hc).
  eapply threaded_copy; [exact Hc|apply cast_tree_cases|constructor].
Qed.

Lemma copyBlock_threaded p n q n' :
  copyBlock rec p n = Done q n' → threaded rec n n' [(p, q)].
Proof.
  destruct p as [c|]; simpl; [apply copyAs_threaded|].
  intros [-> ->]%ret_Done. eauto using threaded.
Qed.

Lemma deepCopyVec_threaded Elem l n l' n' :
  deepCopyVec rec Elem l n = Done l' n' →
  length l = length l' ∧ threaded rec n n' (zip l l').
Proof.
  unfold deepCopyVec. revert n l'. induction l as [|p l IH]; intros n l' H; simpl in H.
  - apply ret_Done in H as [-> ->]. split; [done|constructor].
  - apply bind_Done in H as (q & n1 & Hq & H).
    apply bind_Done in Hq as (c' & n0 & Hc & Hq). apply ret_Done in Hq as [-> ->].
    apply bind_Done in H as (qs & n2 & Hqs & H). apply ret_Done in H as [-> ->].
    apply copy_Done in Hc as (c & -> & Hc).
    destruct (IH _ _ Hqs) as [Hlen Hth]. split; [simpl; by rewrite Hlen|].
    eapply threaded_copy; [exact Hc|apply cast_tree_cases|done].
Qed.

End Threaded.

(** The copies that the hypotheses hold, one after the other from the
    address of the goal on. *)
Ltac chain :=
  repeat match goal with
  | H : threaded _ ?lo _ _ |- threaded _ ?lo _ _ =>
      eapply (threaded_app _ _ _ _ _ _ H); clear H
  end;
  apply threaded_nil.

Ltac thread :=
  repeat match goal with
  | H : copy _ _ _ = Done _ _ |- _ => apply copy_threaded in H
  | H : copyAs _ _ _ _ = Done _ _ |- _ => apply copyAs_threaded in H
  | H : copyBlock _ _ _ = Done _ _ |- _ => apply copyBlock_threaded in H
  | H : deepCopyVec _ _ _ _ = Done _ _ |- _ =>
      let Hlen := fresh "Hlen" in apply deepCopyVec_threaded in H as [Hlen H]
  end;
  split; [simpl; rewrite ?length_app; simpl; lia|];
  eexists; (split; [|chain]);
  simpl; rewrite ?zip_with_app by done; solve_Permutation.

(** The copy of a node that is no [TreeRef] copies its pointers one after
    the other, in the order in which the arguments of the constructor are
    evaluated, and allocates the new node last. *)
Lemma copy_node_tiled rec avoid e n e' n' :
  copy_node rec avoid e n = Done e' n' → class_of e ≠ K_TreeRef →
  class_of e' = class_of e ∧ n' = S (address e') ∧
  tiled rec n (address e') (children e) (children e').
Proof.
  intros H Hk.
  destruct e; simpl in H; try done;
    inv_Done H; subst; simpl; (split; [done|]); (split; [done|]); thread.
Qed.

(** A tree similar to a node that is no [TreeRef] is a node of the same
    class, with similar pointers. *)
Lemma similar_children via e e' :
  similar via e e' → class_of e ≠ K_TreeRef →
  class_of e' = class_of e ∧
  Forall2 (option_Forall2 (similar via)) (children e) (children e').
Proof.
  destruct 1; intros Hk; try done; simpl; (split; [done|]);
    repeat first [ assumption | apply Forall2_nil_2 | apply Forall2_cons_2 | apply Forall2_app ].
Qed.

Lemma well_typed_visits e c : well_typed e → visits e c → well_typed c.
Proof. intros Hty Hv x Hx. apply Hty. by eapply rtc_l. Qed.

Lemma well_typed_reaches e x : well_typed e → reaches e x → well_typed x.
Proof. intros Hty Hr y Hy. apply Hty. by etrans. Qed.

(** ** What a copy allocates *)


Lemma seq_split lo mid hi : lo ≤ mid → mid ≤ hi →
  seq lo (hi - lo) = seq lo (mid - lo) ++ seq mid (hi - mid).
Proof.
  intros ??. replace (hi - lo) with ((mid - lo) + (hi - mid)) by lia.
  rewrite seq_app. do 2 f_equal. lia.
Qed.

Lemma threaded_addresses rec lo hi l :
  (∀ c m c' m', Some c ∈ l.*1 → rec c m = Done c' m' →
     m ≤ m' ∧ addresses c' ⊆+ seq m (m' - m)) →
  threaded rec lo hi l →
  lo ≤ hi ∧ address <$> (l.*2 ≫= nodes_ptr nodes) ⊆+ seq lo (hi - lo).
Proof.
  intros Hrec Hth. induction Hth as [lo|lo hi l _ IH|lo mid hi c c' q l Hc Hq _ IH].
  - split; [done|]. by rewrite Nat.sub_diag.
  - apply IH. intros c m c' m' Hin. apply Hrec. by right.
  - destruct (Hrec c lo c' mid) as [? Hsub]; [left|done|].
    destruct IH as [? IH]. { intros c0 m c0' m' Hin. apply Hrec. by right. }
    split; [lia|]. rewrite (seq_split lo mid hi) by lia.
    rewrite fmap_cons, bind_cons, fmap_app.
    destruct Hq as [-> | ->]; simpl.
    + by apply submseteq_app.
    + by apply submseteq_inserts_l.
Qed.

Lemma tiled_addresses rec lo hi ps qs :
  (∀ c m c' m', Some c ∈ ps → rec c m = Done c' m' →
     m ≤ m' ∧ addresses c' ⊆+ seq m (m' - m)) →
  tiled rec lo hi ps qs →
  lo ≤ hi ∧ address <$> (qs ≫= nodes_ptr nodes) ⊆+ seq lo (hi - lo).
Proof.
  intros Hrec (Hlen & l & Hperm & Hth).
  apply threaded_addresses in Hth as [? Hsub].
  - split; [done|]. rewrite Hperm, snd_zip in Hsub by lia. done.
  - intros c m c' m' Hin. apply Hrec. rewrite Hperm, fst_zip in Hin by lia. done.
Qed.

Lemma threaded_addresses_tight rec lo hi l :
  (∀ c m c' m', Some c ∈ l.*1 → rec c m = Done c' m' →
     m ≤ m' ∧ addresses c' ≡ₚ seq m (m' - m)) →
  Forall (λ pq, is_Some pq.1 → is_Some pq.2) l →
  threaded rec lo hi l →
  lo ≤ hi ∧ address <$> (l.*2 ≫= nodes_ptr nodes) ≡ₚ seq lo (hi - lo).
Proof.
  intros Hrec Hsome Hth.
  induction Hth as [lo|lo hi l _ IH|lo mid hi c c' q l Hc Hq _ IH].
  - split; [done|]. by rewrite Nat.sub_diag.
  - apply Forall_cons in Hsome as [_ Hsome].
    apply IH; [|done]. intros c m c' m' Hin. apply Hrec. by right.
  - apply Forall_cons in Hsome as [Hq' Hsome].
    destruct (Hrec c lo c' mid) as [? Hperm]; [left|done|].
    destruct IH as [? IH]; [|done|]. { intros c0 m c0' m' Hin. apply Hrec. by right. }
    split; [lia|]. rewrite (seq_split lo mid hi) by lia.
    rewrite fmap_cons, bind_cons, fmap_app.
    destruct Hq as [-> | ->]; simpl.
    + by rewrite Hperm, IH.
    + simpl in Hq'. by destruct Hq' as [? [=]].
Qed.

Lemma tiled_addresses_tight rec lo hi ps qs :
  (∀ c m c' m', Some c ∈ ps → rec c m = Done c' m' →
     m ≤ m' ∧ addresses c' ≡ₚ seq m (m' - m)) →
  Forall2 (λ p q, is_Some p → is_Some q) ps qs →
  tiled rec lo hi ps qs →
  address <$> (qs ≫= nodes_ptr nodes) ≡ₚ seq lo (hi - lo).
Proof.
  intros Hrec Hsome (Hlen & l & Hperm & Hth).
  apply threaded_addresses_tight in Hth as [? Heq].
  - rewrite Hperm, snd_zip in Heq by lia. done.
  - intros c m c' m' Hin. apply Hrec. rewrite Hperm, fst_zip in Hin by lia. done.
  - rewrite Hperm. apply Forall_forall. intros [p q] Hin.
    apply list_elem_of_lookup in Hin as [i Hi]. apply lookup_zip_with_Some in Hi
      as (p' & q' & [= <- <-] & Hp & Hq).
    eapply Forall2_lookup_lr in Hsome; done.
Qed.

Lemma NoDup_fmap_elem_of {A B} (f : A → B) (l : list A) x y :
  NoDup (f <$> l) → x ∈ l → y ∈ l → f x = f y → x = y.
Proof.
  induction l as [|z l IH]; [by intros _ ?%elem_of_nil|].
  rewrite fmap_cons, NoDup_cons. intros [Hz Hnd].
  intros [->|Hx]%elem_of_cons [->|Hy]%elem_of_cons Heq; [done| | |by apply IH].
  - destruct Hz. rewrite Heq. apply list_elem_of_fmap. by exists y.
  - destruct Hz. rewrite <- Heq. apply list_elem_of_fmap. by exists x.
Qed.

Lemma _deepCopy_addresses fuel avoid root e n e' n' :
  _deepCopy fuel avoid root e n = Done e' n' →
  n' = S (address e') ∧ n ≤ address e' ∧ addresses e' ⊆+ seq n (n' - n).
Proof.
  revert root e n e' n'. induction fuel as [|fuel IH]; intros root e n e' n' H; [done|].
  rewrite _deepCopy_S in H. destruct (negb root && _); [done|].
  destruct (decide (class_of e = K_TreeRef)) as [Hk|Hk].
  - apply copy_node_Done in H as [(? & _)|(a & loc & t & target & -> & ? & Hs & H)];
      [done| |apply _deepCopy_increasing]. by eapply IH.
  - apply copy_node_tiled in H as (_ & -> & Hth); [|done].
    apply tiled_addresses in Hth as [? Hsub].
    + split; [done|]. split; [done|].
      unfold addresses. rewrite nodes_children, fmap_cons.
      replace (S (address e') - n) with (S (address e' - n)) by lia.
      rewrite seq_S. replace (n + (address e' - n)) with (address e') by lia.
      apply submseteq_cons_middle. by rewrite app_nil_r.
    + intros c m c' m' _ Hc. destruct (IH _ _ _ _ _ Hc) as (-> & ? & ?). split; [lia|done].
Qed.

Lemma _deepCopy_addresses_tight fuel avoid root e n e' n' :
  well_typed e → _deepCopy fuel avoid root e n = Done e' n' →
  addresses e' ≡ₚ seq n (n' - n).
Proof.
  revert root e n e' n'. induction fuel as [|fuel IH]; intros root e n e' n' Hty H; [done|].
  pose proof (_deepCopy_stands_for shared _ _ _ _ _ _ _ Hty (λ _ _ _ _, eq_refl) H) as [Hsim _].
  pose proof (_deepCopy_addresses _ _ _ _ _ _ _ H) as (_ & Hle & _).
  rewrite _deepCopy_S in H. destruct (negb root && _); [done|].
  destruct (decide (class_of e = K_TreeRef)) as [Hk|Hk].
  - apply copy_node_Done in H as [(? & _)|(a & loc & t & target & -> & ? & Hs & H)];
      [done| |apply _deepCopy_increasing].
    eapply IH; [|exact H]. eapply well_typed_visits; [exact Hty|]. by apply visits_target.
  - apply copy_node_tiled in H as (_ & -> & Hth); [|done].
    destruct (similar_children _ _ _ Hsim Hk) as [_ Hch].
    apply tiled_addresses_tight in Hth.
    + unfold addresses. rewrite nodes_children, fmap_cons, Hth.
      replace (S (address e') - n) with (S (address e' - n)) by lia.
      rewrite seq_S. replace (n + (address e' - n)) with (address e') by lia.
      by rewrite Permutation_cons_append.
    + intros c m c' m' Hc Hcopy.
      destruct (_deepCopy_addresses _ _ _ _ _ _ _ Hcopy) as (-> & ? & _). split; [lia|].
      eapply IH; [|exact Hcopy]. eapply well_typed_visits; [exact Hty|]. by apply visits_child.
    + eapply Forall2_impl; [exact Hch|]. intros p q Hpq [c ->]. inversion Hpq. by eexists.
Qed.

(** The nodes of a copy lie at pairwise distinct addresses. *)
Lemma _deepCopy_distinct fuel avoid root e n e' n' :
  _deepCopy fuel avoid root e n = Done e' n' →
  ∀ x y, owns e' x → owns e' y → address x = address y → x = y.
Proof.
  intros H. destruct (_deepCopy_addresses _ _ _ _ _ _ _ H) as (_ & _ & Hsub).
  intros x y Hx%nodes_owns Hy%nodes_owns.
  apply (NoDup_fmap_elem_of address (nodes e')); [|done..].
  apply submseteq_Permutation in Hsub as [k Hk].
  pose proof (NoDup_seq n (n' - n)) as Hnd. rewrite Hk in Hnd.
  by apply NoDup_app in Hnd as [? _].
Qed.

(** ** What a copy that returns says of the original *)

Lemma copyAs_Done rec T p n q n' :
  copyAs rec T p n = Done q n' → ∃ c, p = Some c.
Proof.
  unfold copyAs. intros H. apply bind_Done in H as (c' & n1 & Hc & _).
  apply copy_Done in Hc as (c & -> & _). by exists c.
Qed.

Lemma deepCopyVec_Done rec Elem l n l' n' :
  deepCopyVec rec Elem l n = Done l' n' → ∀ p, p ∈ l → p ≠ None.
Proof.
  unfold deepCopyVec. revert n l'. induction l as [|p l IH]; intros n l' H q Hq; simpl in H.
  - by apply elem_of_nil in Hq.
  - apply bind_Done in H as (q' & n1 & Hq' & H).
    apply bind_Done in Hq' as (c' & n0 & Hc & _).
    apply bind_Done in H as (qs & n2 & Hqs & H). apply ret_Done in H as [-> ->].
    apply copy_Done in Hc as (c & -> & _).
    apply elem_of_cons in Hq as [->|Hq]; [done|]. by eapply IH.
Qed.

Ltac nonnull :=
  repeat match goal with
  | H : copy _ _ _ = Done _ _ |- _ => apply copy_Done in H as (? & -> & _)
  | H : copyAs _ _ _ _ = Done _ _ |- _ => apply copyAs_Done in H as (? & ->)
  | H : deepCopyVec _ _ _ _ = Done _ _ |- _ =>
      let H' := fresh in pose proof (deepCopyVec_Done _ _ _ _ _ _ H) as H'; clear H
  end;
  let p := fresh "p" in let Hp := fresh "Hp" in
  intros p Hp; simpl in Hp;
  repeat first
    [ apply elem_of_nil in Hp; destruct Hp
    | apply elem_of_cons in Hp as [->|Hp]; [done|]
    | apply elem_of_app in Hp as [Hp|Hp]; [by eauto|]
    | by eauto ].

(** The copy of a node returns only when no pointer that it dereferences
    is null or dangling. *)
Lemma copy_node_Done_intact rec avoid e n e' n' :
  copy_node rec avoid e n = Done e' n' → intact avoid e.
Proof.
  intros H. split.
  - destruct e; simpl in H; try (solve [inv_Done H; nonnull]).
    destruct block as [b|]; simpl in H; inv_Done H; nonnull.
  - intros a loc t -> Hne. simpl in H.
    rewrite bool_decide_eq_false_2 in H by congruence.
    by destruct (shared !! t).
Qed.

Lemma _deepCopy_Done_step fuel avoid root e n e' n' :
  _deepCopy fuel avoid root e n = Done e' n' →
  intact avoid e ∧ (root = false → address e ≠ avoid).
Proof.
  destruct fuel as [|fuel]; [done|]. rewrite _deepCopy_S.
  destruct (negb root && _) eqn:Hguard; [done|]. intros H. split.
  - by eapply copy_node_Done_intact.
  - intros -> Heq. simpl in Hguard. by rewrite bool_decide_eq_true_2 in Hguard.
Qed.

Lemma tc_first {A} (R : relation A) x z : tc R x z → ∃ y, R x y ∧ rtc R y z.
Proof.
  destruct 1 as [x y Hxy|x y z Hxy Hyz].
  - exists y. split; [done|apply rtc_refl].
  - exists y. split; [done|by apply tc_rtc].
Qed.

(** X2. The conditions that a copy needs: a copy that returns a tree, for any
    node to avoid, has dereferenced no null or dangling pointer and has not
    come to the avoided node.  Every node that the tree leads to has all
    the pointers it owns set, but for the block of a [Send]; no node below
    the root has the avoided address; and every [TreeRef] on the way has a
    target in the store, which is not the avoided node. *)
Theorem _deepCopy_Done_intact fuel avoid root T n T' n' :
  _deepCopy fuel avoid root T n = Done T' n' →
  (∀ x, reaches T x → intact avoid x) ∧
  (∀ x, tc visits T x → address x ≠ avoid) ∧
  (root = false → address T ≠ avoid) ∧
  (∀ a loc tree, reaches T (TreeRef a loc tree) →
     ∃ t target, tree = Some t ∧ t ≠ avoid ∧ shared !! t = Some target).
Proof.
  intros H.
  assert (Hbelow : ∀ x, tc visits T x → survives avoid x).
  { intros x (c & Hc & Hx)%tc_first. eapply survives_reaches; [|exact Hx].
    by eapply _deepCopy_Done_visits. }
  assert (Hall : ∀ x, reaches T x →
            ∃ fuel' root' m x' m', _deepCopy fuel' avoid root' x m = Done x' m').
  { intros x [->|Hx]%rtc_tc; [by eexists _, _, _, _, _|].
    destruct (Hbelow x Hx) as (fuel' & m & x' & m' & Hcopy). by eexists _, _, _, _, _. }
  split_and!.
  - intros x Hx. destruct (Hall x Hx) as (fuel' & root' & m & x' & m' & Hcopy).
    by apply _deepCopy_Done_step in Hcopy as [? _].
  - intros x Hx. by apply survives_address, Hbelow.
  - by apply _deepCopy_Done_step in H as [_ ?].
  - intros a loc tree Hr. destruct (Hall _ Hr) as (fuel' & root' & m & x' & m' & Hcopy).
    apply _deepCopy_Done_TreeRef in Hcopy as (t & target & -> & ? & ? & _).
    by exists t, target.
Qed.

(** ** Trees without [TreeRef]s *)


Lemma plain_child e c : plain e → child e c → plain c.
Proof. intros He Hc x Hx. apply He. by eapply rtc_l. Qed.

Lemma plain_visits e c : plain e → visits e c → child e c.
Proof.
  intros He Hv. destruct Hv as [e c Hc|a loc t target Hs]; [done|].
  destruct (He (TreeRef a loc (Some t)) (rtc_refl _ _)) as [Hk _]. by destruct Hk.
Qed.

(** What a tree without [TreeRef]s leads to is what it owns. *)
Lemma plain_reaches T x : plain T → reaches T x → owns T x.
Proof.
  intros HT Hr. induction Hr as [e|e c x Hv _ IH]; [apply rtc_refl|].
  pose proof (plain_visits _ _ HT Hv) as Hc.
  eapply rtc_l; [exact Hc|]. apply IH. by eapply plain_child.
Qed.

Lemma owns_size e x : owns e x → size x ≤ size e.
Proof.
  induction 1 as [e|e c x Hc _ IH]; [done|].
  apply child_size in Hc. lia.
Qed.

(** The copy of a plain tree comes to its end within as much fuel as the
    tree has nodes. *)
Lemma plain_settled fuel avoid root e n :
  plain e → size e ≤ fuel → settled (_deepCopy fuel avoid root e n).
Proof.
  revert root e n. induction fuel as [|fuel IH]; intros root e n He Hsize.
  { unfold size in Hsize. rewrite nodes_children in Hsize. simpl in Hsize. lia. }
  rewrite _deepCopy_S. destruct (negb root && _); [done|].
  destruct (He e (rtc_refl _ _)) as [Hk Hnn].
  apply copy_node_settled.
  - split; [done|]. by intros a loc t ->.
  - intros c Hv m. pose proof (plain_visits _ _ He Hv) as Hc.
    apply IH; [by eapply plain_child|]. apply child_size in Hc. lia.
Qed.

(** The copy of a plain tree whose root has an address of its own returns
    a tree. *)
Lemma plain_copied fuel T n :
  plain T → root_unique T → size T ≤ fuel →
  ∃ T' n', _deepCopy fuel (address T) true T n = Done T' n'.
Proof.
  intros HT Huniq Hsize.
  pose proof (plain_settled fuel (address T) true T n HT Hsize) as Hs.
  destruct (_deepCopy fuel (address T) true T n) as [T' n'| | |] eqn:H; try done.
  { by exists T', n'. }
  apply _deepCopy_Thrown_blocked in H as (a & loc & tree & Hr & _); [|done].
  apply plain_reaches in Hr; [|done]. by destruct (HT _ Hr) as [? _].
Qed.

Lemma plain_struct_eq fuel avoid root T n T' n' :
  plain T → well_typed T → _deepCopy fuel avoid root T n = Done T' n' → struct_eq T T'.
Proof.
  intros HT Hty H. eapply (_deepCopy_stands_for ∅); [done| |exact H].
  intros a loc t Hr. apply plain_reaches in Hr; [|done]. by destruct (HT _ Hr) as [? _].
Qed.

(** Structurally equal trees have the same number of nodes. *)
Lemma struct_eq_size e e' : struct_eq e e' → size e = size e'.
Proof.
  remember (size e) as k eqn:Hk. revert e e' Hk.
  induction k as [k IH] using lt_wf_ind. intros e e' -> Hsim.
  destruct (decide (class_of e = K_TreeRef)) as [Hk|Hk].
  { inversion Hsim; subst; done. }
  destruct (similar_children _ _ _ Hsim Hk) as [_ Hch].
  unfold size. rewrite (nodes_children e), (nodes_children e'). simpl. f_equal.
  assert (Hsub : ∀ c, Some c ∈ children e → size c < size e) by (intros; by apply child_size).
  revert Hsub. generalize (children e) (children e') Hch. clear Hch.
  induction 1 as [|p q ps qs Hpq _ IHch]; intros Hsub; [done|].
  rewrite !bind_cons, !length_app. f_equal.
  - destruct Hpq as [c c' Hcc|]; [|done]. simpl.
    apply (IH (size c) (Hsub c (list_elem_of_here _ _)) c c' eq_refl Hcc).
  - apply IHch. intros c ?. apply Hsub. by right.
Qed.

(** ** The copy of a copy *)

(** Every node of a copy is the copy of a node that the original leads
    to, and which is no [TreeRef]. *)
Lemma _deepCopy_nodes fuel avoid root e n e' n' :
  _deepCopy fuel avoid root e n = Done e' n' →
  ∀ y, owns e' y →
    ∃ x fuel' root' m m', reaches e x ∧ class_of x ≠ K_TreeRef ∧
      _deepCopy fuel' avoid root' x m = Done y m'.
Proof.
  revert root e n e' n'. induction fuel as [|fuel IH]; intros root e n e' n' H; [done|].
  pose proof H as Hcopy.
  rewrite _deepCopy_S in H. destruct (negb root && _); [done|].
  apply copy_node_Done in H
      as [(Hk & Hk' & -> & Hn & Hsl)|(a & loc & t & target & -> & ? & Hs & H)];
    [| |apply _deepCopy_increasing].
  - intros y [->|(c' & Hc' & Hy)]%rtc_inv.
    + exists e, (S fuel), root, n, (S (address y)). split; [apply rtc_refl|done].
    + destruct (Forall2_elem_of_r _ _ _ _ Hsl Hc')
        as (p & Hp & [[_ ?]|(c & c0 & m & m' & -> & Hrec & ? & ? & [[= <-]|?])]); [done| |done].
      destruct (IH _ _ _ _ _ Hrec y Hy) as (x & f & r & m1 & m2 & Hx & ? & ?).
      exists x, f, r, m1, m2. split; [|done]. eapply rtc_l; [|exact Hx]. by apply visits_child.
  - intros y Hy. destruct (IH _ _ _ _ _ H y Hy) as (x & f & r & m1 & m2 & Hx & ? & ?).
    exists x, f, r, m1, m2. split; [|done]. eapply rtc_l; [|exact Hx]. by apply visits_target.
Qed.

Lemma similar_derefs via e e' :
  similar via e e' → class_of e ≠ K_TreeRef →
  Forall2 (option_Forall2 (similar via)) (derefs e) (derefs e').
Proof.
  intros Hsim Hk. destruct (similar_children _ _ _ Hsim Hk) as [_ Hch].
  destruct Hsim; try exact Hch; try done.
  match goal with H : option_Forall2 _ block block' |- _ => destruct H end;
    [exact Hch|].
  simpl. by constructor.
Qed.

Lemma similar_has_class via T p q :
  option_Forall2 (similar via) p q →
  has_class (λ k, T k && negb (exactly K_TreeRef k)) p →
  has_class (λ k, T k && negb (exactly K_TreeRef k)) q.
Proof.
  intros [c c' Hsim|] Hp c0 [= <-].
  specialize (Hp c eq_refl). simpl in Hp.
  destruct (similar_children _ _ _ Hsim) as [-> _]; [|done].
  intros Hk. rewrite Hk in Hp. unfold exactly in Hp. simpl in Hp.
  by rewrite andb_false_r in Hp.
Qed.

Lemma similar_has_class_exactly via k p q :
  k ≠ K_TreeRef →
  option_Forall2 (similar via) p q →
  has_class (exactly k) p → has_class (exactly k) q.
Proof.
  intros Hne [c c' Hsim|] Hp c0 [= <-].
  specialize (Hp c eq_refl). unfold exactly in *. apply bool_decide_eq_true in Hp.
  destruct (similar_children _ _ _ Hsim) as [-> _]; [congruence|].
  by apply bool_decide_eq_true.
Qed.

(** A tree similar to a node that is no [TreeRef] and whose typed pointers
    hold their static types has typed pointers that hold theirs. *)
Lemma similar_slot_typed via e e' :
  similar via e e' → class_of e ≠ K_TreeRef → slot_typed e → slot_typed e'.
Proof.
  destruct 1; intros Hk Hty; simpl in *; try done;
    try (by eapply similar_has_class).
  - (* Rescue *)
    revert Hty. generalize rescueCases rescueCases' H0. clear.
    induction 1 as [|p q ps qs Hpq _ IH]; [done|].
    intros [Hp Hps]%Forall_cons. constructor; [|by apply IH].
    by eapply similar_has_class_exactly.
  - (* Send *)
    by eapply similar_has_class_exactly.
Qed.

(** The copy of a tree whose typed pointers hold their static types is a
    plain tree whose typed pointers hold theirs, and no node below its
    root has the address of the root. *)
Lemma _deepCopy_copy_plain fuel avoid root T n T' n' :
  well_typed T → _deepCopy fuel avoid root T n = Done T' n' →
  plain T' ∧ well_typed T' ∧ root_unique T'.
Proof.
  intros Hty H.
  assert (Hplain : plain T').
  { intros y Hy. split; [by eapply _deepCopy_fresh|].
    destruct (_deepCopy_nodes _ _ _ _ _ _ _ H y Hy)
      as (x & f & r & m & m' & Hx & Hk & Hcopy).
    pose proof (well_typed_reaches _ _ Hty Hx) as Htx.
    destruct (_deepCopy_stands_for shared _ _ _ _ _ _ _ Htx (λ _ _ _ _, eq_refl) Hcopy)
      as [Hsim _].
    destruct (_deepCopy_Done_step _ _ _ _ _ _ _ Hcopy) as [[Hnn _] _].
    intros q Hq.
    destruct (Forall2_elem_of_r _ _ _ _ (similar_derefs _ _ _ Hsim Hk) Hq) as (p & Hp & Hpq).
    specialize (Hnn p Hp). by destruct Hpq. }
  split_and!; [done| |].
  - intros y Hy%plain_reaches; [|done].
    destruct (_deepCopy_nodes _ _ _ _ _ _ _ H y Hy)
      as (x & f & r & m & m' & Hx & Hk & Hcopy).
    pose proof (well_typed_reaches _ _ Hty Hx) as Htx.
    destruct (_deepCopy_stands_for shared _ _ _ _ _ _ _ Htx (λ _ _ _ _, eq_refl) Hcopy)
      as [Hsim _].
    eapply similar_slot_typed; [exact Hsim|done|]. apply Htx, rtc_refl.
  - intros c x Hc Hx Heq.
    assert (x = T') as ->.
    { eapply _deepCopy_distinct; [exact H| |apply rtc_refl|done]. by eapply rtc_l. }
    apply owns_size in Hx. apply child_size in Hc. lia.
Qed.

(** X1. What a copy allocates.  A copy that returns a tree has allocated its
    root last, and its nodes lie at pairwise distinct addresses among those
    that it has taken: no node of the copy is shared within the copy.  On a
    tree whose typed pointers hold their static types, every node that was
    allocated is a node of the tree returned: the copy has as many nodes
    as it has taken addresses, and none was dropped by a cast. *)
Theorem _deepCopy_allocates fuel avoid root T n T' n' :
  _deepCopy fuel avoid root T n = Done T' n' →
  n' = S (address T') ∧
  addresses T' ⊆+ seq n (n' - n) ∧
  (∀ x y, owns T' x → owns T' y → address x = address y → x = y) ∧
  (well_typed T → addresses T' ≡ₚ seq n (n' - n) ∧ size T' = n' - n).
Proof.
  intros H. destruct (_deepCopy_addresses _ _ _ _ _ _ _ H) as (Hroot & _ & Hsub).
  split_and!; [done|done|by eapply _deepCopy_distinct|].
  intros Hty. pose proof (_deepCopy_addresses_tight _ _ _ _ _ _ _ Hty H) as Hperm.
  split; [done|]. apply Permutation_length in Hperm.
  unfold addresses in Hperm. by rewrite length_fmap, length_seq in Hperm.
Qed.

(** X3. The copy of a plain tree.  A tree that owns no [TreeRef], whose
    pointers are set wherever the copy dereferences them, and whose root
    has an address of its own, is always copied: with as much fuel as the
    tree has nodes [deepCopy] returns a tree and never the null pointer.
    When the typed pointers hold their static types the copy is
    structurally equal to the tree, and one node is allocated for each
    node of the tree. *)
Theorem deepCopy_plain_tree fuel T n :
  plain T → root_unique T → size T ≤ fuel →
  ∃ T' n', deepCopy fuel T n = Done (Some T') n' ∧
    (well_typed T → struct_eq T T' ∧ n' = n + size T).
Proof.
  intros HT Huniq Hsize.
  destruct (plain_copied fuel T n HT Huniq Hsize) as (T' & n' & H).
  exists T', n'. split; [by apply deepCopy_Some|].
  intros Hty. pose proof (plain_struct_eq _ _ _ _ _ _ _ HT Hty H) as Heq.
  split; [done|].
  pose proof (_deepCopy_addresses_tight _ _ _ _ _ _ _ Hty H) as Hperm.
  apply Permutation_length in Hperm. unfold addresses in Hperm.
  rewrite length_fmap, length_seq in Hperm.
  pose proof (_deepCopy_increasing _ _ _ _ _ _ _ H).
  rewrite (struct_eq_size _ _ Heq). unfold size. lia.
Qed.

(** X4. The copy of a copy.  What [deepCopy] returns for a tree whose typed
    pointers hold their static types can always be copied again: the second
    copy returns a tree, with as much fuel as the first copy has nodes,
    which is structurally equal to the first copy and takes one address
    for each of its nodes, as the first copy did. *)
Theorem deepCopy_again fuel T n T' n' fuel' m :
  well_typed T → deepCopy fuel T n = Done (Some T') n' → size T' ≤ fuel' →
  ∃ T'' m', deepCopy fuel' T' m = Done (Some T'') m' ∧ struct_eq T' T'' ∧
    m' = m + size T' ∧ n' = n + size T'.
Proof.
  intros Hty H%deepCopy_Some Hsize.
  destruct (_deepCopy_copy_plain _ _ _ _ _ _ _ Hty H) as (HT' & Hty' & Huniq').
  destruct (plain_copied fuel' T' m HT' Huniq' Hsize) as (T'' & m' & H').
  exists T'', m'. split; [by apply deepCopy_Some|].
  pose proof (plain_struct_eq _ _ _ _ _ _ _ HT' Hty' H') as Heq.
  split; [done|].
  pose proof (_deepCopy_addresses_tight _ _ _ _ _ _ _ Hty' H') as Hperm'.
  pose proof (_deepCopy_addresses_tight _ _ _ _ _ _ _ Hty H) as Hperm.
  apply Permutation_length in Hperm, Hperm'. unfold addresses in Hperm, Hperm'.
  rewrite length_fmap, length_seq in Hperm, Hperm'.
  pose proof (_deepCopy_increasing _ _ _ _ _ _ _ H).
  pose proof (_deepCopy_increasing _ _ _ _ _ _ _ H').
  pose proof (struct_eq_size _ _ Heq). unfold size in *. lia.
Qed.
End TreeCopying.

(** ** The copy on concrete trees *)

Definition nowhere : Loc := mkLoc 0 0 0.

Definition NoReference : NodeClass → bool := λ _, false.

(** A tree that points back to its root: scenario S5 of the design. *)
Definition back_to_root : Expression :=
  Array 1 nowhere [Some (Literal 2 nowhere 0); Some (TreeRef 3 nowhere (Some 1))].

(** An array at address 5 whose element points back to the array, and a
    tree that points first to that array and then to nothing. *)
Definition knot : Expression := Array 5 nowhere [Some (TreeRef 6 nowhere (Some 5))].

Definition knotted : gmap addr Expression := {[ 5 := knot ]}.

Definition past_the_knot : Expression :=
  Array 1 nowhere [Some (TreeRef 2 nowhere (Some 5)); Some (TreeRef 3 nowhere None)].

Lemma child_cons_lookup (e c : Expression) i : children e !! i = Some (Some c) → child e c.
Proof. intros H. unfold child. by eapply list_elem_of_lookup_2. Qed.

Lemma owns_leaf_inv (e x : Expression) : children e = [] → owns e x → x = e.
Proof.
  intros He [->|(c & Hc & _)]%rtc_inv; [done|].
  unfold child in Hc. rewrite He in Hc. by apply elem_of_nil in Hc.
Qed.

Lemma back_to_root_unique : root_unique back_to_root.
Proof.
  intros c x Hc Hx. unfold child in Hc. simpl in Hc.
  apply elem_of_cons in Hc as [[= ->]|Hc]; [|apply elem_of_cons in Hc as [[= ->]|Hc]].
  - apply owns_leaf_inv in Hx; [by subst x|done].
  - apply owns_leaf_inv in Hx; [by subst x|done].
  - by apply elem_of_nil in Hc.
Qed.

(** The store in which the root of [back_to_root] is found. *)
Definition rooted : gmap addr Expression := {[ 1 := back_to_root ]}.

Lemma back_to_root_reaches x :
  reaches rooted back_to_root x →
  x = back_to_root ∨ x = Literal 2 nowhere 0 ∨ x = TreeRef 3 nowhere (Some 1).
Proof.
  apply (reaches_closed rooted
    (λ x, x = back_to_root ∨ x = Literal 2 nowhere 0 ∨ x = TreeRef 3 nowhere (Some 1)));
    [by left|].
  intros y z Hy Hv. destruct Hv as [y z Hc|a loc t target Hs].
  - unfold child in Hc. destruct Hy as [->|[->| ->]]; simpl in Hc.
    + apply elem_of_cons in Hc as [[= ->]|Hc]; [auto|].
      apply list_elem_of_singleton in Hc as [= ->]. auto.
    + by apply elem_of_nil in Hc.
    + by apply elem_of_nil in Hc.
  - unfold rooted in Hs. apply lookup_singleton_Some in Hs as [_ <-]. auto.
Qed.

Lemma back_to_root_finite : finite_from rooted (address back_to_root) back_to_root.
Proof.
  assert (Hleaf : ∀ y, y = Literal 2 nowhere 0 ∨ y = TreeRef 3 nowhere (Some 1) →
                       Acc (flip (expands rooted 1)) y).
  { intros y Hy. constructor. intros z [Hv Hz]. exfalso.
    destruct Hv as [y z Hc|a loc t target Hs].
    - unfold child in Hc. destruct Hy as [->| ->]; by apply elem_of_nil in Hc.
    - unfold rooted in Hs. by apply lookup_singleton_Some in Hs as [_ <-]. }
  constructor. intros y [Hv _]. apply Hleaf.
  inversion Hv as [? ? Hc|]; subst. unfold child in Hc. simpl in Hc.
  apply elem_of_cons in Hc as [[= ->]|Hc]; [auto|].
  apply list_elem_of_singleton in Hc as [= ->]. auto.
Qed.

Lemma back_to_root_intact x :
  reaches rooted back_to_root x → intact rooted (address back_to_root) x.
Proof.
  intros [->|[->| ->]]%back_to_root_reaches; (split; [|intros ??? [= _ _ <-]; done]); simpl.
  - intros p [->|[->|?%elem_of_nil]%elem_of_cons]%elem_of_cons; done.
  - by intros p ?%elem_of_nil.
  - by intros p ?%elem_of_nil.
Qed.

(** A tree that leads into the knot and to nothing else. *)
Definition into_the_knot : Expression :=
  Array 1 nowhere [Some (TreeRef 2 nowhere (Some 5))].

Lemma knot_reaches x :
  reaches knotted knot x → x = knot ∨ x = TreeRef 6 nowhere (Some 5).
Proof.
  apply (reaches_closed knotted (λ x, x = knot ∨ x = TreeRef 6 nowhere (Some 5)));
    [by left|].
  intros y z Hy Hv. destruct Hv as [y z Hc|a loc t target Hs].
  - unfold child in Hc. destruct Hy as [->| ->]; simpl in Hc.
    + apply list_elem_of_singleton in Hc as [= ->]. auto.
    + by apply elem_of_nil in Hc.
  - unfold knotted in Hs. apply lookup_singleton_Some in Hs as [_ <-]. auto.
Qed.

Lemma into_the_knot_reaches x :
  reaches knotted into_the_knot x →
  x = into_the_knot ∨ x = TreeRef 2 nowhere (Some 5) ∨ x = knot ∨
  x = TreeRef 6 nowhere (Some 5).
Proof.
  apply (reaches_closed knotted
    (λ x, x = into_the_knot ∨ x = TreeRef 2 nowhere (Some 5) ∨ x = knot ∨
          x = TreeRef 6 nowhere (Some 5))); [by left|].
  intros y z Hy Hv. destruct Hv as [y z Hc|a loc t target Hs].
  - unfold child in Hc. destruct Hy as [->|[->|[->| ->]]]; simpl in Hc.
    + apply list_elem_of_singleton in Hc as [= ->]. auto.
    + by apply elem_of_nil in Hc.
    + apply list_elem_of_singleton in Hc as [= ->]. auto.
    + by apply elem_of_nil in Hc.
  - unfold knotted in Hs. apply lookup_singleton_Some in Hs as [_ <-]. auto.
Qed.

Lemma into_the_knot_unique : root_unique into_the_knot.
Proof.
  intros c x Hc Hx. unfold child in Hc. simpl in Hc.
  apply list_elem_of_singleton in Hc as [= ->].
  apply owns_leaf_inv in Hx; [by subst x|done].
Qed.

Lemma into_the_knot_intact x :
  reaches knotted into_the_knot x → intact knotted (address into_the_knot) x.
Proof.
  intros [->|[->|[->| ->]]]%into_the_knot_reaches; split; simpl;
    try (by intros p ?%elem_of_nil);
    try (by intros p ->%list_elem_of_singleton);
    try done;
    intros ??? [= _ _ <-] _; by exists knot.
Qed.

Lemma into_the_knot_not_blocked : ¬ blocked knotted (address into_the_knot) into_the_knot.
Proof.
  intros (a & loc & tree & Hr & Hb).
  assert (tree = Some 5) as ->.
  { by apply into_the_knot_reaches in Hr as [[=]|[[=]|[[=]|[=]]]]. }
  destruct Hb as [[=]|(t & [= <-] & [[=]|(target & x & Hs & Hx & Hax)])].
  unfold knotted in Hs. apply lookup_singleton_Some in Hs as [_ <-].
  by apply knot_reaches in Hx as [->| ->].
Qed.

Lemma knot_not_finite y :
  y = knot ∨ y = TreeRef 6 nowhere (Some 5) → ¬ finite_from knotted 1 y.
Proof.
  intros Hy Hacc. induction Hacc as [y _ IH]. destruct Hy as [->| ->].
  - apply (IH (TreeRef 6 nowhere (Some 5))); [|by right].
    split; [|done]. apply visits_child, (child_cons_lookup _ _ 0). reflexivity.
  - apply (IH knot); [|by left].
    split; [|done]. by apply (visits_target knotted 6 nowhere 5 knot).
Qed.

Lemma into_the_knot_not_finite : ¬ finite_from knotted (address into_the_knot) into_the_knot.
Proof.
  intros Hacc. apply (knot_not_finite knot); [by left|].
  apply (Acc_inv (x := TreeRef 2 nowhere (Some 5))).
  - apply (Acc_inv Hacc). split; [|done].
    apply visits_child, (child_cons_lookup _ _ 0). reflexivity.
  - split; [|done]. by apply (visits_target knotted 2 nowhere 5 knot).
Qed.

(** Scenario S5: with enough fuel the copy of [back_to_root] returns, and
    it returns the null pointer; the copy of [into_the_knot] returns with
    no fuel.  The arguments are evaluated from the last to the first. *)
Lemma deepCopy_null_iff_blocked_witness :
  (∃ fuel, ∀ fuel' n, fuel ≤ fuel' →
     ∃ n', deepCopy NoReference rooted right_to_left fuel' back_to_root n = Done None n') ∧
  (deepCopy NoReference rooted right_to_left 3 back_to_root 10 = Done None 10 ∧
   blocked rooted (address back_to_root) back_to_root) ∧
  (∀ fuel n, deepCopy NoReference knotted right_to_left fuel into_the_knot n = OutOfFuel).
Proof.
  destruct (deepCopy_null_iff_blocked NoReference rooted right_to_left
              back_to_root back_to_root_unique) as (Hiff & Hret & _).
  destruct (deepCopy_null_iff_blocked NoReference knotted right_to_left
              into_the_knot into_the_knot_unique) as (_ & _ & Hnever).
  split_and!.
  - destruct (Hret back_to_root_finite back_to_root_intact) as [fuel Hfuel].
    exists fuel. intros fuel' n Hle. destruct (Hfuel fuel' n Hle) as (r & n' & H & Hr).
    exists n'. assert (r = None) as ->; [|done].
    apply Hr. exists 3, nowhere, (Some 1). split; [|right; exists 1; split; [done|by left]].
    eapply rtc_l; [|apply rtc_refl]. apply visits_child. by apply (child_cons_lookup _ _ 1).
  - reflexivity.
  - by apply (Hiff 3 10 None 10).
  - exact (Hnever into_the_knot_intact into_the_knot_not_blocked into_the_knot_not_finite).
Defined.

Lemma knot_never_returns order fuel n :
  _deepCopy NoReference knotted order fuel 1 false knot n = OutOfFuel.
Proof.
  revert n. induction (lt_wf fuel) as [fuel _ IH]. intros n.
  destruct fuel as [|[|fuel]]; [done..|].
  rewrite _deepCopy_S. cbn -[_deepCopy]. unfold bind.
  rewrite _deepCopy_S. cbn -[_deepCopy lookup].
  change (knotted !! 5) with (Some knot).
  repeat (case_bool_decide; [done|]).
  rewrite (IH fuel); [done|lia].
Qed.

(** C5 fails on [past_the_knot]: the tree contains a [TreeRef] whose
    target is null, and yet [deepCopy] returns nothing, whatever the fuel
    and the order of evaluation: the elements of an array are copied from
    the first to the last, and the copy never leaves the knot that comes
    first. *)
Lemma deepCopy_blocked_never_returns :
  root_unique past_the_knot ∧
  blocked knotted (address past_the_knot) past_the_knot ∧
  ∀ order fuel n, deepCopy NoReference knotted order fuel past_the_knot n = OutOfFuel.
Proof.
  split_and!.
  - intros c x Hc Hx. unfold child in Hc. simpl in Hc.
    apply elem_of_cons in Hc as [[= ->]|Hc]; [|apply elem_of_cons in Hc as [[= ->]|Hc]].
    + apply owns_leaf_inv in Hx; [by subst x|done].
    + apply owns_leaf_inv in Hx; [by subst x|done].
    + by apply elem_of_nil in Hc.
  - exists 3, nowhere, None. split; [|by left].
    eapply rtc_l; [|apply rtc_refl]. apply visits_child.
    by apply (child_cons_lookup _ _ 1).
  - intros order fuel n. unfold deepCopy.
    destruct fuel as [|[|[|fuel]]]; [done..|].
    rewrite _deepCopy_S. cbn -[_deepCopy]. unfold bind.
    rewrite _deepCopy_S. cbn -[_deepCopy lookup].
    change (knotted !! 5) with (Some knot).
    repeat (case_bool_decide; [done|]).
    by rewrite knot_never_returns.
Qed.

(** An assignment whose left side leads into the knot and whose right side
    is a null [TreeRef]: the outcome is the choice of the compiler.  With
    the arguments of the constructor from the first to the last the copy
    never leaves the knot; from the last to the first it meets the null
    [TreeRef] and returns the null pointer. *)
Definition knot_or_null : Expression :=
  Assign 1 nowhere (Some (TreeRef 2 nowhere (Some 5))) (Some (TreeRef 3 nowhere None)).

Lemma deepCopy_order_matters :
  (∀ fuel n, deepCopy NoReference knotted left_to_right fuel knot_or_null n = OutOfFuel) ∧
  (∀ fuel n, deepCopy NoReference knotted right_to_left (S (S fuel)) knot_or_null n
             = Done None n).
Proof.
  split; intros fuel n; unfold deepCopy.
  - destruct fuel as [|[|[|fuel]]]; [done..|].
    rewrite _deepCopy_S. cbn -[_deepCopy]. unfold args2, bind. cbn -[_deepCopy].
    rewrite _deepCopy_S. cbn -[_deepCopy lookup].
    change (knotted !! 5) with (Some knot).
    repeat (case_bool_decide; [done|]).
    by rewrite knot_never_returns.
  - rewrite _deepCopy_S. cbn -[_deepCopy]. unfold args2, bind. cbn -[_deepCopy].
    rewrite _deepCopy_S. cbn. by repeat (case_bool_decide; [done|]).
Qed.

(** An array whose element points to a literal stored elsewhere. *)
Definition a_literal : Expression := Literal 7 nowhere 42.

Definition literals : gmap addr Expression := {[ 7 := a_literal ]}.

Definition points_to_literal : Expression :=
  Array 1 nowhere [Some (TreeRef 2 nowhere (Some 7))].

Lemma points_to_literal_reaches x :
  reaches literals points_to_literal x →
  x = points_to_literal ∨ x = TreeRef 2 nowhere (Some 7) ∨ x = a_literal.
Proof.
  intros [->|(c & Hv & H)]%rtc_inv; [by left|]. right.
  inversion Hv as [? ? Hc|]; subst; clear Hv.
  unfold child in Hc. simpl in Hc. apply list_elem_of_singleton in Hc as [= ->].
  apply rtc_inv in H as [->|(c & Hv & H)]; [by left|]. right.
  inversion Hv as [? ? Hc|? ? ? ? Hs]; subst; clear Hv.
  { unfold child in Hc. simpl in Hc. by apply elem_of_nil in Hc. }
  unfold literals in Hs. apply lookup_singleton_Some in Hs as [_ <-].
  apply rtc_inv in H as [->|(c' & Hv & H)]; [done|].
  inversion Hv as [? ? Hc|]; subst.
  unfold child in Hc. simpl in Hc. by apply elem_of_nil in Hc.
Qed.

Lemma points_to_literal_typed : well_typed NoReference literals points_to_literal.
Proof. by intros x [->|[->| ->]]%points_to_literal_reaches. Qed.

Lemma points_to_literal_allocated : allocated literals 10 points_to_literal.
Proof. intros x [->|[->| ->]]%points_to_literal_reaches; simpl; lia. Qed.

(** C6 fails on [points_to_literal]: the copy succeeds, and it holds a
    literal where the tree holds a [TreeRef]. *)
Lemma deepCopy_not_struct_eq :
  ∃ T' n',
    deepCopy NoReference literals right_to_left 5 points_to_literal 10 = Done (Some T') n' ∧
    T' = Array 11 nowhere [Some (Literal 10 nowhere 42)] ∧
    ¬ struct_eq points_to_literal T'.
Proof.
  eexists _, _. split; [reflexivity|]. split; [reflexivity|].
  intros H. inversion H as [| | | | | | | | | | | | | | | | | | | | | | | |? ? ? ? ? Hel| | | | | | | | | | |].
  subst. apply Forall2_cons_1 in Hel as [Hel _].
  inversion Hel as [? ? Hsim|]; subst.
  inversion Hsim as [| | | | | | | | | | | | | | | | | | | | | | | | | | | | | | | | | | |? ? ? ? ? Hvia].
  by rewrite lookup_empty in Hvia.
Qed.

Lemma deepCopy_similar_witness :
  similar literals points_to_literal (Array 11 nowhere [Some (Literal 10 nowhere 42)]) ∧
  (no_TreeRef points_to_literal →
   struct_eq points_to_literal (Array 11 nowhere [Some (Literal 10 nowhere 42)])) ∧
  (∀ x y, reaches literals points_to_literal x →
          owns (Array 11 nowhere [Some (Literal 10 nowhere 42)]) y → address x ≠ address y) ∧
  (∀ y, owns (Array 11 nowhere [Some (Literal 10 nowhere 42)]) y →
        10 ≤ address y < 12 ∧ class_of y ≠ K_TreeRef).
Proof.
  apply (deepCopy_similar NoReference literals right_to_left 5 1 true points_to_literal 10).
  - exact points_to_literal_typed.
  - exact points_to_literal_allocated.
  - right. reflexivity.
Defined.


(** An array of two literals: a plain tree. *)
Definition two_literals : Expression :=
  Array 1 nowhere [Some (Literal 2 nowhere 0); Some (Literal 3 nowhere 1)].

Lemma two_literals_plain : plain two_literals.
Proof.
  intros x Hx%nodes_owns. simpl in Hx.
  repeat (apply elem_of_cons in Hx as [->|Hx]); [..|by apply elem_of_nil in Hx];
    (split; [done|]); simpl; intros p Hp;
    repeat (apply elem_of_cons in Hp as [->|Hp]; [done|]); by apply elem_of_nil in Hp.
Qed.

Lemma two_literals_unique : root_unique two_literals.
Proof.
  intros c x Hc Hx%nodes_owns. unfold child in Hc. simpl in Hc.
  repeat (apply elem_of_cons in Hc as [[= ->]|Hc]); [..|by apply elem_of_nil in Hc];
    simpl in Hx; apply list_elem_of_singleton in Hx as ->; done.
Qed.

Lemma _deepCopy_allocates_witness :
  12 = S (address (Array 11 nowhere [Some (Literal 10 nowhere 42)])) ∧
  addresses (Array 11 nowhere [Some (Literal 10 nowhere 42)]) ⊆+ seq 10 (12 - 10) ∧
  (∀ x y, owns (Array 11 nowhere [Some (Literal 10 nowhere 42)]) x →
          owns (Array 11 nowhere [Some (Literal 10 nowhere 42)]) y →
          address x = address y → x = y) ∧
  (well_typed NoReference literals points_to_literal →
   addresses (Array 11 nowhere [Some (Literal 10 nowhere 42)]) ≡ₚ seq 10 (12 - 10) ∧
   size (Array 11 nowhere [Some (Literal 10 nowhere 42)]) = 12 - 10).
Proof.
  apply (_deepCopy_allocates NoReference literals right_to_left 5 1 true points_to_literal 10).
  reflexivity.
Defined.

Lemma _deepCopy_Done_intact_witness :
  (∀ x, reaches literals points_to_literal x → intact literals 1 x) ∧
  (∀ x, tc (visits literals) points_to_literal x → address x ≠ 1) ∧
  (true = false → address points_to_literal ≠ 1) ∧
  (∀ a loc tree, reaches literals points_to_literal (TreeRef a loc tree) →
     ∃ t target, tree = Some t ∧ t ≠ 1 ∧ literals !! t = Some target).
Proof.
  apply (_deepCopy_Done_intact NoReference literals right_to_left 5 1 true points_to_literal 10
           (Array 11 nowhere [Some (Literal 10 nowhere 42)]) 12).
  reflexivity.
Defined.

Lemma deepCopy_plain_tree_witness :
  ∃ T' n', deepCopy NoReference ∅ right_to_left 3 two_literals 10 = Done (Some T') n' ∧
    (well_typed NoReference ∅ two_literals →
     struct_eq two_literals T' ∧ n' = 10 + size two_literals).
Proof.
  apply (deepCopy_plain_tree NoReference ∅ right_to_left 3 two_literals 10).
  - exact two_literals_plain.
  - exact two_literals_unique.
  - unfold size. simpl. lia.
Defined.

Lemma deepCopy_again_witness :
  ∃ T'' m',
    deepCopy NoReference literals right_to_left 2 (Array 11 nowhere [Some (Literal 10 nowhere 42)]) 20
      = Done (Some T'') m' ∧
    struct_eq (Array 11 nowhere [Some (Literal 10 nowhere 42)]) T'' ∧
    m' = 20 + size (Array 11 nowhere [Some (Literal 10 nowhere 42)]) ∧
    12 = 10 + size (Array 11 nowhere [Some (Literal 10 nowhere 42)]).
Proof.
  apply (deepCopy_again NoReference literals right_to_left 5 points_to_literal 10
           (Array 11 nowhere [Some (Literal 10 nowhere 42)]) 12 2 20).
  - exact points_to_literal_typed.
  - reflexivity.
  - unfold size. simpl. lia.
Defined.
End ast.

(** ** Part 2: the Command rewriter ([dsl/Command.cc]) *)

Module dsl.
Import ast.

(** [v.empty()] *)
Definition empty {A} (v : list A) : bool :=
  match v with [] => true | _ => false end.

(** [v.insert(v.begin() + pos, x)] *)
Definition vector_insert {A} (pos : nat) (x : A) (v : list A) : list A :=
  take pos v ++ x :: drop pos v.

Section Command.

Variable Reference : NodeClass → bool.
Variable shared : gmap addr Expression.

(** The order in which the compiler evaluates the arguments of the
    constructor calls of the copy. *)
Variable order : NodeClass → list nat.

(** Names and symbols of [core/], and the name table of the context:
    [ctx.state.enterNameConstant] returns the constant name made from a
    name. *)
Variable Names_Command Names_Opus Names_call : NameRef.
Variable enterNameConstant : NameRef → NameRef.
Variable Symbols_root Symbols_todo : SymbolRef.

(** [ast::MK::Untyped(loc)] is defined in [ast/Helpers.h], which is not
    among the sources: a parameter, which builds its tree from the next
    free address on and returns it with the address that is free
    afterwards. *)
Variable MK_Untyped : Loc → addr → Expression * addr.

Local Open Scope copy_scope.

(** Modelled from the spec: [ast::MK::Method(loc, name, args, rhs, isSelf)]
    is defined in [ast/Helpers.h], which is not among the sources; §4.2 has
    it construct the [MethodDef] of these arguments.  The symbol of the new
    node is a parameter. *)
Definition MK_Method (loc : Loc) (name : NameRef) (args : list ptr) (rhs : ptr)
    (isSelf : bool) : M Expression :=
  make_unique (fun a => MethodDef a loc Symbols_todo name args rhs isSelf).

Definition isCommand (klass : Expression) : bool :=
  match klass with
  | ClassDef _ _ _ _ ancestors _ kind =>
    if negb (bool_decide (kind = Class)) || empty ancestors then false else
    match cast_tree (exactly K_ConstantLit) (mjoin (head ancestors)) with
    | Some (ConstantLit _ _ cnst_scope cnst) =>
      if negb (bool_decide (cnst = enterNameConstant Names_Command)) then false else
      match cast_tree (exactly K_ConstantLit) cnst_scope with
      | Some (ConstantLit _ _ scope_scope scope_cnst) =>
        if negb (bool_decide (scope_cnst = enterNameConstant Names_Opus)) then false else
        if isa_tree (exactly K_EmptyTree) scope_scope then true else
        match cast_tree (exactly K_Ident) scope_scope with
        | Some (Ident _ _ symbol) => bool_decide (symbol = Symbols_root)
        | _ => false
        end
      | _ => false
      end
    | _ => false
    end
  | _ => false
  end.

(** The scan of [klass->rhs]: the index and the node of the first
    [MethodDef] named [call], counted from [idx]. *)
Fixpoint find_call (rhs : list ptr) (idx : nat) : option (nat * Expression) :=
  match rhs with
  | [] => None
  | stat :: rhs =>
    match cast_tree (exactly K_MethodDef) stat with
    | Some (MethodDef _ _ _ name _ _ _ as mdef) =>
      if bool_decide (name = Names_call) then Some (idx, mdef)
      else find_call rhs (S idx)
    | _ => find_call rhs (S idx)
    end
  end.

(** [for (auto &arg : call->args) newArgs.emplace_back(arg->deepCopy())] *)
Definition copyArgs (fuel : nat) (args : list ptr) : M (list ptr) :=
  mapM (fun arg => match arg with
                   | Some e => deepCopy Reference shared order fuel e
                   | None => fault
                   end) args.

(** [Command::patchDSL(ctx, klass)].  The argument is a [ClassDef *]; the
    result is the class after the call.  When the scan finds nothing, [i]
    is still 0 and the source returns on [i == 0] whatever [call] holds. *)
Definition patchDSL (fuel : nat) (klass : Expression) : M Expression :=
  if negb (isCommand klass) then ret klass else
  match klass with
  | ClassDef a loc symbol name ancestors rhs kind =>
    match find_call rhs 0 with
    | None => ret klass
    | Some (i, call) =>
      if bool_decide (i = 0) then ret klass else
      match cast_tree (exactly K_Send) (mjoin (rhs !! (i - 1))), call with
      | Some (Send _ _ sig_recv _ _ _ as sig), MethodDef _ call_loc _ call_name call_args _ _ =>
        if negb (isa_tree (exactly K_Send) sig_recv) then ret klass else
        newArgs <- copyArgs fuel call_args;;
        untyped <- (fun n => let '(t, n') := MK_Untyped call_loc n in Done t n');;
        selfCall <- MK_Method call_loc call_name newArgs (Some untyped) true;;
        sig' <- deepCopy Reference shared order fuel sig;;
        let rhs1 := vector_insert (i + 1) sig' rhs in
        let rhs2 := vector_insert (i + 2) (Some selfCall) rhs1 in
        ret (ClassDef a loc symbol name ancestors rhs2 kind)
      | _, _ => ret klass
      end
    end
  | _ => ret klass
  end.

(** The class body, [klass->rhs]. *)
Definition body (klass : Expression) : list ptr :=
  match klass with
  | ClassDef _ _ _ _ _ rhs _ => rhs
  | _ => []
  end.

(** ** What the claims speak of *)

(** The signature heuristic: a [Send] whose receiver is a [Send]. *)
Definition looks_like_sig (p : ptr) : bool :=
  match cast_tree (exactly K_Send) p with
  | Some (Send _ _ recv _ _ _) => isa_tree (exactly K_Send) recv
  | _ => false
  end.

(** A [MethodDef] named [call]. *)
Definition is_call (p : ptr) : bool :=
  match p with
  | Some (MethodDef _ _ _ name _ _ _) => bool_decide (name = Names_call)
  | _ => false
  end.

(** [call], at index [i], is the first [MethodDef] named [call] of [rhs]. *)
Definition first_call (rhs : list ptr) (i : nat) (call : Expression) : Prop :=
  rhs !! i = Some (Some call) ∧ is_call (Some call) = true ∧
  ∀ j, j < i → is_call (mjoin (rhs !! j)) = false.

(** The conditions under which the rewriter acts on a class with body
    [rhs]: the shape predicate holds, the first [call] is at index [i] > 0,
    and the statement before it looks like a signature. *)
Definition acts (klass : Expression) (i : nat) (call sig : Expression) : Prop :=
  isCommand klass = true ∧
  first_call (body klass) i call ∧
  0 < i ∧
  body klass !! (i - 1) = Some (Some sig) ∧
  looks_like_sig (Some sig) = true.

(** The arguments of a method definition, [call->args]. *)
Definition method_args (call : Expression) : list ptr :=
  match call with
  | MethodDef _ _ _ _ args _ _ => args
  | _ => []
  end.

(** The copies that the rewriter takes of [call] and [sig] return. *)
Definition copies_return (fuel : nat) (call sig : Expression) : Prop :=
  Forall (λ arg, ∃ e, arg = Some e ∧ returns Reference shared order fuel e) (method_args call) ∧
  returns Reference shared order fuel sig.

(** The mirror method that the rewriter builds for [call]: same location
    and name, the given arguments, an [Untyped] body, [isSelf]. *)
Definition is_selfCall (call : Expression) (newArgs : list ptr) (p : ptr) : Prop :=
  match call, p with
  | MethodDef _ call_loc _ call_name _ _ _, Some (MethodDef _ loc symbol name args rhs isSelf) =>
      loc = call_loc ∧ name = call_name ∧ args = newArgs ∧ isSelf = true ∧
      ∃ m, rhs = Some (MK_Untyped call_loc m).1
  | _, _ => False
  end.

(** [klass] with [rhs] for its body. *)
Definition with_body (klass : Expression) (rhs : list ptr) : Expression :=
  match klass with
  | ClassDef a loc symbol name ancestors _ kind => ClassDef a loc symbol name ancestors rhs kind
  | _ => klass
  end.

(** ** Facts on the scan *)

Lemma find_call_shift rhs idx :
  find_call rhs idx = prod_map (λ i, idx + i) id <$> find_call rhs 0.
Proof.
  revert idx. induction rhs as [|stat rhs IH]; intros idx; simpl; [done|].
  destruct (cast_tree _ stat) as [[]|];
    try (rewrite (IH (S idx)), (IH 1), <- option_fmap_compose;
         apply option_fmap_ext; intros [? ?]; simpl; f_equal; lia).
  case_bool_decide.
  - simpl. do 2 f_equal. lia.
  - rewrite (IH (S idx)), (IH 1), <- option_fmap_compose.
    apply option_fmap_ext; intros [? ?]; simpl; f_equal; lia.
Qed.

Lemma cast_tree_Some T p e : cast_tree T p = Some e → p = Some e ∧ T (class_of e) = true.
Proof.
  unfold cast_tree, isa_tree. destruct p as [e'|]; [|done].
  destruct (T (class_of e')) eqn:HT; [|done]. by intros [= ->].
Qed.

Lemma is_call_MethodDef call :
  is_call (Some call) = true → ∃ a loc symbol args rhs isSelf,
    call = MethodDef a loc symbol Names_call args rhs isSelf.
Proof.
  destruct call; try discriminate. simpl. intros ?%bool_decide_eq_true. subst.
  by eexists _, _, _, _, _, _.
Qed.

(** The scan returns the first statement that is a method named [call]. *)
Lemma find_call_Some rhs i call :
  find_call rhs 0 = Some (i, call) →
  rhs !! i = Some (Some call) ∧ is_call (Some call) = true ∧
  ∀ j, j < i → is_call (mjoin (rhs !! j)) = false.
Proof.
  revert i. induction rhs as [|stat rhs IH]; intros i; simpl; [done|].
  assert (Hrest : find_call rhs 1 = Some (i, call) → is_call stat = false →
    (stat :: rhs) !! i = Some (Some call) ∧ is_call (Some call) = true ∧
    ∀ j, j < i → is_call (mjoin ((stat :: rhs) !! j)) = false).
  { rewrite find_call_shift. intros H Hstat.
    destruct (find_call rhs 0) as [[i0 c0]|] eqn:E; [|done].
    injection H as <- <-. destruct (IH _ eq_refl) as (? & ? & Hlt).
    split_and!; [done|done|]. intros [|j] ?; [done|]. simpl. apply Hlt. lia. }
  destruct (cast_tree _ stat) as [e|] eqn:Hc.
  - apply cast_tree_Some in Hc as [-> Hk].
    destruct e; try discriminate Hk.
    simpl. case_bool_decide as Hn.
    + intros [= <- <-]. simpl. rewrite bool_decide_eq_true_2 by done.
      split_and!; [done..|]. intros; lia.
    + intros H. apply Hrest; [done|]. simpl. by rewrite bool_decide_eq_false_2.
  - intros H. apply Hrest; [done|].
    unfold cast_tree, isa_tree in Hc. destruct stat as [[]|]; try done.
Qed.

Lemma find_call_None rhs :
  find_call rhs 0 = None → ∀ j, is_call (mjoin (rhs !! j)) = false.
Proof.
  induction rhs as [|stat rhs IH]; simpl; [by intros _ []|].
  assert (Hrest : find_call rhs 1 = None → is_call stat = false →
    ∀ j, is_call (mjoin ((stat :: rhs) !! j)) = false).
  { rewrite find_call_shift. intros H Hstat.
    destruct (find_call rhs 0) as [[i0 c0]|] eqn:E; [done|].
    intros [|j]; [done|]. simpl. by apply IH. }
  destruct (cast_tree _ stat) as [e|] eqn:Hc.
  - apply cast_tree_Some in Hc as [-> Hk].
    destruct e; try discriminate Hk.
    case_bool_decide as Hn; [done|].
    intros H. apply Hrest; [done|]. simpl. by rewrite bool_decide_eq_false_2.
  - intros H. apply Hrest; [done|].
    unfold cast_tree, isa_tree in Hc. destruct stat as [[]|]; try done.
Qed.

Lemma find_call_skip stat rhs idx :
  is_call stat = false → find_call (stat :: rhs) idx = find_call rhs (S idx).
Proof.
  intros Hstat. simpl. destruct (cast_tree _ stat) as [e|] eqn:Hc; [|done].
  apply cast_tree_Some in Hc as [-> Hk]. destruct e; try done.
  simpl in Hstat. by rewrite Hstat.
Qed.

(** The scan finds exactly the first method named [call]. *)
Lemma find_call_first rhs i call :
  find_call rhs 0 = Some (i, call) ↔ first_call rhs i call.
Proof.
  split; [apply find_call_Some|].
  revert i. induction rhs as [|stat rhs IH]; intros i (Hi & Hcall & Hlt); [done|].
  destruct i as [|i].
  - simpl in Hi. injection Hi as ->.
    destruct (is_call_MethodDef _ Hcall) as (? & ? & ? & ? & ? & ? & ->).
    simpl. by rewrite bool_decide_eq_true_2.
  - rewrite find_call_skip by (apply (Hlt 0); lia).
    rewrite find_call_shift, (IH i); [done|].
    split_and!; [done..|]. intros j ?. apply (Hlt (S j)). lia.
Qed.


(** ** Facts on the rewriter *)

Lemma vector_insert_twice {A} (i : nat) (x y : A) (v : list A) :
  i < length v →
  vector_insert (i + 2) y (vector_insert (i + 1) x v) = take (i + 1) v ++ x :: y :: drop (i + 1) v.
Proof.
  intros Hi. unfold vector_insert.
  assert (Hlen : length (take (i + 1) v) = i + 1) by (rewrite length_take; lia).
  rewrite take_app_ge, drop_app_ge by lia. rewrite Hlen.
  replace (i + 2 - (i + 1)) with 1 by lia. simpl. rewrite drop_0.
  by rewrite <- app_assoc.
Qed.

Lemma isCommand_ClassDef klass :
  isCommand klass = true → ∃ a loc symbol name ancestors rhs kind,
    klass = ClassDef a loc symbol name ancestors rhs kind.
Proof. destruct klass; try discriminate. intros _. by eexists _, _, _, _, _, _, _. Qed.

Lemma isCommand_with_body klass rhs : isCommand (with_body klass rhs) = isCommand klass.
Proof. by destruct klass. Qed.

Lemma body_with_body klass rhs :
  class_of klass = K_ClassDef → body (with_body klass rhs) = rhs.
Proof. by destruct klass. Qed.

Lemma looks_like_sig_Send sig :
  looks_like_sig (Some sig) = true → ∃ a loc recv fun_ args block,
    sig = Send a loc recv fun_ args block ∧ isa_tree (exactly K_Send) recv = true.
Proof.
  destruct sig; try discriminate. unfold looks_like_sig. simpl. intros H.
  by eexists _, _, _, _, _, _.
Qed.

(** Where the rewriter acts, it returns as soon as its copies do, and this
    is the class it leaves. *)
Lemma patchDSL_acts fuel klass i call sig n :
  acts klass i call sig → copies_return fuel call sig →
  ∃ newArgs selfCall sig' n',
    patchDSL fuel klass n =
      Done (with_body klass (take (i + 1) (body klass) ++ sig' :: Some selfCall
                               :: drop (i + 1) (body klass))) n' ∧
    Forall2 (λ arg r, ∃ e, arg = Some e ∧ copied Reference shared order fuel e r)
            (method_args call) newArgs ∧
    is_selfCall call newArgs (Some selfCall) ∧
    copied Reference shared order fuel sig sig'.
Proof.
  intros (Hcmd & Hfind%find_call_first & Hi & Hsig & Hlooks) [Hargs Hret].
  destruct (isCommand_ClassDef _ Hcmd) as (a & loc & symbol & name & ancestors & rhs & kind & ->).
  simpl in Hfind, Hsig.
  destruct (find_call_Some _ _ _ Hfind) as (Hcall & Hiscall & _).
  destruct (is_call_MethodDef _ Hiscall) as (ca & cloc & csym & cargs & crhs & cself & ->).
  destruct (looks_like_sig_Send _ Hlooks) as (sa & sloc & recv & sfun & sargs & sblock & -> & Hrecv).
  simpl in Hargs.
  destruct (mapM_returns (λ arg, match arg with
                                 | Some e => deepCopy Reference shared order fuel e
                                 | None => fault
                                 end) cargs) with (n := n) as (newArgs & n1 & HnewArgs).
  { eapply Forall_impl; [exact Hargs|]. intros ? (e & -> & He). exact He. }
  destruct (MK_Untyped cloc n1) as [untyped n2] eqn:Hunt.
  destruct (Hret (S n2)) as (sig' & n' & Hsig').
  exists newArgs, (MethodDef n2 cloc Symbols_todo Names_call newArgs (Some untyped) true), sig', n'.
  split_and!.
  - unfold patchDSL. rewrite Hcmd. simpl. rewrite Hfind.
    rewrite bool_decide_eq_false_2 by lia. rewrite Hsig. simpl.
    unfold cast_tree. simpl. rewrite Hrecv. simpl.
    unfold bind at 1. unfold copyArgs. rewrite HnewArgs.
    unfold bind at 1. rewrite Hunt.
    unfold bind at 1. unfold MK_Method, make_unique.
    unfold bind at 1. rewrite Hsig'. unfold ret.
    rewrite vector_insert_twice; [done|].
    apply lookup_lt_Some in Hcall. done.
  - eapply mapM_Done; [|exact HnewArgs]. simpl.
    intros [e|] m r m' _ H; [|done]. exists e. split; [done|]. by exists m, m'.
  - simpl. split_and!; try done. exists n1. by rewrite Hunt.
  - by exists (S n2), n'.
Qed.

(** Where the rewriter does not act, it returns its argument and allocates
    nothing. *)
Lemma patchDSL_idle fuel klass n :
  (∀ i call sig, ¬ acts klass i call sig) → patchDSL fuel klass n = Done klass n.
Proof.
  intros Hno. unfold patchDSL.
  destruct (isCommand klass) eqn:Hcmd; [|done]. simpl.
  destruct (isCommand_ClassDef _ Hcmd) as (a & loc & symbol & name & ancestors & rhs & kind & ->).
  destruct (find_call rhs 0) as [[i call]|] eqn:Hfind; [|done].
  case_bool_decide as Hi; [done|].
  destruct (find_call_Some _ _ _ Hfind) as (Hcall & Hiscall & _).
  destruct (is_call_MethodDef _ Hiscall) as (ca & cloc & csym & cargs & crhs & cself & ->).
  destruct (cast_tree _ (mjoin (rhs !! (i - 1)))) as [sig|] eqn:Hc; [|done].
  apply cast_tree_Some in Hc as [Hsig Hk].
  destruct sig; try discriminate Hk.
  destruct (isa_tree (exactly K_Send) recv) eqn:Hrecv; [|done].
  exfalso. eapply (Hno i). split_and!; [done|by apply find_call_first|lia| |].
  - simpl. destruct (rhs !! (i - 1)) as [p|]; [|done]. simpl in Hsig. by subst.
  - unfold looks_like_sig. simpl. done.
Qed.

Lemma acts_dec klass :
  (∃ i call sig, acts klass i call sig) ∨ (∀ i call sig, ¬ acts klass i call sig).
Proof.
  destruct (isCommand klass) eqn:Hcmd; [|right; intros ??? [? _]; congruence].
  destruct (find_call (body klass) 0) as [[i call]|] eqn:Hfind; cycle 1.
  { right. intros ??? (_ & H%find_call_first & _). congruence. }
  assert (Huniq : ∀ i' call' sig', acts klass i' call' sig' → i' = i ∧ call' = call).
  { intros ??? (_ & H%find_call_first & _). split; congruence. }
  destruct (decide (0 < i)) as [Hi|Hi]; cycle 1.
  { right. intros ??? H. destruct (Huniq _ _ _ H) as [-> ->]. destruct H as (_ & _ & ? & _). lia. }
  destruct (body klass !! (i - 1)) as [[sig|]|] eqn:Hsig; cycle 1.
  { right. intros ??? H. destruct (Huniq _ _ _ H) as [-> ->].
    destruct H as (_ & _ & _ & ? & _). congruence. }
  { right. intros ??? H. destruct (Huniq _ _ _ H) as [-> ->].
    destruct H as (_ & _ & _ & ? & _). congruence. }
  destruct (looks_like_sig (Some sig)) eqn:Hlooks.
  - left. exists i, call, sig. split_and!; try done. by apply find_call_first.
  - right. intros ??? H. destruct (Huniq _ _ _ H) as [-> ->].
    destruct H as (_ & _ & _ & ? & ?). congruence.
Qed.


(** C8: the rewriter leaves the class as it is, and allocates nothing,
    when the shape predicate fails, when the body has no method named
    [call], when the first such method is the first statement, and when the
    statement before the first such method is not a [Send] whose receiver
    is a [Send]. *)
Theorem patchDSL_no_change fuel klass n :
  isCommand klass = false ∨
  (∀ j, is_call (mjoin (body klass !! j)) = false) ∨
  is_call (mjoin (body klass !! 0)) = true ∨
  (∃ i call, first_call (body klass) i call ∧
             looks_like_sig (mjoin (body klass !! (i - 1))) = false) →
  patchDSL fuel klass n = Done klass n.
Proof.
  intros H. apply patchDSL_idle.
  intros i call sig (Hcmd & (Hcall & Hiscall & Hlt) & Hi & Hsig & Hlooks).
  destruct H as [H | [H | [H | (i' & call' & (Hcall' & Hiscall' & Hlt') & H)]]].
  - congruence.
  - specialize (H i). rewrite Hcall in H. change (is_call (Some call) = false) in H. congruence.
  - specialize (Hlt 0 Hi). congruence.
  - assert (i' = i) as ->.
    { destruct (Nat.lt_trichotomy i' i) as [Hlti | [-> | Hlti]]; [|done|].
      - specialize (Hlt _ Hlti). rewrite Hcall' in Hlt.
        change (is_call (Some call') = false) in Hlt. congruence.
      - specialize (Hlt' _ Hlti). rewrite Hcall in Hlt'.
        change (is_call (Some call) = false) in Hlt'. congruence. }
    rewrite Hsig in H. change (looks_like_sig (Some sig) = false) in H. congruence.
Qed.

(** C2, as the code has it: on a class that satisfies the shape predicate,
    whose first method named [call] is at index [i] > 0 and follows a
    [Send] whose receiver is a [Send], the pass returns as soon as its
    copies do, and then the body holds, from index [i - 1] on: the
    signature, [call], what [deepCopy] returned for the signature, and a
    method with the location and the name of [call], what [deepCopy]
    returned for each of its arguments, an [Untyped] body and [isSelf] set.
    What [deepCopy] returned for the signature or for an argument is a
    tree similar to it, or the null pointer: the null pointer exactly when
    the signature or the argument contains a [TreeRef] that is null or
    whose expansion comes back to it.  The pass does not test for the null
    pointer and stores it.  The statements before and after are as they
    were. *)
Theorem patchDSL_mirror fuel klass i call sig n :
  acts klass i call sig → copies_return fuel call sig →
  ∃ klass' n' sig' newArgs selfCall,
    patchDSL fuel klass n = Done klass' n' ∧
    body klass' = take (i + 1) (body klass) ++ sig' :: selfCall :: drop (i + 1) (body klass) ∧
    body klass' !! (i - 1) = Some (Some sig) ∧
    body klass' !! i = Some (Some call) ∧
    body klass' !! (i + 1) = Some sig' ∧
    body klass' !! (i + 2) = Some selfCall ∧
    copied Reference shared order fuel sig sig' ∧
    (root_unique sig → (sig' = None ↔ blocked shared (address sig) sig)) ∧
    (∀ s, sig' = Some s → well_typed Reference shared sig → similar shared sig s) ∧
    is_selfCall call newArgs selfCall ∧
    Forall2 (λ arg r, ∃ e, arg = Some e ∧ copied Reference shared order fuel e r ∧
               (root_unique e → (r = None ↔ blocked shared (address e) e)) ∧
               (∀ s, r = Some s → well_typed Reference shared e → similar shared e s))
            (method_args call) newArgs.
Proof.
  intros Hacts Hret.
  destruct (patchDSL_acts fuel klass i call sig n Hacts Hret)
    as (newArgs & selfCall & sig' & n' & Hrun & Hargs & Hself & Hsig').
  destruct Hacts as (Hcmd & (Hcall & _) & Hi & Hsig & _).
  destruct (isCommand_ClassDef _ Hcmd) as (a & loc & symbol & name & ancestors & rhs & kind & ->).
  simpl in *.
  assert (Hlen : i < length rhs) by (by apply lookup_lt_Some in Hcall).
  assert (Htake : length (take (i + 1) rhs) = i + 1) by (rewrite length_take; lia).
  eexists _, n', sig', newArgs, (Some selfCall). split; [exact Hrun|]. simpl.
  split_and!; try done.
  - rewrite lookup_app_l by lia. rewrite lookup_take_lt by lia. done.
  - rewrite lookup_app_l by lia. rewrite lookup_take_lt by lia. done.
  - rewrite lookup_app_r by lia. rewrite Htake. by replace (i + 1 - (i + 1)) with 0 by lia.
  - rewrite lookup_app_r by lia. rewrite Htake. by replace (i + 2 - (i + 1)) with 1 by lia.
  - intros Huniq. by eapply copied_null.
  - intros s -> Hty. by eapply copied_similar.
  - eapply Forall2_impl; [exact Hargs|]. intros arg r (e & -> & Hcopied).
    exists e. split_and!; try done.
    + intros Huniq. by eapply copied_null.
    + intros s -> Hty. by eapply copied_similar.
Qed.



(** ** What the rewriter leaves of a class *)

Lemma copyArgs_Done fuel args n newArgs n' :
  copyArgs fuel args n = Done newArgs n' →
  Forall2 (λ arg r, ∃ e, arg = Some e ∧ copied Reference shared order fuel e r) args newArgs.
Proof.
  unfold copyArgs. apply mapM_Done.
  intros [e|] m r m' _ H; [|done]. exists e. split; [done|]. by exists m, m'.
Qed.

(** When the rewriter returns it has left the class as it was, or it has
    acted: the body has, after the first [call], what [deepCopy] returned
    for the signature and the mirror method, whose arguments are what
    [deepCopy] returned for the arguments of [call]. *)
Lemma patchDSL_Done fuel klass n klass' n' :
  patchDSL fuel klass n = Done klass' n' →
  (klass' = klass ∧ ∀ i call sig, ¬ acts klass i call sig) ∨
  ∃ i call sig newArgs selfCall sig',
    acts klass i call sig ∧
    klass' = with_body klass (take (i + 1) (body klass) ++ sig' :: Some selfCall
                                :: drop (i + 1) (body klass)) ∧
    Forall2 (λ arg r, ∃ e, arg = Some e ∧ copied Reference shared order fuel e r)
            (method_args call) newArgs ∧
    is_selfCall call newArgs (Some selfCall) ∧
    copied Reference shared order fuel sig sig'.
Proof.
  destruct (acts_dec klass) as [(i & call & sig & Hacts)|Hidle]; cycle 1.
  { rewrite (patchDSL_idle fuel klass n Hidle). intros [= <- <-]. by left. }
  intros H. right. exists i, call, sig.
  pose proof Hacts as (Hcmd & Hfind%find_call_first & Hi & Hsig & Hlooks).
  destruct (isCommand_ClassDef _ Hcmd) as (a & loc & symbol & name & ancestors & rhs & kind & ->).
  simpl in Hfind, Hsig.
  destruct (find_call_Some _ _ _ Hfind) as (Hcall & Hiscall & _).
  destruct (is_call_MethodDef _ Hiscall) as (ca & cloc & csym & cargs & crhs & cself & ->).
  destruct (looks_like_sig_Send _ Hlooks) as (sa & sloc & recv & sfun & sargs & sblock & -> & Hrecv).
  unfold patchDSL in H. rewrite Hcmd in H. simpl in H. rewrite Hfind in H.
  rewrite bool_decide_eq_false_2 in H by lia. rewrite Hsig in H. simpl in H.
  unfold cast_tree in H. simpl in H. rewrite Hrecv in H. simpl in H.
  apply bind_Done in H as (newArgs & n1 & HnewArgs & H).
  apply bind_Done in H as (untyped & n2 & Hunt & H).
  apply bind_Done in H as (selfCall & n3 & Hself & H).
  apply bind_Done in H as (sig' & n4 & Hsig' & H).
  apply ret_Done in H as [-> ->].
  apply make_unique_Done in Hself as [-> ->].
  exists newArgs, (MethodDef n2 cloc Symbols_todo Names_call newArgs (Some untyped) true), sig'.
  split_and!; [done| | | |].
  - simpl. rewrite vector_insert_twice; [done|]. by apply lookup_lt_Some in Hcall.
  - by apply copyArgs_Done in HnewArgs.
  - simpl. split_and!; try done. exists n1.
    destruct (MK_Untyped cloc n1) as [t m] eqn:E. by injection Hunt as <- _.
  - by exists (S n2), n4.
Qed.

Lemma sublist_inserted {A} (l : list A) k x y : l `sublist_of` take k l ++ x :: y :: drop k l.
Proof.
  rewrite <- (take_drop k l) at 1.
  apply sublist_app; [done|]. by do 2 apply sublist_cons.
Qed.

(** X5. The rewriter only ever inserts.  Whenever [patchDSL] returns, the
    class is the class it was given but for its body: address, location,
    symbol, name, ancestors and kind are as they were, so that the shape
    predicate holds of it as before.  Every statement of the body is still
    there, in the same order: the new body is the old one, or the old one
    with two more statements. *)
Theorem patchDSL_only_inserts fuel klass n klass' n' :
  patchDSL fuel klass n = Done klass' n' →
  with_body klass' (body klass) = klass ∧
  isCommand klass' = isCommand klass ∧
  body klass `sublist_of` body klass' ∧
  (length (body klass') = length (body klass) ∨
   length (body klass') = length (body klass) + 2).
Proof.
  intros [[-> _]|(i & call & sig & newArgs & selfCall & sig' & Hacts & -> & _)]%patchDSL_Done.
  { split_and!; [by destruct klass|done|done|by left]. }
  destruct Hacts as (Hcmd & _).
  destruct (isCommand_ClassDef _ Hcmd) as (a & loc & symbol & name & ancestors & rhs & kind & ->).
  simpl. split_and!; [done|done|apply sublist_inserted|right].
  rewrite length_app. simpl. rewrite length_take, length_drop. lia.
Qed.

Lemma acts_unique klass i call sig i' call' sig' :
  acts klass i call sig → acts klass i' call' sig' → i' = i ∧ call' = call ∧ sig' = sig.
Proof.
  intros (_ & H%find_call_first & _ & Hsig & _) (_ & H'%find_call_first & _ & Hsig' & _).
  rewrite H in H'. injection H' as <- <-. rewrite Hsig in Hsig'. by injection Hsig' as <-.
Qed.

(** X6. The rewriter does not test what [deepCopy] returns.  Where it acts
    and returns, a signature that cannot be copied, because it contains a
    [TreeRef] that is null or whose expansion comes back to the signature,
    leaves a null statement in the body, right after [call]; and an
    argument of [call] that cannot be copied leaves a null argument in the
    mirror method. *)
Theorem patchDSL_stores_null fuel klass i call sig n klass' n' :
  acts klass i call sig →
  patchDSL fuel klass n = Done klass' n' →
  (blocked shared (address sig) sig → body klass' !! (i + 1) = Some None) ∧
  (∀ j arg, method_args call !! j = Some (Some arg) →
     blocked shared (address arg) arg →
     ∃ selfCall, body klass' !! (i + 2) = Some (Some selfCall) ∧
                 method_args selfCall !! j = Some None).
Proof.
  intros Hacts H.
  assert (Hnull : ∀ e r, blocked shared (address e) e →
            copied Reference shared order fuel e r → r = None).
  { intros e [r|] Hb (m & m' & Hcopy); [|done].
    apply deepCopy_Some in Hcopy. by apply _deepCopy_Done_not_blocked in Hcopy. }
  apply patchDSL_Done in H
    as [[_ Hidle]|(i' & call' & sig0 & newArgs & selfCall & sig' & Hacts' & -> & Hargs & Hself & Hsig')].
  { by destruct (Hidle _ _ _ Hacts). }
  destruct (acts_unique _ _ _ _ _ _ _ Hacts Hacts') as (-> & -> & ->). clear Hacts'.
  destruct Hacts as (Hcmd & (Hcall & _) & Hi & _).
  destruct (isCommand_ClassDef _ Hcmd) as (a & loc & symbol & name & ancestors & rhs & kind & ->).
  simpl in *.
  assert (Hlen : i < length rhs) by (by apply lookup_lt_Some in Hcall).
  assert (Htake : length (take (i + 1) rhs) = i + 1) by (rewrite length_take; lia).
  split.
  - intros Hb. rewrite lookup_app_r by lia. rewrite Htake.
    replace (i + 1 - (i + 1)) with 0 by lia. simpl. f_equal. by eapply Hnull.
  - intros j arg Harg Hb. exists selfCall. split.
    + rewrite lookup_app_r by lia. rewrite Htake. by replace (i + 2 - (i + 1)) with 1 by lia.
    + destruct call; try done. destruct selfCall; try done. simpl in *.
      destruct Hself as (_ & _ & -> & _).
      destruct (Forall2_lookup_l _ _ _ _ _ Hargs Harg) as (r & Hr & e & [= <-] & Hcopied).
      rewrite Hr. f_equal. by eapply Hnull.
Qed.
End Command.

(** ** The rewriter on a concrete class

    [class Foo < Opus::Command; sig.returns; def call(x); end; end], with
    the names [Command], [Opus], [call] numbered 1, 2, 3 and the constant
    name of the name [n] numbered [n + 100]. *)

Definition here : Loc := mkLoc 1 0 0.

Definition References (k : NodeClass) : bool :=
  match k with
  | K_Ident | K_Local | K_UnresolvedIdent | K_RestArg | K_KeywordArg | K_OptionalArg
  | K_BlockArg | K_ShadowArg => true
  | _ => false
  end.

Definition Untyped_at (loc : Loc) (n : addr) : Expression * addr :=
  (Send (S n) loc (Some (Ident n loc 7)) 8 [] None, S (S n)).

Definition Opus_Command : Expression :=
  ConstantLit 10 here (Some (ConstantLit 11 here (Some (EmptyTree 12 here)) 102)) 101.

Definition a_sig : Expression :=
  Send 20 here (Some (Send 21 here (Some (Self 22 here 0)) 5 [] None)) 6 [] None.

Definition a_call : Expression :=
  MethodDef 30 here 0 3 [Some (Local 31 here 4)] (Some (EmptyTree 32 here)) false.

Definition Foo : Expression :=
  ClassDef 1 here 0 (Some (EmptyTree 2 here)) [Some Opus_Command] [Some a_sig; Some a_call] Class.

(** The same body in a module: the shape predicate fails. *)
Definition FooModule : Expression :=
  ClassDef 1 here 0 (Some (EmptyTree 2 here)) [Some Opus_Command] [Some a_sig; Some a_call] Module.

Definition patch : nat → Expression → M Expression :=
  patchDSL References ∅ left_to_right 1 2 3 (λ n, n + 100) 0 99 Untyped_at.

Lemma patchDSL_no_change_witness : patch 10 FooModule 50 = Done FooModule 50.
Proof. apply patchDSL_no_change. left. reflexivity. Defined.

Lemma patchDSL_mirror_witness :
  ∃ klass' n' sig' newArgs selfCall,
    patch 10 Foo 50 = Done klass' n' ∧
    body klass' = take 2 (body Foo) ++ sig' :: selfCall :: drop 2 (body Foo) ∧
    body klass' !! 0 = Some (Some a_sig) ∧
    body klass' !! 1 = Some (Some a_call) ∧
    body klass' !! 2 = Some sig' ∧
    body klass' !! 3 = Some selfCall ∧
    copied References ∅ left_to_right 10 a_sig sig' ∧
    (root_unique a_sig → (sig' = None ↔ blocked ∅ (address a_sig) a_sig)) ∧
    (∀ s, sig' = Some s → well_typed References ∅ a_sig → similar ∅ a_sig s) ∧
    is_selfCall Untyped_at a_call newArgs selfCall ∧
    Forall2 (λ arg r, ∃ e, arg = Some e ∧ copied References ∅ left_to_right 10 e r ∧
               (root_unique e → (r = None ↔ blocked ∅ (address e) e)) ∧
               (∀ s, r = Some s → well_typed References ∅ e → similar ∅ e s))
            (method_args a_call) newArgs.
Proof.
  apply (patchDSL_mirror References ∅ left_to_right 1 2 3 (λ n, n + 100) 0 99 Untyped_at 10 Foo 1 a_call a_sig 50).
  - split_and!; try reflexivity; [|lia].
    split_and!; try reflexivity. intros [|j] ?; [reflexivity|lia].
  - split.
    + repeat constructor. eexists. split; [reflexivity|]. intros n. by eexists _, _.
    + intros n. by eexists _, _.
Defined.




(** A class whose signature and whose [call] hold a [TreeRef] that points
    to nothing: neither can be copied. *)
Definition bad_sig : Expression :=
  Send 20 here (Some (Send 21 here (Some (Self 22 here 0)) 5 [] None)) 6
       [Some (TreeRef 23 here None)] None.

Definition bad_call : Expression :=
  MethodDef 30 here 0 3 [Some (TreeRef 31 here None)] (Some (EmptyTree 32 here)) false.

Definition Bar : Expression :=
  ClassDef 1 here 0 (Some (EmptyTree 2 here)) [Some Opus_Command]
           [Some bad_sig; Some bad_call] Class.

(** What the rewriter leaves of [Foo] and of [Bar]. *)
Definition patched (klass : Expression) : Expression :=
  match patch 10 klass 50 with Done klass' _ => klass' | _ => klass end.

Definition after (klass : Expression) : addr :=
  match patch 10 klass 50 with Done _ n' => n' | _ => 50 end.

Lemma patchDSL_only_inserts_witness :
  with_body (patched Foo) (body Foo) = Foo ∧
  isCommand 1 2 (λ n, n + 100) 0 (patched Foo) = isCommand 1 2 (λ n, n + 100) 0 Foo ∧
  body Foo `sublist_of` body (patched Foo) ∧
  (length (body (patched Foo)) = length (body Foo) ∨
   length (body (patched Foo)) = length (body Foo) + 2).
Proof.
  apply (patchDSL_only_inserts References ∅ left_to_right 1 2 3 (λ n, n + 100) 0 99 Untyped_at
           10 Foo 50 (patched Foo) (after Foo)).
  reflexivity.
Defined.

Lemma Bar_acts : acts 1 2 3 (λ n, n + 100) 0 Bar 1 bad_call bad_sig.
Proof.
  split_and!; try reflexivity; [|lia].
  split_and!; try reflexivity. intros [|j] ?; [reflexivity|lia].
Qed.

(** C2 fails on [Bar]: the conditions of the pass hold and its copies
    return, and the body holds the null pointer where the claim has a copy
    of the signature, and the mirror method the null pointer where the
    claim has a copy of the argument. *)
Lemma patchDSL_copy_missing :
  acts 1 2 3 (λ n, n + 100) 0 Bar 1 bad_call bad_sig ∧
  copies_return References ∅ left_to_right 10 bad_call bad_sig ∧
  ∃ klass' n' selfCall,
    patch 10 Bar 50 = Done klass' n' ∧
    body klass' !! 0 = Some (Some bad_sig) ∧
    body klass' !! 1 = Some (Some bad_call) ∧
    body klass' !! 2 = Some None ∧
    body klass' !! 3 = Some (Some selfCall) ∧
    method_args selfCall = [None].
Proof.
  split; [exact Bar_acts|]. split.
  - split.
    + repeat constructor. eexists. split; [reflexivity|]. intros n. by eexists _, _.
    + intros n. by eexists _, _.
  - eexists _, _, _. split; [reflexivity|]. by split_and!.
Qed.

Lemma patchDSL_stores_null_witness :
  (blocked ∅ (address bad_sig) bad_sig → body (patched Bar) !! 2 = Some None) ∧
  (∀ j arg, method_args bad_call !! j = Some (Some arg) →
     blocked ∅ (address arg) arg →
     ∃ selfCall, body (patched Bar) !! 3 = Some (Some selfCall) ∧
                 method_args selfCall !! j = Some None).
Proof.
  apply (patchDSL_stores_null References ∅ left_to_right 1 2 3 (λ n, n + 100) 0 99 Untyped_at
           10 Bar 1 bad_call bad_sig 50 (patched Bar) (after Bar)).
  - exact Bar_acts.
  - reflexivity.
Defined.
End dsl.

(** ** Part 3: the LSP loop ([main/LSPLoop.cc]) *)

(** *** JSON values, as rapidjson holds them

    An accessor of rapidjson asserts what it needs (that the value is an
    object, that the member exists, that the value is a string): it is a
    partial function here, [None] where the assertion fails. *)
Module json.

#[warnings="-register-all"]
Inductive Value :=
| Null
| Bool (b : bool)
| Number (z : Z)
| String (s : string)
| Array (elems : list Value)
| Object (members : list (string * Value)).

Definition members_of (v : Value) : option (list (string * Value)) :=
  match v with Object ms => Some ms | _ => None end.

Definition elements (v : Value) : option (list Value) :=
  match v with Array l => Some l | _ => None end.

Definition IsArray (v : Value) : bool := match v with Array _ => true | _ => false end.
Definition IsObject (v : Value) : bool := match v with Object _ => true | _ => false end.

(** The first member of that name. *)
Fixpoint find (name : string) (ms : list (string * Value)) : option Value :=
  match ms with
  | [] => None
  | (k, v) :: ms => if bool_decide (k = name) then Some v else find name ms
  end.

(** [v.FindMember(name) != v.MemberEnd()], with the member found. *)
Definition FindMember (name : string) (v : Value) : option (option Value) :=
  ms ← members_of v; Some (find name ms).

(** [v[name]] *)
Definition member (name : string) (v : Value) : option Value :=
  ms ← members_of v; find name ms.

(** [v[name1][name2]...] *)
Definition members (names : list string) (v : Value) : option Value :=
  foldl (λ o name, o ≫= member name) (Some v) names.

(** [v[i]] *)
Definition at_index (i : nat) (v : Value) : option Value :=
  l ← elements v; l !! i.

(** [v.GetString()], with its length *)
Definition GetString (v : Value) : option string :=
  match v with String s => Some s | _ => None end.

(** [v.AddMember(name, value, alloc)]: appended, duplicates allowed. *)
Definition AddMember (name : string) (value : Value) (v : Value) : option Value :=
  ms ← members_of v; Some (Object (ms ++ [(name, value)])).

(** Removal in rapidjson moves the last member into the place of the
    removed one. *)
Fixpoint remove_first (name : string) (last : string * Value) (ms : list (string * Value))
  : list (string * Value) :=
  match ms with
  | [] => []
  | (k, v) :: ms =>
    if bool_decide (k = name) then
      match ms with [] => [] | _ => last :: removelast ms end
    else (k, v) :: remove_first name last ms
  end.

(** [v.RemoveMember(name)] *)
Definition RemoveMember (name : string) (v : Value) : option Value :=
  ms ← members_of v;
  match List.last (Some <$> ms) None with
  | Some l => Some (Object (remove_first name l ms))
  | None => Some (Object ms)
  end.

End json.

Module realmain.
Import json.

(** *** The method registry ([LSPLoop.h]) *)

(** Modelled from the spec: [LSPMethod] is declared in [LSPLoop.h], which
    is not among the sources; its fields are those of §4.4, in the order in
    which [getMethod] initialises them. *)
Inductive Kind := ClientInitiated | ServerInitiated | Both.

Record LSPMethod := mkMethod {
  name : string;
  isNotification : bool;
  kind : Kind;
  isSupported : bool;
}.

(** Modelled from the spec: [LSPMethod::operator==] is declared in
    [LSPLoop.h], which is not among the sources; §4.4 calls the name of a
    method canonical, and two methods are the same when their names are. *)
Definition same_method (a b : LSPMethod) : bool := bool_decide (name a = name b).

(** Modelled from the spec: the methods that the loop names are declared in
    [LSPLoop.h]; their names, and which of them are notifications, are those
    of §4.4 and §6. *)
Definition Initialize := mkMethod "initialize" false ClientInitiated true.
Definition Inititalized := mkMethod "initialized" true ClientInitiated true.
Definition Shutdown := mkMethod "shutdown" false ClientInitiated true.
Definition Exit := mkMethod "exit" true ClientInitiated true.
Definition TextDocumentDidChange := mkMethod "textDocument/didChange" true ClientInitiated true.
Definition DidChangeWatchedFiles :=
  mkMethod "workspace/didChangeWatchedFiles" true ClientInitiated true.
Definition TextDocumentDocumentSymbol :=
  mkMethod "textDocument/documentSymbol" false ClientInitiated true.
Definition PushDiagnostics :=
  mkMethod "textDocument/publishDiagnostics" true ServerInitiated true.
Definition ReadFile := mkMethod "readFile" false ServerInitiated true.

Definition named : list LSPMethod :=
  [Initialize; Inititalized; Shutdown; Exit; TextDocumentDidChange; DidChangeWatchedFiles;
   TextDocumentDocumentSymbol; PushDiagnostics; ReadFile].

(** Modelled from the spec: [LSPErrorCodes::MethodNotFound] is declared in
    [LSPLoop.h]; §6 gives its value. *)
Definition MethodNotFound : Z := (-32601)%Z.

(** [core::File] *)
Inductive SourceType := Normal | Payload | TombStone.

Record File := mkFile { path : string; contents : string; source_type : SourceType }.

(** The two closures that the loop hands to [sendRequest]: the one that
    applies the edits a [readFile] reply brings, and the empty one. *)
Inductive Callback := ApplyEdits | Nothing.

Record ResponseHandler := mkHandler { onResult : Callback; onError : Callback }.

(** What the loop does that the outside sees: a document written by
    [sendRaw], with the function that built it, and the call of a callback
    registered under a request id. *)
Inductive Sender := ByRequest | ByNotification | ByResult | ByError.

Inductive Event :=
| Wrote (by_ : Sender) (doc : Value)
| Called (id : string) (callback : Callback) (arg : Value).

(** [startsWith(str, prefix)] *)
Definition startsWith (str prefix_ : string) : bool :=
  bool_decide (String.length prefix_ ≤ String.length str) &&
  bool_decide (String.substring 0 (String.length prefix_) str = prefix_).

Section Loop.

(** The state of the analysis ([initialGS], [finalGs], [indexed], the
    accumulated errors) and the passes that work on it are collaborators
    of the loop. *)
Variable Analysis : Type.
Variable runSlowPath : list File → Analysis → Analysis.
Variable reIndex : bool → Analysis → Analysis.

(** What [pushErrors] works out once the errors are drained: for each file
    of [updatedErrors] that exists, the parameters of its
    [publishDiagnostics] notification, or nothing where an assertion stops
    the process before the notification of this file is sent (of a
    rapidjson call, or of an access to a file or a state that is not
    there); and the state with [updatedErrors] cleared. *)
Variable diagnostics : string → Analysis → list (option Value) * Analysis.

(** The result of [textDocument/documentSymbol] for a URI, or nothing
    where the process stops on the way: in [uri2FileRef], on a URI that is
    the root itself, or on an access to [finalGs] when it is not set. *)
Variable documentSymbols : string → string → Analysis → option Value.

(** The table [ALL] of [LSPLoop.h]. *)
Variable ALL : list LSPMethod.

(** [ENFORCE] is a macro of [common/common.h]: whether a failed one stops
    the process is a parameter. *)
Variable enforce_aborts : bool.

(** [core::Loc] and [loc.position] on [finalGs], the 1-based line and column
    of the two ends of a location. *)
Variable Loc : Type.
Variable position : Loc → (Z * Z) * (Z * Z).

Record LSPLoop := mkLoop {
  rootUri : string;
  requestCounter : Z;
  awaitingResponse : gmap string ResponseHandler;
  analysis : Analysis;
  trace : list Event;
}.

Inductive result (A : Type) :=
| Ok (x : A) (st : LSPLoop)
| Abort (st : LSPLoop).
Global Arguments Ok {A} x st.
Global Arguments Abort {A} st.

(** A step of the loop: it returns with a new state, or the process stops
    on a failed assertion, in the state it had come to. *)
Definition L (A : Type) := LSPLoop → result A.

Definition lret {A} (x : A) : L A := λ st, Ok x st.

Definition lbind {A B} (m : L A) (k : A → L B) : L B :=
  λ st, match m st with Ok x st' => k x st' | Abort st' => Abort st' end.

Definition abort {A} : L A := λ st, Abort st.

(** The state in which a step ends. *)
Definition final {A} (r : result A) : LSPLoop :=
  match r with Ok _ st => st | Abort st => st end.

(** The value of an accessor, or the stop on its assertion. *)
Definition assert {A} (o : option A) : L A :=
  match o with Some x => lret x | None => abort end.

Declare Scope loop_scope.
Delimit Scope loop_scope with loop.
Notation "x <- m ;; k" := (lbind m (fun x => k))
  (at level 100, m at next level, right associativity) : loop_scope.
Notation "m ;;; k" := (lbind m (fun _ => k))
  (at level 100, right associativity) : loop_scope.
Local Open Scope loop_scope.

Definition ENFORCE (cond : bool) : L unit :=
  if enforce_aborts && negb cond then abort else lret tt.

Definition modify (f : LSPLoop → LSPLoop) : L unit := λ st, Ok tt (f st).

Definition get {A} (f : LSPLoop → A) : L A := λ st, Ok (f st) st.

Definition set_rootUri (u : string) (st : LSPLoop) : LSPLoop :=
  mkLoop u (requestCounter st) (awaitingResponse st) (analysis st) (trace st).
Definition set_requestCounter (c : Z) (st : LSPLoop) : LSPLoop :=
  mkLoop (rootUri st) c (awaitingResponse st) (analysis st) (trace st).
Definition set_awaitingResponse (m : gmap string ResponseHandler) (st : LSPLoop) : LSPLoop :=
  mkLoop (rootUri st) (requestCounter st) m (analysis st) (trace st).
Definition set_analysis (a : Analysis) (st : LSPLoop) : LSPLoop :=
  mkLoop (rootUri st) (requestCounter st) (awaitingResponse st) a (trace st).
Definition log (e : Event) (st : LSPLoop) : LSPLoop :=
  mkLoop (rootUri st) (requestCounter st) (awaitingResponse st) (analysis st) (trace st ++ [e]).

(** [fmt::format("ruby-typer-req-{}", counter)] *)
Definition request_id (counter : Z) : string := "ruby-typer-req-" +:+ pretty counter.

(** [++requestCounter] *)
Definition next_counter : L Z :=
  λ st, let c := (requestCounter st + 1)%Z in Ok c (set_requestCounter c st).

(** [LSP::getMethod(name)] *)
Definition getMethod (name_ : string) : LSPMethod :=
  match List.find (λ candidate, bool_decide (name candidate = name_)) ALL with
  | Some candidate => candidate
  | None => mkMethod name_ true ClientInitiated false
  end.

Definition client_may_send (meth : LSPMethod) : bool :=
  match kind meth with ClientInitiated | Both => true | ServerInitiated => false end.

Definition server_may_send (meth : LSPMethod) : bool :=
  match kind meth with ServerInitiated | Both => true | ClientInitiated => false end.

(** [sendRaw(raw)]: the document goes to the output; [by_] records the
    function that built it. *)
Definition sendRaw (by_ : Sender) (raw : Value) : L unit := modify (log (Wrote by_ raw)).

Definition sendNotification (meth : LSPMethod) (data : Value) : L unit :=
  ENFORCE (isNotification meth);;;
  ENFORCE (server_may_send meth);;;
  (* [idStr] is formatted, and not used *)
  _ <- next_counter;;
  sendRaw ByNotification (Object [("method", String (name meth)); ("params", data)]).

Definition sendRequest (meth : LSPMethod) (data : Value) (onComplete onFail : Callback)
  : L unit :=
  ENFORCE (negb (isNotification meth));;;
  ENFORCE (server_may_send meth);;;
  c <- next_counter;;
  let idStr := request_id c in
  modify (λ st, set_awaitingResponse
                  (<[idStr := mkHandler onComplete onFail]> (awaitingResponse st)) st);;;
  sendRaw ByRequest
    (Object [("id", String idStr); ("method", String (name meth)); ("params", data)]).

(** [sendResult(forRequest, result)] *)
Definition sendResult (forRequest : Value) (result_ : Value) : L unit :=
  d <- assert (AddMember "result" result_ forRequest);;
  d <- assert (RemoveMember "method" d);;
  d <- assert (RemoveMember "params" d);;
  sendRaw ByResult d.

(** [sendError(forRequest, errorCode, errorStr)] *)
Definition sendError (forRequest : Value) (errorCode : Z) (errorStr : string) : L unit :=
  d <- assert (RemoveMember "method" forRequest);;
  d <- assert (RemoveMember "params" d);;
  let error := Object [("code", Number errorCode); ("message", String errorStr)] in
  d <- assert (AddMember "error" error d);;
  sendRaw ByError d.

(** The range of LSP for the positions of the two ends: every number one
    less. *)
Definition to_range (ends : (Z * Z) * (Z * Z)) : Value :=
  let '((first_line, first_column), (second_line, second_column)) := ends in
  Object [("start", Object [("line", Number (first_line - 1));
                            ("character", Number (first_column - 1))]);
          ("end", Object [("line", Number (second_line - 1));
                          ("character", Number (second_column - 1))])].

(** [loc2Range(loc)] *)
Definition loc2Range (loc : Loc) : Value := to_range (position loc).

(** [remoteName2Local(uri)]: the characters after the root and one more.
    A URI that is the root itself leaves a length below zero. *)
Definition remoteName2Local (root uri : string) : L string :=
  ENFORCE (startsWith uri root);;;
  if bool_decide (String.length uri ≤ String.length root) then abort
  else lret (String.substring (1 + String.length root)
                       (String.length uri - String.length root - 1) uri).

(** A pass on the state of the analysis. *)
Definition on_analysis (pass : Analysis → Analysis) : L unit :=
  modify (λ st, set_analysis (pass (analysis st)) st).

(** [tryFastPath(changedFiles)] *)
Definition tryFastPath (changedFiles : list File) : L unit :=
  on_analysis (runSlowPath changedFiles).

Fixpoint for_each {A} (f : A → L unit) (l : list A) : L unit :=
  match l with
  | [] => lret tt
  | x :: l => f x;;; for_each f l
  end.

Definition pushErrors : L unit :=
  root <- get rootUri;;
  a <- get analysis;;
  let '(params, a') := diagnostics root a in
  modify (set_analysis a');;;
  for_each (λ built, publishDiagnosticsParams <- assert built;;
                     sendNotification PushDiagnostics publishDiagnosticsParams) params.

(** The files of a list of edits [{uri, content}] that lie under the
    root. *)
Fixpoint edited_files (edits : list Value) : L (list File) :=
  match edits with
  | [] => lret []
  | change :: edits =>
    uri <- assert (member "uri" change ≫= GetString);;
    content <- assert (member "content" change ≫= GetString);;
    root <- get rootUri;;
    here <- (if startsWith uri root
             then local <- remoteName2Local root uri;; lret [mkFile local content Normal]
             else lret []);;
    rest <- edited_files edits;;
    lret (here ++ rest)
  end.

(** The call of a registered closure. *)
Definition call (callback : Callback) (arg : Value) : L unit :=
  match callback with
  | ApplyEdits =>
    ENFORCE (IsArray arg);;;
    edits <- assert (elements arg);;
    files <- edited_files edits;;
    tryFastPath files;;;
    pushErrors
  | Nothing => lret tt
  end.

(** The half of [handleReplies] for one of the members [result] and
    [error]: [which] picks the closure. *)
Definition reply (d : Value) (arg : Value) (which : ResponseHandler → Callback) : L unit :=
  id <- assert (FindMember "id" d);;
  match id with
  | Some id =>
    key <- assert (GetString id);;
    awaiting <- get awaitingResponse;;
    match awaiting !! key with
    | Some handler =>
      let func := which handler in
      modify (λ st, set_awaitingResponse (delete key (awaitingResponse st)) st);;;
      modify (log (Called key func arg));;;
      call func arg
    | None => lret tt
    end
  | None => lret tt
  end.

(** [handleReplies(d)] *)
Definition handleReplies (d : Value) : L bool :=
  result_ <- assert (FindMember "result" d);;
  match result_ with
  | Some arg => reply d arg onResult;;; lret true
  | None =>
    error <- assert (FindMember "error" d);;
    match error with
    | Some arg => reply d arg onError;;; lret true
    | None => lret false
    end
  end.

Definition when (cond : bool) (m : L unit) : L unit := if cond then m else lret tt.

Definition serverCap : Value :=
  Object [("capabilities",
           Object [("textDocumentSync", Number 1); ("documentSymbolProvider", Bool true)])].

(** The body of the loop of [runLSP] for a message that is no reply: the
    result tells whether the loop goes on. *)
Definition dispatch (d : Value) : L bool :=
  method_name <- assert (member "method" d ≫= GetString);;
  let method := getMethod method_name in
  ENFORCE (client_may_send method);;;
  if isNotification method then
    when (same_method method DidChangeWatchedFiles)
      (params <- assert (member "params" d);;
       sendRequest ReadFile params ApplyEdits Nothing);;;
    when (same_method method TextDocumentDidChange)
      (edits <- assert (member "params" d);;
       ENFORCE (IsObject edits);;;
       uri <- assert (members ["textDocument"; "uri"] edits ≫= GetString);;
       content <- assert (change ← (member "contentChanges" edits ≫= at_index 0);
                          member "text" change ≫= GetString);;
       root <- get rootUri;;
       when (startsWith uri root)
         (local <- remoteName2Local root uri;;
          tryFastPath [mkFile local content Normal];;;
          pushErrors));;;
    when (same_method method Inititalized)
      (on_analysis (reIndex true);;;
       on_analysis (runSlowPath []);;;
       pushErrors);;;
    if same_method method Exit then lret false else lret true
  else
    (* [Value result; int errorCode = 0; string errorString;] *)
    answer <-
      (if same_method method Initialize then
         root <- assert (members ["params"; "rootUri"] d ≫= GetString);;
         modify (set_rootUri root);;;
         lret (serverCap, 0%Z, "")
       else if same_method method Shutdown then
         lret (Null, 0%Z, "")
       else if same_method method TextDocumentDocumentSymbol then
         uri <- assert (members ["params"; "textDocument"; "uri"] d ≫= GetString);;
         root <- get rootUri;;
         a <- get analysis;;
         result_ <- assert (documentSymbols root uri a);;
         lret (result_, 0%Z, "")
       else
         ENFORCE (negb (isSupported method));;;
         lret (Null, MethodNotFound, "Unknown method: " +:+ name method));;
    let '(result_, errorCode, errorString) := answer in
    (if bool_decide (errorCode = 0%Z) then sendResult d result_
     else sendError d errorCode errorString);;;
    lret true.

(** [runLSP()], on the messages that arrive: [None] is a payload that does
    not parse.  The loop returns at the end of the input, on a payload
    that does not parse and on [exit]. *)
Fixpoint runLSP (input : list (option Value)) : L unit :=
  match input with
  | [] => lret tt
  | None :: _ => lret tt
  | Some d :: input =>
    replied <- handleReplies d;;
    if replied then runLSP input
    else
      continue <- dispatch d;;
      if continue then runLSP input else lret tt
  end.

(** *** What the claims speak of *)

(** The events that take a number from [requestCounter]. *)
Definition numbered (e : Event) : bool :=
  match e with
  | Wrote ByRequest _ | Wrote ByNotification _ => true
  | _ => false
  end.

Definition count_numbered (t : list Event) : Z := Z.of_nat (length (List.filter numbered t)).

(** The ids under which a callback was called. *)
Definition called_ids (t : list Event) : list string :=
  omap (λ e, match e with Called id _ _ => Some id | _ => None end) t.

(** The counter agrees with the trace: it started at [c0] and every
    request and notification written took the next number; a request holds
    the number it took in its id. *)
Definition numbered_from (c0 : Z) (st : LSPLoop) : Prop :=
  requestCounter st = (c0 + count_numbered (trace st))%Z ∧
  ∀ t1 doc t2, trace st = t1 ++ Wrote ByRequest doc :: t2 →
    member "id" doc = Some (String (request_id (c0 + count_numbered t1 + 1))).

(** No callback was called twice, what was called is no longer awaited,
    and every id called or awaited holds a number that the counter has
    passed. *)
Definition called_once (st : LSPLoop) : Prop :=
  NoDup (called_ids (trace st)) ∧
  (∀ key, key ∈ called_ids (trace st) → awaitingResponse st !! key = None) ∧
  (∀ key, key ∈ called_ids (trace st) ∨ is_Some (awaitingResponse st !! key) →
     ∃ k, key = request_id k ∧ (k ≤ requestCounter st)%Z).

(** A step keeps [I], also when it stops. *)
Definition keeps {A} (I : LSPLoop → Prop) (m : L A) : Prop :=
  ∀ st, I st → I (final (m st)).

(** The message is a reply: it has a member [result] or [error]. *)
Definition is_reply (d : Value) : Prop :=
  ∃ ms, d = Object ms ∧ (is_Some (find "result" ms) ∨ is_Some (find "error" ms)).

(** The id of the message, when it has one, is a string. *)
Definition id_is_string (d : Value) : Prop :=
  ∀ id, member "id" d = Some id → is_Some (GetString id).

(** The positions of a range, every number one more: the way back from
    [to_range]. *)
Definition from_range (range : Value) : option ((Z * Z) * (Z * Z)) :=
  match range with
  | Object [("start", Object [("line", Number l1); ("character", Number c1)]);
            ("end", Object [("line", Number l2); ("character", Number c2)])] =>
      Some ((l1 + 1, c1 + 1), (l2 + 1, c2 + 1))%Z
  | _ => None
  end.

(** Lines and columns counted from 1, as [core::Loc] has them, and from 0,
    as LSP has them. *)
Definition one_based (ends : (Z * Z) * (Z * Z)) : Prop :=
  (1 ≤ ends.1.1 ∧ 1 ≤ ends.1.2 ∧ 1 ≤ ends.2.1 ∧ 1 ≤ ends.2.2)%Z.

Definition zero_based (range : Value) : Prop :=
  ∃ l1 c1 l2 c2,
    range = Object [("start", Object [("line", Number l1); ("character", Number c1)]);
                    ("end", Object [("line", Number l2); ("character", Number c2)])] ∧
    (0 ≤ l1 ∧ 0 ≤ c1 ∧ 0 ≤ l2 ∧ 0 ≤ c2)%Z.


(** *** URIs and files *)

Global Instance SourceType_eq_dec : EqDecision SourceType.
Proof. solve_decision. Defined.

(** [localName2Remote(uri)] *)
Definition localName2Remote (root uri : string) : L string :=
  ENFORCE (negb (startsWith uri root));;;
  lret (root +:+ "/" +:+ uri).

(** [core::FileRef()], the reference to no file: the files of a global
    state are counted from 1. *)
Definition no_file : ast.FileRef := 0.

(** The loop of [uri2FileRef], from the file [i] on: the first file that
    is no tombstone and has the path [needle]. *)
Fixpoint find_file (needle : string) (files : list File) (i : nat) : ast.FileRef :=
  match files with
  | [] => no_file
  | file :: files =>
    if bool_decide (source_type file = TombStone) then find_file needle files (S i)
    else if bool_decide (path file = needle) then i
    else find_file needle files (S i)
  end.

(** [uri2FileRef(uri)], on the files of [finalGs]: [files !! i] is the file
    of the reference [i], and [filesUsed()] the length of the table. *)
Definition uri2FileRef (files : list File) (root uri : string) : L ast.FileRef :=
  if negb (startsWith uri root) then lret no_file else
  needle <- remoteName2Local root uri;;
  lret (find_file needle (drop 1 files) 1).

(** [fileRef2Uri(file)]: [file.data(gs)] asserts that the file is there. *)
Definition fileRef2Uri (files : list File) (root : string) (file : ast.FileRef) : L string :=
  data <- assert (files !! file);;
  localName2Remote root (path data).

(** [loc2Location(loc)] *)
Definition loc2Location (files : list File) (root : string) (file : ast.FileRef) (loc : Loc)
  : L Value :=
  uri <- fileRef2Uri files root file;;
  lret (Object [("uri", String uri); ("range", loc2Range loc)]).

(** A file that is there and is no tombstone. *)
Definition live (files : list File) (i : ast.FileRef) (file : File) : Prop :=
  files !! i = Some file ∧ 1 ≤ i ∧ source_type file ≠ TombStone.

(** *** The two branches of the dispatch, and what they leave *)

(** The work of the loop for a notification. *)
Definition notified (d : Value) (method : LSPMethod) : L bool :=
  when (same_method method DidChangeWatchedFiles)
    (params <- assert (member "params" d);;
     sendRequest ReadFile params ApplyEdits Nothing);;;
  when (same_method method TextDocumentDidChange)
    (edits <- assert (member "params" d);;
     ENFORCE (IsObject edits);;;
     uri <- assert (members ["textDocument"; "uri"] edits ≫= GetString);;
     content <- assert (change ← (member "contentChanges" edits ≫= at_index 0);
                        member "text" change ≫= GetString);;
     root <- get rootUri;;
     when (startsWith uri root)
       (local <- remoteName2Local root uri;;
        tryFastPath [mkFile local content Normal];;;
        pushErrors));;;
  when (same_method method Inititalized)
    (on_analysis (reIndex true);;;
     on_analysis (runSlowPath []);;;
     pushErrors);;;
  if same_method method Exit then lret false else lret true.

(** [st'] is [st] with more requests and notifications of the server
    written, and the same root. *)
Definition only_sent (st st' : LSPLoop) : Prop :=
  rootUri st' = rootUri st ∧
  ∃ t, trace st' = trace st ++ t ∧ Forall (λ e, numbered e = true) t.

(** The work of the loop for a request: the answer, then the reply. *)
Definition requested (d : Value) (method : LSPMethod) : L bool :=
  answer <-
    (if same_method method Initialize then
       root <- assert (members ["params"; "rootUri"] d ≫= GetString);;
       modify (set_rootUri root);;;
       lret (serverCap, 0%Z, "")
     else if same_method method Shutdown then
       lret (Null, 0%Z, "")
     else if same_method method TextDocumentDocumentSymbol then
       uri <- assert (members ["params"; "textDocument"; "uri"] d ≫= GetString);;
       root <- get rootUri;;
       a <- get analysis;;
       result_ <- assert (documentSymbols root uri a);;
       lret (result_, 0%Z, "")
     else
       ENFORCE (negb (isSupported method));;;
       lret (Null, MethodNotFound, "Unknown method: " +:+ name method));;
  let '(result_, errorCode, errorString) := answer in
  (if bool_decide (errorCode = 0%Z) then sendResult d result_
   else sendError d errorCode errorString);;;
  lret true.

(** [st'] is [st] with one reply written; the root may be another. *)
Definition answered (st st' : LSPLoop) (by_ : Sender) (resp : Value) : Prop :=
  (by_ = ByResult ∨ by_ = ByError) ∧
  trace st' = trace st ++ [Wrote by_ resp] ∧
  requestCounter st' = requestCounter st ∧
  awaitingResponse st' = awaitingResponse st ∧
  analysis st' = analysis st.

(** What the members of the reply are, for a request whose members have
    distinct names and which is no reply itself. *)
Definition echoes (d resp : Value) : Prop :=
  ∀ ms, d = Object ms → NoDup ms.*1 → ¬ is_reply d →
    member "id" resp = member "id" d ∧
    member "method" resp = None ∧ member "params" resp = None ∧
    (is_Some (member "result" resp) ∨ is_Some (member "error" resp)).

(** The ids of the requests that the loop has written. *)
Definition sent_ids (t : list Event) : list string :=
  omap (λ e, match e with
             | Wrote ByRequest doc => member "id" doc ≫= GetString
             | _ => None
             end) t.

(** Every request written is awaited or was called, and nothing else is. *)
Definition accounted (st : LSPLoop) : Prop :=
  ∀ key, key ∈ sent_ids (trace st) ↔
         key ∈ called_ids (trace st) ∨ is_Some (awaitingResponse st !! key).

(** *** The messages on the input ([safeGetline] and the head of [runLSP])

    The input is the sequence of characters that the stream still holds:
    [sbumpc] takes the first one, and the end of the sequence is the end of
    the file.  The state bits of the stream are left out: the loop reads
    them nowhere, and [cin.read] on a stream at its end reads nothing
    whatever they are. *)

Definition bytes := list Ascii.ascii.

Definition LF : Ascii.ascii := Ascii.ascii_of_nat 10.
Definition CR : Ascii.ascii := Ascii.ascii_of_nat 13.
Definition NUL : Ascii.ascii := Ascii.ascii_of_nat 0.

(** The loop of [safeGetline], with the line [t] read so far: whether a
    line was read, the line, and the characters left. *)
Fixpoint safeGetline_loop (sb : bytes) (t : bytes) : bool * bytes * bytes :=
  match sb with
  | [] => (false, t, [])
  | c :: sb =>
    if bool_decide (c = LF) then (true, t, sb)
    else if bool_decide (c = CR) then
      (true, t, match sb with
                | c' :: sb' => if bool_decide (c' = LF) then sb' else sb
                | [] => sb
                end)
    else safeGetline_loop sb (t ++ [c])
  end.

(** [safeGetline(is, t)] *)
Definition safeGetline (sb : bytes) : bool * bytes * bytes := safeGetline_loop sb [].

(** [s.c_str()], read as a C string: the characters before the first
    null character. *)
Fixpoint c_str (s : bytes) : bytes :=
  match s with
  | [] => []
  | c :: s => if bool_decide (c = NUL) then [] else c :: c_str s
  end.

(** [sscanf(line, "Content-Length: %i", &length)] of the C library: the
    number that it stores, when it stores one. *)
Variable sscanf_Content_Length : bytes → option Z.

(** [d.Parse(text)] of rapidjson: the document, unless the text does not
    parse. *)
Variable Parse : bytes → option Value.

(** The loop that reads the header lines, with [length] as it stands: it
    ends on an empty line and at the end of the input.  Every line that
    is read takes a character from the input, so that the loop makes at
    most as many turns as the input has characters; [turns] bounds
    them. *)
Fixpoint headers (turns : nat) (sb : bytes) (length_ : Z) : Z * bytes :=
  match turns with
  | 0 => (length_, sb)
  | S turns =>
    let '(more, line, sb) := safeGetline sb in
    if more then
      if bool_decide (line = []) then (length_, sb)
      else headers turns sb (default length_ (sscanf_Content_Length (c_str line)))
    else (length_, sb)
  end.

(** The block [{ std::string line; while (safeGetline(cin, line)) ... }]
    after [int length = -1]. *)
Definition read_headers (sb : bytes) : Z * bytes := headers (S (length sb)) sb (-1).

(** [json.resize(length); cin.read(&json[0], length)]: the buffer keeps
    its first characters, grows by null characters, and the characters
    read, which are fewer than [length] at the end of the input, go to its
    front. *)
Definition read_body (length_ : nat) (sb json : bytes) : bytes * bytes :=
  let resized := take length_ (json ++ replicate length_ NUL) in
  let got := take length_ sb in
  (got ++ drop (length got) resized, drop length_ sb).

(** The payloads that the loop of [runLSP] reads, one for each turn, as
    [runLSP] takes them: the first that does not parse is the last.  The
    buffer [json] lives as long as the loop. *)
Fixpoint payloads (turns : nat) (sb json : bytes) : list (option Value) :=
  match turns with
  | 0 => []
  | S turns =>
    let '(length_, sb) := read_headers sb in
    if bool_decide (length_ < 0)%Z then []
    else
      let '(json, sb) := read_body (Z.to_nat length_) sb json in
      match Parse (c_str json) with
      | None => [None]
      | Some d => Some d :: payloads turns sb json
      end
  end.

(** [runLSP()] on the standard input. *)
Definition runLSP_on (stdin : bytes) : L unit :=
  runLSP (payloads (S (length stdin)) stdin []).

Definition of_string (s : string) : bytes := String.list_ascii_of_string s.

(** [fmt::format("Content-Length: {}\r\n\r\n{}", strbuf.GetLength(),
    strbuf.GetString())]: the characters that [sendRaw] writes for the text
    of a document.  The length is that of the buffer; the text is passed
    as a C string. *)
Definition outResult (text : bytes) : bytes :=
  of_string "Content-Length: " ++ of_string (pretty (length text)) ++ [CR; LF; CR; LF]
    ++ c_str text.

(** A line without the characters that end a line. *)
Definition one_line (line : bytes) : Prop := (LF ∉ line) ∧ (CR ∉ line).

(** A character that ends neither a line nor a C string. *)
Definition plain_char (c : Ascii.ascii) : Prop := c ≠ LF ∧ c ≠ CR ∧ c ≠ NUL.

(** The header line that [sendRaw] writes for a text of [n] characters. *)
Definition Content_Length (n : nat) : bytes :=
  of_string "Content-Length: " ++ of_string (pretty n).

(** The header lines [lines], each ended by a carriage return and a line
    feed. *)
Definition header_block (lines : list bytes) : bytes :=
  mjoin ((λ line, line ++ [CR; LF]) <$> lines).

(** [length] after the header lines, from [length_] before them: every
    line on which [sscanf] stores a number sets it. *)
Definition scanned (length_ : Z) (lines : list bytes) : Z :=
  foldl (λ len line, default len (sscanf_Content_Length (c_str line))) length_ lines.

(** A text that comes back from the output as it went. *)
Definition readable (text : bytes) : Prop :=
  sscanf_Content_Length (Content_Length (length text)) = Some (Z.of_nat (length text)) ∧
  NUL ∉ text.


(** *** The related information of a diagnostic (in [pushErrors])

    The sections of a [core::ComplexError] and their lines, with the
    fields that [pushErrors] reads; [loc.file] is a collaborator. *)
Record ErrorLine := mkErrorLine { line_loc : Loc; formattedMessage : string }.
Record ErrorSection := mkErrorSection { header : string; messages : list ErrorLine }.

Variable file_of : Loc → ast.FileRef.

(** [(int)x] *)
Definition to_int (x : Z) : Z := ((x + 2 ^ 31) `mod` 2 ^ 32 - 2 ^ 31)%Z.

(** [v.PushBack(value, alloc)] *)
Definition PushBack (value : Value) (v : Value) : option Value :=
  l ← elements v; Some (Array (l ++ [value])).

(** A loop whose body may stop on an assertion. *)
Fixpoint for_each_from {A B} (body : B → A → option B) (vars : B) (l : list A) : option B :=
  match l with
  | [] => Some vars
  | x :: l => vars ← body vars x; for_each_from body vars l
  end.

(** [formattedMessageFilePath]: [file.data(gs)] asserts that the file is
    there. *)
Definition formattedMessageFilePath (files : list File) (root : string) (errorLine : ErrorLine)
  : option string :=
  messageFile ← files !! file_of (line_loc errorLine);
  Some (if bool_decide (source_type messageFile = Payload)
        then path messageFile +:+ "#L" +:+ pretty (to_int (position (line_loc errorLine)).1.1)
        else root +:+ "/" +:+ path messageFile).

(** One turn of the loop over the messages of a section, on the three
    values [relatedInformation], [relatedInfo] and [location].  A value
    that is handed to [AddMember] or to [PushBack] is moved from, which
    leaves it null: [location] and [relatedInfo] are declared outside this
    loop. *)
Definition message_turn (files : list File) (root : string) (sectionHeader : string)
    (vars : Value * Value * Value) (errorLine : ErrorLine) : option (Value * Value * Value) :=
  let '(relatedInformation, relatedInfo, location) := vars in
  uri ← formattedMessageFilePath files root errorLine;
  location ← AddMember "uri" (String uri) location;
  location ← AddMember "range" (loc2Range (line_loc errorLine)) location;
  relatedInfo ← AddMember "location" location relatedInfo;
  let relatedInfoMessage :=
    if bool_decide (0 < String.length (formattedMessage errorLine))
    then formattedMessage errorLine else sectionHeader in
  relatedInfo ← AddMember "message" (String relatedInfoMessage) relatedInfo;
  relatedInformation ← PushBack relatedInfo relatedInformation;
  Some (relatedInformation, Null, Null).

(** One turn of the loop over the sections. *)
Definition section_turn (files : list File) (root : string)
    (relatedInformation : Value) (section : ErrorSection) : option Value :=
  vars ← for_each_from (message_turn files root (header section))
            (relatedInformation, Object [], Object []) (messages section);
  Some vars.1.1.

(** The value [relatedInformation] that the diagnostic of a complex
    error gets, on the files of [finalGs]. *)
Definition relatedInformation (files : list File) (root : string) (sections : list ErrorSection)
  : option Value :=
  for_each_from (section_turn files root) (Array []) sections.

(** The entry for one line, as the protocol has it. *)
Definition DiagnosticRelatedInformation (uri : string) (range : Value) (message : string)
  : Value :=
  Object [("location", Object [("uri", String uri); ("range", range)]);
          ("message", String message)].

(** The entry that a section of one message is to give. *)
Definition related (files : list File) (root : string) (section : ErrorSection)
  : list Value :=
  errorLine ← messages section;
  match formattedMessageFilePath files root errorLine with
  | Some uri =>
    [DiagnosticRelatedInformation uri (loc2Range (line_loc errorLine))
       (if bool_decide (formattedMessage errorLine = "")
        then header section else formattedMessage errorLine)]
  | None => []
  end.
(** *** Steps that keep an invariant *)

Section Keeps.

Variable I : LSPLoop → Prop.

Lemma keeps_lret {A} (x : A) : keeps I (lret x).
Proof. by intros st. Qed.

Lemma keeps_abort {A} : keeps I (@abort A).
Proof. by intros st. Qed.

Lemma keeps_assert {A} (o : option A) : keeps I (assert o).
Proof. destruct o; [apply keeps_lret|apply keeps_abort]. Qed.

Lemma keeps_ENFORCE cond : keeps I (ENFORCE cond).
Proof. unfold ENFORCE. destruct (_ && _); [apply keeps_abort|apply keeps_lret]. Qed.

Lemma keeps_get {A} (f : LSPLoop → A) : keeps I (get f).
Proof. by intros st. Qed.

Lemma keeps_modify f : (∀ st, I st → I (f st)) → keeps I (modify f).
Proof. intros Hf st. apply Hf. Qed.

Lemma keeps_lbind {A B} (m : L A) (k : A → L B) :
  keeps I m → (∀ x, keeps I (k x)) → keeps I (lbind m k).
Proof.
  intros Hm Hk st Hst. unfold lbind. specialize (Hm st Hst).
  destruct (m st) as [x st'|st']; [by apply Hk|done].
Qed.

Lemma keeps_when cond m : keeps I m → keeps I (when cond m).
Proof. intros. destruct cond; [done|apply keeps_lret]. Qed.

Lemma keeps_for_each {A} (f : A → L unit) l :
  (∀ x, keeps I (f x)) → keeps I (for_each f l).
Proof.
  intros Hf. induction l as [|x l IH]; simpl; [apply keeps_lret|].
  apply keeps_lbind; [apply Hf|done].
Qed.

Hypothesis I_analysis : ∀ a st, I st → I (set_analysis a st).
Hypothesis I_rootUri : ∀ u st, I st → I (set_rootUri u st).
Hypothesis I_written : ∀ doc st, I st → I (log (Wrote ByResult doc) st) ∧ I (log (Wrote ByError doc) st).
Hypothesis I_sendNotification : ∀ meth data, keeps I (sendNotification meth data).
Hypothesis I_sendRequest : ∀ meth data onComplete onFail,
  keeps I (sendRequest meth data onComplete onFail).
Hypothesis I_called : ∀ key handler which arg st,
  I st → awaitingResponse st !! key = Some handler →
  I (log (Called key (which handler) arg)
       (set_awaitingResponse (delete key (awaitingResponse st)) st)).

Ltac keep :=
  repeat match goal with
  | |- keeps _ (lret _) => apply keeps_lret
  | |- keeps _ abort => apply keeps_abort
  | |- keeps _ (assert _) => apply keeps_assert
  | |- keeps _ (ENFORCE _) => apply keeps_ENFORCE
  | |- keeps _ (get _) => apply keeps_get
  | |- keeps _ (when _ _) => apply keeps_when
  | |- keeps _ (lbind _ _) => apply keeps_lbind; [|intros ?]
  | |- keeps _ (sendNotification _ _) => apply I_sendNotification
  | |- keeps _ (sendRequest _ _ _ _) => apply I_sendRequest
  | |- keeps _ (on_analysis _) => apply keeps_modify; intros ?; apply I_analysis
  | |- keeps _ (modify _) =>
      apply keeps_modify; intros ?; first [apply I_analysis | apply I_rootUri]
  end.

Lemma keeps_remoteName2Local root uri : keeps I (remoteName2Local root uri).
Proof. unfold remoteName2Local. keep. case_bool_decide; keep. Qed.

Lemma keeps_tryFastPath files : keeps I (tryFastPath files).
Proof. unfold tryFastPath. keep. Qed.

Lemma keeps_pushErrors : keeps I pushErrors.
Proof.
  unfold pushErrors. keep. destruct (diagnostics _ _) as [params a']. keep.
  apply keeps_for_each. intros. keep.
Qed.

Lemma keeps_edited_files edits : keeps I (edited_files edits).
Proof.
  induction edits as [|change edits IH]; simpl; keep.
  - destruct (startsWith _ _); keep. apply keeps_remoteName2Local.
  - exact IH.
Qed.

Lemma keeps_call callback arg : keeps I (call callback arg).
Proof.
  destruct callback; simpl; keep.
  - apply keeps_edited_files.
  - apply keeps_tryFastPath.
  - apply keeps_pushErrors.
Qed.

Lemma keeps_reply d arg which : keeps I (reply d arg which).
Proof.
  unfold reply. apply keeps_lbind; [keep|intros [v|]; [|keep]].
  apply keeps_lbind; [keep|intros key].
  intros st Hst. unfold lbind at 1, get.
  destruct (awaitingResponse st !! key) as [handler|] eqn:Hkey; [|done].
  unfold lbind, modify. apply keeps_call. by apply I_called.
Qed.

Lemma keeps_handleReplies d : keeps I (handleReplies d).
Proof.
  unfold handleReplies. apply keeps_lbind; [keep|intros [arg|]].
  { keep. apply keeps_reply. }
  apply keeps_lbind; [keep|intros [arg|]]; keep. apply keeps_reply.
Qed.

Lemma keeps_sendResult d result_ : keeps I (sendResult d result_).
Proof. unfold sendResult, sendRaw. keep. apply keeps_modify. intros. by apply I_written. Qed.

Lemma keeps_sendError d code str : keeps I (sendError d code str).
Proof. unfold sendError, sendRaw. keep. apply keeps_modify. intros. by apply I_written. Qed.

Lemma keeps_dispatch d : keeps I (dispatch d).
Proof.
  unfold dispatch. apply keeps_lbind; [keep|intros method_name].
  apply keeps_lbind; [keep|intros _].
  destruct (isNotification _).
  - keep; try apply keeps_remoteName2Local; try apply keeps_tryFastPath;
      try apply keeps_pushErrors.
    destruct (same_method _ Exit); keep.
  - apply keeps_lbind.
    + repeat (destruct (same_method _ _); keep).
    + intros [[result_ errorCode] errorString]. keep.
      case_bool_decide; [apply keeps_sendResult|apply keeps_sendError].
Qed.

Lemma runLSP_cons d input :
  runLSP (Some d :: input) =
  lbind (handleReplies d) (λ replied,
    if replied then runLSP input
    else lbind (dispatch d) (λ continue, if continue then runLSP input else lret tt)).
Proof. done. Qed.

Lemma keeps_runLSP input : keeps I (runLSP input).
Proof.
  induction input as [|[d|] input IH]; [apply keeps_lret| |apply keeps_lret].
  rewrite runLSP_cons.
  apply keeps_lbind; [apply keeps_handleReplies|intros [|]; [exact IH|]].
  apply keeps_lbind; [apply keeps_dispatch|intros [|]; [exact IH|keep]].
Qed.

End Keeps.

(** *** The two invariants of the loop *)

Lemma app_singleton_split {A} (t t1 t2 : list A) (e x : A) :
  t ++ [e] = t1 ++ x :: t2 →
  (t2 = [] ∧ t1 = t ∧ x = e) ∨ (∃ t2', t2 = t2' ++ [e] ∧ t = t1 ++ x :: t2').
Proof.
  destruct t2 as [|e' t2' _] using rev_ind; intros H.
  - left. apply app_inj_2 in H as [-> [= ->]]; done.
  - right. exists t2'.
    change (t ++ [e] = t1 ++ (x :: t2') ++ [e']) in H. rewrite app_assoc in H.
    apply app_inj_2 in H as [-> [= ->]]; done.
Qed.

Lemma count_numbered_app t1 t2 :
  count_numbered (t1 ++ t2) = (count_numbered t1 + count_numbered t2)%Z.
Proof. unfold count_numbered. rewrite List.filter_app, length_app. lia. Qed.

Lemma count_numbered_cons e t :
  count_numbered (e :: t) = ((if numbered e then 1 else 0) + count_numbered t)%Z.
Proof. unfold count_numbered. simpl. destruct (numbered e); simpl; lia. Qed.

Lemma count_numbered_nonneg t : (0 ≤ count_numbered t)%Z.
Proof. unfold count_numbered. lia. Qed.

Lemma called_ids_app t1 t2 : called_ids (t1 ++ t2) = called_ids t1 ++ called_ids t2.
Proof. apply omap_app. Qed.

Lemma ENFORCE_cases cond st : ENFORCE cond st = Ok () st ∨ ENFORCE cond st = Abort st.
Proof. unfold ENFORCE. destruct (_ && _); auto. Qed.

(** What [sendNotification] and [sendRequest] do to the state. *)
Lemma sendNotification_final meth data st :
  final (sendNotification meth data st) = st ∨
  final (sendNotification meth data st) =
    log (Wrote ByNotification (Object [("method", String (name meth)); ("params", data)]))
        (set_requestCounter (requestCounter st + 1) st).
Proof.
  unfold sendNotification, lbind.
  destruct (ENFORCE_cases (isNotification meth) st) as [-> | ->]; [|by left].
  destruct (ENFORCE_cases (server_may_send meth) st) as [-> | ->]; [|by left].
  by right.
Qed.

Lemma sendRequest_final meth data onComplete onFail st :
  final (sendRequest meth data onComplete onFail st) = st ∨
  final (sendRequest meth data onComplete onFail st) =
    log (Wrote ByRequest
           (Object [("id", String (request_id (requestCounter st + 1)));
                    ("method", String (name meth)); ("params", data)]))
        (set_awaitingResponse
           (<[request_id (requestCounter st + 1) := mkHandler onComplete onFail]>
              (awaitingResponse st))
           (set_requestCounter (requestCounter st + 1) st)).
Proof.
  unfold sendRequest, lbind.
  destruct (ENFORCE_cases (negb (isNotification meth)) st) as [-> | ->]; [|by left].
  destruct (ENFORCE_cases (server_may_send meth) st) as [-> | ->]; [|by left].
  by right.
Qed.

Lemma numbered_from_log c0 e st :
  numbered e = false → numbered_from c0 st → numbered_from c0 (log e st).
Proof.
  intros He [Hc Hid]. split; simpl.
  - rewrite count_numbered_app. unfold count_numbered at 2. simpl. rewrite He. simpl. lia.
  - intros t1 doc t2 [(_ & _ & <-)|(t2' & -> & Ht)]%app_singleton_split; [done|].
    by eapply Hid.
Qed.

Lemma numbered_from_runLSP c0 input : keeps (numbered_from c0) (runLSP input).
Proof.
  apply keeps_runLSP.
  - by intros a st [? ?].
  - by intros u st [? ?].
  - intros doc st H. split; by apply numbered_from_log.
  - intros meth data st [Hc Hid].
    destruct (sendNotification_final meth data st) as [-> | ->]; [done|].
    split; simpl.
    + rewrite count_numbered_app. unfold count_numbered at 2. simpl. lia.
    + intros t1 doc t2 [(_ & _ & ?)|(t2' & -> & Ht)]%app_singleton_split; [done|].
      by eapply Hid.
  - intros meth data onComplete onFail st [Hc Hid].
    destruct (sendRequest_final meth data onComplete onFail st) as [-> | ->]; [done|].
    split; simpl.
    + rewrite count_numbered_app. unfold count_numbered at 2. simpl. lia.
    + intros t1 doc t2 [(_ & -> & [= ->])|(t2' & -> & Ht)]%app_singleton_split.
      * simpl. rewrite Hc. repeat f_equal; lia.
      * by eapply Hid.
  - intros key handler which arg st H _. apply numbered_from_log; [done|].
    destruct H as [? ?]. by split.
Qed.

Lemma request_id_inj : Inj (=) (=) request_id.
Proof.
  intros k k' H. unfold request_id in H.
  apply (inj (String.append "ruby-typer-req-")) in H. by apply (inj pretty) in H.
Qed.

Lemma called_once_runLSP input : keeps called_once (runLSP input).
Proof.
  apply keeps_runLSP.
  - by intros a st (? & ? & ?).
  - by intros u st (? & ? & ?).
  - intros doc st (Hnd & Hgone & Hbound).
    split; (split_and!; simpl; rewrite ?called_ids_app, ?app_nil_r; done).
  - intros meth data st (Hnd & Hgone & Hbound).
    destruct (sendNotification_final meth data st) as [-> | ->]; [done|].
    split_and!; simpl; rewrite ?called_ids_app, ?app_nil_r; try done.
    intros key Hkey. destruct (Hbound key Hkey) as (k & -> & ?). exists k. split; [done|lia].
  - intros meth data onComplete onFail st (Hnd & Hgone & Hbound).
    destruct (sendRequest_final meth data onComplete onFail st) as [-> | ->]; [done|].
    split_and!; simpl; rewrite ?called_ids_app, ?app_nil_r; try done.
    + intros key Hkey. rewrite lookup_insert_ne; [by apply Hgone|].
      intros <-. destruct (Hbound _ (or_introl Hkey)) as (k & ?%request_id_inj & ?). lia.
    + intros key [Hkey|Hkey].
      * destruct (Hbound key (or_introl Hkey)) as (k & -> & ?). exists k. split; [done|lia].
      * destruct (decide (key = request_id (requestCounter st + 1))) as [->|Hne].
        -- eexists. split; [done|lia].
        -- rewrite lookup_insert_ne in Hkey by done.
           destruct (Hbound key (or_intror Hkey)) as (k & -> & ?). exists k. split; [done|lia].
  - intros key handler which arg st (Hnd & Hgone & Hbound) Hkey.
    split_and!; simpl; rewrite called_ids_app; simpl.
    + apply NoDup_app. split_and!; [done| |apply NoDup_singleton].
      intros x Hx ->%list_elem_of_singleton. specialize (Hgone _ Hx). congruence.
    + intros x [Hx| ->%list_elem_of_singleton]%elem_of_app.
      * destruct (decide (x = key)) as [->|?]; [apply lookup_delete_eq|].
        rewrite lookup_delete_ne by done. by apply Hgone.
      * apply lookup_delete_eq.
    + intros x [[Hx| ->%list_elem_of_singleton]%elem_of_app|Hx].
      * by apply Hbound; left.
      * apply Hbound. right. by rewrite Hkey.
      * apply Hbound. right.
        destruct (decide (x = key)) as [->|?]; [by rewrite Hkey|].
        by rewrite lookup_delete_ne in Hx.
Qed.

(** *** Facts on the reply handler and on the dispatch *)

Lemma reply_unfold ms arg which st :
  reply (Object ms) arg which st =
  match find "id" ms with
  | None => Ok () st
  | Some id =>
    match GetString id with
    | None => Abort st
    | Some key =>
      match awaitingResponse st !! key with
      | None => Ok () st
      | Some handler =>
          call (which handler) arg
            (log (Called key (which handler) arg)
                 (set_awaitingResponse (delete key (awaitingResponse st)) st))
      end
    end
  end.
Proof.
  unfold reply, lbind, FindMember. simpl.
  destruct (find "id" ms) as [id|]; [|done]. simpl.
  destruct (GetString id) as [key|]; [|done]. simpl.
  unfold get. by destruct (awaitingResponse st !! key).
Qed.

Lemma handleReplies_reply d :
  is_reply d →
  ∃ arg which,
    (member "result" d = Some arg ∧ which = onResult ∨
     member "result" d = None ∧ member "error" d = Some arg ∧ which = onError) ∧
    ∀ st, handleReplies d st = lbind (reply d arg which) (λ _, lret true) st.
Proof.
  intros (ms & -> & H). unfold handleReplies, member, FindMember. simpl.
  destruct (find "result" ms) as [arg|] eqn:Hres.
  - exists arg, onResult. split; [by left|done].
  - destruct H as [[? [=]]|[arg Herr]]. exists arg, onError. split; [by right|].
    intros st. unfold lbind at 1. simpl. unfold lbind at 1. simpl. by rewrite Herr.
Qed.

Lemma handleReplies_no_reply d st :
  IsObject d = true → ¬ is_reply d → handleReplies d st = Ok false st.
Proof.
  destruct d as [| | | | |ms]; try done. intros _ Hno.
  unfold handleReplies, lbind, FindMember. simpl.
  destruct (find "result" ms) as [arg|] eqn:Hres.
  { destruct Hno. exists ms. split; [done|]. left. by rewrite Hres. }
  simpl. destruct (find "error" ms) as [arg|] eqn:Herr; [|done].
  destruct Hno. exists ms. split; [done|]. right. by rewrite Herr.
Qed.

Lemma member_Object name_ d v : member name_ d = Some v → IsObject d = true.
Proof. by destruct d. Qed.

Lemma getMethod_unknown method_name :
  method_name ∉ name <$> ALL →
  getMethod method_name = mkMethod method_name true ClientInitiated false.
Proof.
  intros Hno. unfold getMethod.
  destruct (List.find _ ALL) as [candidate|] eqn:Hfind; [|done].
  apply find_some in Hfind as [Hin Hname%bool_decide_eq_true].
  destruct Hno. rewrite <- Hname. apply list_elem_of_fmap. exists candidate.
  split; [done|]. by apply list_elem_of_In.
Qed.

Lemma getMethod_name method_name : name (getMethod method_name) = method_name.
Proof.
  unfold getMethod. destruct (List.find _ ALL) as [candidate|] eqn:Hfind; [|done].
  by apply find_some in Hfind as [_ Hname%bool_decide_eq_true].
Qed.

Lemma RemoveMember_Object name_ ms : ∃ ms', RemoveMember name_ (Object ms) = Some (Object ms').
Proof. unfold RemoveMember. simpl. destruct (List.last _ _); by eexists. Qed.

(** *** The claims on the loop *)

(** C7, as the code has it: every request that the server sends carries
    the id [ruby-typer-req-<counter>], where the counter is its value at
    the start of the run plus the number of requests and notifications
    written so far, this request counted: [sendNotification] takes a number
    too.  The numbers of successive requests increase strictly, and all lie
    above the value at the start. *)
Theorem request_ids_numbered input st :
  trace st = [] →
  ∀ t1 doc t2, trace (final (runLSP input st)) = t1 ++ Wrote ByRequest doc :: t2 →
    member "id" doc
      = Some (String (request_id (requestCounter st + 1 + count_numbered t1))) ∧
    (requestCounter st < requestCounter st + 1 + count_numbered t1)%Z ∧
    ∀ t3 doc' t4, t2 = t3 ++ Wrote ByRequest doc' :: t4 →
      ∃ k', (requestCounter st + 1 + count_numbered t1 < k')%Z ∧
            member "id" doc' = Some (String (request_id k')).
Proof.
  intros Hempty.
  assert (Hstart : numbered_from (requestCounter st) st).
  { split; rewrite Hempty; [unfold count_numbered; simpl; lia|]. by intros [|??] ??. }
  destruct (numbered_from_runLSP _ input st Hstart) as [_ Hid].
  intros t1 doc t2 Ht. split_and!.
  - rewrite (Hid _ _ _ Ht). do 3 f_equal. lia.
  - pose proof (count_numbered_nonneg t1). lia.
  - intros t3 doc' t4 ->.
    exists (requestCounter st + count_numbered (t1 ++ Wrote ByRequest doc :: t3) + 1)%Z.
    split.
    + rewrite count_numbered_app, count_numbered_cons. simpl.
      pose proof (count_numbered_nonneg t3). lia.
    + eapply Hid. rewrite Ht. by rewrite <- app_assoc.
Qed.

(** At the start of a run nothing is awaited and nothing was called. *)
Lemma called_once_start st :
  awaitingResponse st = ∅ → trace st = [] → called_once st.
Proof.
  intros Hmap Htrace. unfold called_once. rewrite Hmap, Htrace. simpl. split_and!.
  - apply NoDup_nil_2.
  - by intros key ?%elem_of_nil.
  - intros key [?%elem_of_nil|[h Hh]]; [done|]. by rewrite lookup_empty in Hh.
Qed.

(** C10, as the code has it: a message with a member [result] or [error]
    goes to the reply handler, which can only return true, and never to
    the dispatch.  Without an id, or with an id that is a string and that
    no entry awaits, nothing happens: the state is as it was and the loop
    goes on.  With an id that is not a string, a number for one, the
    assertion of [GetString] stops the process: the message is not dropped
    and the loop does not go on.  When an entry awaits the id, the callback
    runs in a state from which the entry is erased, and over any run from a
    state in which no callback was called twice none is called twice. *)
Theorem replies_are_consumed d st input :
  is_reply d → called_once st →
  (∀ b st', handleReplies d st = Ok b st' → b = true) ∧
  runLSP (Some d :: input) st = lbind (handleReplies d) (λ _, runLSP input) st ∧
  (member "id" d = None ∨
   (∃ key, member "id" d = Some (String key) ∧ awaitingResponse st !! key = None) →
   handleReplies d st = Ok true st ∧ runLSP (Some d :: input) st = runLSP input st) ∧
  (∀ id, member "id" d = Some id → GetString id = None →
     handleReplies d st = Abort st ∧ runLSP (Some d :: input) st = Abort st) ∧
  (∀ key handler,
     member "id" d = Some (String key) → awaitingResponse st !! key = Some handler →
     ∃ callback arg,
       (member "result" d = Some arg ∧ callback = onResult handler ∨
        member "result" d = None ∧ member "error" d = Some arg ∧ callback = onError handler) ∧
       handleReplies d st =
         lbind (call callback arg) (λ _, lret true)
               (log (Called key callback arg)
                    (set_awaitingResponse (delete key (awaitingResponse st)) st))) ∧
  (∀ messages, NoDup (called_ids (trace (final (runLSP messages st))))).
Proof.
  intros Hreply Honce.
  destruct (handleReplies_reply d Hreply) as (arg & which & Hwhich & Hrun).
  assert (Htrue : ∀ b st', handleReplies d st = Ok b st' → b = true).
  { intros b st'. rewrite Hrun. unfold lbind.
    destruct (reply d arg which st); [by intros [= <- _]|done]. }
  destruct Hreply as (ms & -> & _).
  assert (Hloop : runLSP (Some (Object ms) :: input) st
                  = lbind (handleReplies (Object ms)) (λ _, runLSP input) st).
  { rewrite runLSP_cons. unfold lbind.
    destruct (handleReplies (Object ms) st) as [b st'|st'] eqn:H; [|done].
    by rewrite (Htrue b st' eq_refl). }
  split_and!.
  - exact Htrue.
  - exact Hloop.
  - intros Hid.
    assert (handleReplies (Object ms) st = Ok true st) as H.
    { rewrite Hrun. unfold lbind. rewrite reply_unfold. unfold member in Hid. simpl in Hid.
      destruct Hid as [-> |(key & -> & Hkey)]; [done|]. simpl. by rewrite Hkey. }
    split; [done|]. rewrite Hloop. unfold lbind. by rewrite H.
  - intros id Hid Hnot.
    assert (handleReplies (Object ms) st = Abort st) as H.
    { rewrite Hrun. unfold lbind. rewrite reply_unfold. unfold member in Hid. simpl in Hid.
      by rewrite Hid, Hnot. }
    split; [done|]. rewrite Hloop. unfold lbind. by rewrite H.
  - intros key handler Hid Hkey. exists (which handler), arg. split.
    + destruct Hwhich as [[? ->]|(? & ? & ->)]; auto.
    + rewrite Hrun. unfold lbind at 1. rewrite reply_unfold.
      unfold member in Hid. simpl in Hid. rewrite Hid. simpl. rewrite Hkey.
      unfold lbind. by destruct (call _ _ _).
  - intros messages. by destruct (called_once_runLSP messages st Honce).
Qed.

(** C4, as the code has it: a name that is not in the table is taken for
    a notification that is not supported: the message gets no reply at
    all, the state stays as it is, and the loop goes on.  The error
    [MethodNotFound] (-32601) answers a request of the table that is none
    of the three that the loop handles, when the two assertions on the way
    pass, which say that the client may send the method and that the method
    is marked as not supported, or when a failed [ENFORCE] does not stop
    the process: the reply ends with the member [error], the loop goes on.
    When a failed [ENFORCE] stops the process and one of the two assertions
    fails, such a request stops the loop, and nothing is written. *)
Theorem unknown_method_gets_no_reply d st method_name input :
  (∀ m, m ∈ named → name m ∈ name <$> ALL) →
  member "method" d = Some (String method_name) →
  ¬ is_reply d →
  (method_name ∉ name <$> ALL →
   dispatch d st = Ok true st ∧ runLSP (Some d :: input) st = runLSP input st) ∧
  (isNotification (getMethod method_name) = false →
   method_name ∉ [name Initialize; name Shutdown; name TextDocumentDocumentSymbol] →
   enforce_aborts = false ∨
     client_may_send (getMethod method_name) = true ∧
     isSupported (getMethod method_name) = false →
   ∃ ms,
     let answer :=
       Object (ms ++ [("error", Object [("code", Number MethodNotFound);
                                        ("message", String ("Unknown method: " +:+ method_name))])]) in
     dispatch d st = Ok true (log (Wrote ByError answer) st) ∧
     runLSP (Some d :: input) st = runLSP input (log (Wrote ByError answer) st)) ∧
  (isNotification (getMethod method_name) = false →
   method_name ∉ [name Initialize; name Shutdown; name TextDocumentDocumentSymbol] →
   enforce_aborts = true →
   client_may_send (getMethod method_name) = false ∨
     isSupported (getMethod method_name) = true →
   dispatch d st = Abort st ∧ runLSP (Some d :: input) st = Abort st).
Proof.
  intros Hnamed Hmethod Hno.
  pose proof (handleReplies_no_reply d st (member_Object _ _ _ Hmethod) Hno) as Hreplies.
  assert (Hloop : ∀ st', dispatch d st = Ok true st' →
                         runLSP (Some d :: input) st = runLSP input st').
  { intros st' H. rewrite runLSP_cons. unfold lbind. by rewrite Hreplies, H. }
  assert (Hother : ∀ m, method_name ∉ [name Initialize; name Shutdown;
                                       name TextDocumentDocumentSymbol] →
            name m ∈ [name Initialize; name Shutdown; name TextDocumentDocumentSymbol] →
            same_method (getMethod method_name) m = false).
  { intros m Hnot Hm. unfold same_method. rewrite getMethod_name.
    apply bool_decide_eq_false. by intros ->. }
  split_and!.
  - intros Hunknown.
    assert (dispatch d st = Ok true st) as H; [|by split; [|apply Hloop]].
    unfold dispatch. unfold lbind at 1. rewrite Hmethod. simpl.
    rewrite (getMethod_unknown _ Hunknown). simpl.
    assert (Hnone : ∀ m, m ∈ named →
              same_method (mkMethod method_name true ClientInitiated false) m = false).
    { intros m Hm. unfold same_method. simpl. apply bool_decide_eq_false.
      intros ->. by apply Hunknown, Hnamed. }
    rewrite !Hnone by (unfold named; rewrite !elem_of_cons; auto 12).
    unfold ENFORCE. simpl. by rewrite andb_false_r.
  - intros Hrequest Hnot Henforce.
    destruct d as [| | | | |ms]; try done.
    destruct (RemoveMember_Object "method" ms) as (ms1 & Hms1).
    destruct (RemoveMember_Object "params" ms1) as (ms2 & Hms2).
    exists ms2. simpl.
    assert (dispatch (Object ms) st
            = Ok true (log (Wrote ByError
                (Object (ms2 ++ [("error", Object [("code", Number MethodNotFound);
                   ("message", String ("Unknown method: " +:+ method_name))])]))) st)) as H;
      [|by split; [|apply Hloop]].
    unfold dispatch. unfold lbind at 1. rewrite Hmethod. simpl.
    assert (Hpass : ∀ cond, enforce_aborts = false ∨ cond = true → ENFORCE cond st = Ok () st).
    { intros cond [Hf| ->]; unfold ENFORCE; [by rewrite Hf|by rewrite andb_false_r]. }
    unfold lbind at 1. rewrite Hpass by (destruct Henforce as [?|[? _]]; auto).
    rewrite Hrequest.
    rewrite !Hother by (done || rewrite !elem_of_cons; auto).
    unfold lbind at 1. unfold lbind at 1.
    rewrite Hpass by (destruct Henforce as [?|[_ ->]]; auto).
    rewrite getMethod_name. simpl.
    unfold sendError, lbind. rewrite Hms1. simpl. rewrite Hms2. simpl. done.
  - intros Hrequest Hnot Henforce Hfails.
    assert (dispatch d st = Abort st) as H.
    { unfold dispatch. unfold lbind at 1. rewrite Hmethod. simpl.
      unfold lbind at 1. unfold ENFORCE at 1. rewrite Henforce.
      destruct (client_may_send (getMethod method_name)) eqn:Hmay; [|done]. simpl.
      destruct Hfails as [[=]|Hsupported].
      rewrite Hrequest.
      rewrite !Hother by (done || rewrite !elem_of_cons; auto).
      unfold lbind at 1. unfold lbind at 1. unfold ENFORCE. by rewrite Henforce, Hsupported. }
    split; [done|]. rewrite runLSP_cons. unfold lbind. by rewrite Hreplies, H.
Qed.

(** C9: [loc2Range] writes each of the four numbers of a location one
    less.  The conversion has an inverse, so it is one-to-one; it takes
    positions counted from 1 to ranges counted from 0, and every range
    counted from 0 comes from positions counted from 1. *)
Theorem loc2Range_bijection :
  (∀ loc,
     loc2Range loc =
       Object [("start", Object [("line", Number ((position loc).1.1 - 1));
                                 ("character", Number ((position loc).1.2 - 1))]);
               ("end", Object [("line", Number ((position loc).2.1 - 1));
                               ("character", Number ((position loc).2.2 - 1))])]) ∧
  (∀ ends, from_range (to_range ends) = Some ends) ∧
  (∀ ends ends', to_range ends = to_range ends' → ends = ends') ∧
  (∀ ends, one_based ends → zero_based (to_range ends)) ∧
  (∀ range, zero_based range →
     ∃ ends, one_based ends ∧ to_range ends = range ∧ from_range range = Some ends).
Proof.
  assert (Hinv : ∀ ends, from_range (to_range ends) = Some ends).
  { intros [[l1 c1] [l2 c2]]. simpl. repeat f_equal; lia. }
  split_and!.
  - intros loc. unfold loc2Range. by destruct (position loc) as [[? ?] [? ?]].
  - exact Hinv.
  - intros ends ends' H. apply (f_equal from_range) in H. rewrite !Hinv in H. by injection H.
  - intros [[l1 c1] [l2 c2]] (? & ? & ? & ?). simpl in *.
    eexists _, _, _, _. split; [done|]. lia.
  - intros range (l1 & c1 & l2 & c2 & -> & ? & ? & ? & ?).
    exists ((l1 + 1, c1 + 1), (l2 + 1, c2 + 1))%Z. split_and!.
    + unfold one_based. simpl. lia.
    + simpl. repeat f_equal; lia.
    + done.
Qed.


(** *** Names of files *)

Lemma substring_0_length s : String.substring 0 (String.length s) s = s.
Proof. induction s as [|c s IH]; simpl; [done|]. by rewrite IH. Qed.

Lemma substring_0_append p s : String.substring 0 (String.length p) (p +:+ s) = p.
Proof.
  induction p as [|c p IH]; simpl; [by destruct s|]. by rewrite IH.
Qed.

Lemma substring_skip_append p n m s :
  String.substring (String.length p + n) m (p +:+ s) = String.substring n m s.
Proof. induction p as [|c p IH]; simpl; [done|]. apply IH. Qed.

Lemma length_append p s : String.length (p +:+ s) = String.length p + String.length s.
Proof. induction p as [|c p IH]; simpl; [done|]. by rewrite IH. Qed.

Lemma substring_0_prefix p str :
  String.length p ≤ String.length str →
  String.substring 0 (String.length p) str = p → ∃ rest, str = p +:+ rest.
Proof.
  revert str. induction p as [|c p IH]; intros str Hlen H; simpl in *.
  - by exists str.
  - destruct str as [|c' str]; simpl in *; [lia|].
    injection H as -> H. destruct (IH str) as [rest ->]; [lia|done|]. by exists rest.
Qed.

Lemma startsWith_append prefix_ rest : startsWith (prefix_ +:+ rest) prefix_ = true.
Proof.
  unfold startsWith. rewrite andb_true_iff, !bool_decide_eq_true.
  split; [rewrite length_append; lia|apply substring_0_append].
Qed.

(** X7. [startsWith] tells whether the string begins with the prefix: it
    returns true exactly on the strings that are the prefix followed by
    some rest. *)
Theorem startsWith_spec str prefix_ :
  startsWith str prefix_ = true ↔ ∃ rest, str = prefix_ +:+ rest.
Proof.
  split; [|intros [rest ->]; apply startsWith_append].
  unfold startsWith. rewrite andb_true_iff, !bool_decide_eq_true.
  intros [Hlen H]. by apply substring_0_prefix.
Qed.

Lemma ENFORCE_true st : ENFORCE true st = Ok () st.
Proof. unfold ENFORCE. by rewrite andb_false_r. Qed.

(** [remoteName2Local] drops the root and the character that follows it,
    whatever that character is. *)
Lemma remoteName2Local_append root c rest st :
  remoteName2Local root (root +:+ String.String c rest) st = Ok rest st.
Proof.
  unfold remoteName2Local, lbind.
  rewrite startsWith_append. rewrite ENFORCE_true.
  rewrite length_append.
  rewrite bool_decide_eq_false_2 by (simpl; lia).
  replace (1 + String.length root) with (String.length root + 1) by lia.
  rewrite substring_skip_append.
  replace (String.length root + String.length (String.String c rest) - String.length root - 1)
    with (String.length rest) by (simpl; lia).
  simpl. by rewrite substring_0_length.
Qed.

Lemma find_file_spec needle files i :
  (find_file needle files i = no_file ∧
   ∀ j file, files !! j = Some file → source_type file = TombStone ∨ path file ≠ needle) ∨
  (∃ j file, find_file needle files i = i + j ∧ files !! j = Some file ∧
     source_type file ≠ TombStone ∧ path file = needle ∧
     ∀ k file', k < j → files !! k = Some file' →
       source_type file' = TombStone ∨ path file' ≠ needle).
Proof.
  revert i. induction files as [|file files IH]; intros i; simpl.
  { left. split; [done|]. by intros j file [=]. }
  assert (Hskip : source_type file = TombStone ∨ path file ≠ needle →
    (find_file needle files (S i) = no_file ∧
     ∀ j file0, (file :: files) !! j = Some file0 →
       source_type file0 = TombStone ∨ path file0 ≠ needle) ∨
    (∃ j file0, find_file needle files (S i) = i + j ∧ (file :: files) !! j = Some file0 ∧
       source_type file0 ≠ TombStone ∧ path file0 = needle ∧
       ∀ k file', k < j → (file :: files) !! k = Some file' →
         source_type file' = TombStone ∨ path file' ≠ needle)).
  { intros Hfile. destruct (IH (S i)) as [[-> Hno]|(j & file0 & -> & Hj & ? & ? & Hfirst)].
    - left. split; [done|]. intros [|j] file0; simpl; [by intros [= <-]|apply Hno].
    - right. exists (S j), file0. split_and!; [lia|done..|].
      intros [|k] file'; simpl; [by intros _ [= <-]|]. intros ?. apply Hfirst. lia. }
  case_bool_decide as Htomb; [apply Hskip; by left|].
  case_bool_decide as Hpath; [|apply Hskip; by right].
  right. exists 0, file. split_and!; [lia|done..|]. intros k file' ?. lia.
Qed.

(** X8. [remoteName2Local] on a URI under the root: it strips the root and
    exactly one more character, whatever that character is; on the root
    itself the length of the name falls below zero and the call fails. *)
Theorem remoteName2Local_strips root rest st :
  remoteName2Local root (root +:+ rest) st =
  match rest with
  | EmptyString => Abort st
  | String.String _ local => Ok local st
  end.
Proof.
  destruct rest as [|c local]; [|apply remoteName2Local_append].
  unfold remoteName2Local, lbind.
  rewrite startsWith_append. rewrite ENFORCE_true.
  rewrite length_append. simpl. by rewrite bool_decide_eq_true_2 by lia.
Qed.

(** X9. From a local name to its URI and back: when [localName2Remote]
    returns, the URI is the root, a slash and the name, and
    [remoteName2Local] gives the name back. *)
Theorem localName2Remote_inverse root local uri st st' :
  localName2Remote root local st = Ok uri st' →
  st' = st ∧ uri = root +:+ "/" +:+ local ∧ remoteName2Local root uri st = Ok local st.
Proof.
  unfold localName2Remote, lbind.
  destruct (ENFORCE_cases (negb (startsWith local root)) st) as [-> | ->]; [|done].
  intros [= <- <-]. split_and!; [done..|]. exact (remoteName2Local_append root _ local st).
Qed.

Lemma live_drop files j file :
  (drop 1 files) !! j = Some file → source_type file ≠ TombStone → live files (1 + j) file.
Proof. rewrite lookup_drop. intros ??. split_and!; [done|lia|done]. Qed.

Lemma uri2FileRef_append files root c local st :
  ∃ f, uri2FileRef files root (root +:+ String.String c local) st = Ok f st ∧
    ((f = no_file ∧ ∀ i file, live files i file → path file ≠ local) ∨
     (∃ file, live files f file ∧ path file = local ∧
        ∀ i file', live files i file' → path file' = local → f ≤ i)).
Proof.
  unfold uri2FileRef. rewrite startsWith_append. simpl.
  unfold lbind. rewrite remoteName2Local_append.
  destruct (find_file_spec local (drop 1 files) 1)
    as [[-> Hno]|(j & file & -> & Hj & Hlive & Hpath & Hfirst)].
  - exists no_file. split; [done|]. left. split; [done|].
    intros i file (Hi & ? & Hlive) Hpath.
    destruct (Hno (i - 1) file) as [?|?]; [|done..].
    rewrite lookup_drop. by replace (1 + (i - 1)) with i by lia.
  - exists (1 + j). split; [done|]. right. exists file.
    split_and!; [by apply live_drop|done|].
    intros i file' (Hi & ? & Hlive') Hpath'.
    destruct (decide (1 + j ≤ i)) as [|Hlt]; [done|].
    destruct (Hfirst (i - 1) file') as [?|?]; [lia| |done..].
    rewrite lookup_drop. by replace (1 + (i - 1)) with i by lia.
Qed.

(** X10. [uri2FileRef] finds the first file that is no tombstone and whose
    path is the URI without the root and the character after it; it
    returns the reference to no file when there is none, and for a URI
    that does not start with the root. *)
Theorem uri2FileRef_first files root uri st :
  (startsWith uri root = false → uri2FileRef files root uri st = Ok no_file st) ∧
  (∀ c local, uri = root +:+ String.String c local →
     ∃ f, uri2FileRef files root uri st = Ok f st ∧
       ((f = no_file ∧ ∀ i file, live files i file → path file ≠ local) ∨
        (∃ file, live files f file ∧ path file = local ∧
           ∀ i file', live files i file' → path file' = local → f ≤ i))).
Proof.
  split.
  - intros H. unfold uri2FileRef. by rewrite H.
  - intros c local ->. apply uri2FileRef_append.
Qed.

(** X11. From a file to its URI and back: for a file that is there and is no
    tombstone, and whose path passes the assertion of [localName2Remote],
    [fileRef2Uri] returns the root, a slash and the path, and
    [uri2FileRef] takes this URI to the first file with that path that is
    no tombstone: to the file itself when no file before it has its
    path. *)
Theorem fileRef2Uri_inverse files root f file st :
  live files f file →
  enforce_aborts = false ∨ startsWith (path file) root = false →
  fileRef2Uri files root f st = Ok (root +:+ "/" +:+ path file) st ∧
  ∃ g file',
    uri2FileRef files root (root +:+ "/" +:+ path file) st = Ok g st ∧
    live files g file' ∧ path file' = path file ∧ g ≤ f ∧
    ((∀ i file'', live files i file'' → path file'' = path file → f ≤ i) → g = f).
Proof.
  intros Hlive Hpass. pose proof Hlive as (Hf & ? & ?). split.
  - unfold fileRef2Uri, lbind. rewrite Hf. simpl. unfold localName2Remote, lbind.
    unfold ENFORCE. destruct Hpass as [-> | ->]; [done|]. by rewrite andb_false_r.
  - destruct (uri2FileRef_append files root
                (Ascii.Ascii true true true true false true false false) (path file) st)
      as (g & Hg & [[_ Hno]|(file' & Hlive' & Hpath & Hfirst)]).
    { by destruct (Hno f file Hlive). }
    exists g, file'. split_and!; [done..|by apply (Hfirst f file)|].
    intros Hfirst'. specialize (Hfirst f file Hlive eq_refl).
    specialize (Hfirst' g file' Hlive' Hpath). lia.
Qed.

(** *** The envelope of a reply *)

Lemma find_Some_elem_of name_ ms v : find name_ ms = Some v → (name_, v) ∈ ms.
Proof.
  induction ms as [|[k w] ms IH]; simpl; [done|].
  case_bool_decide as Hk; [intros [= ->]; subst; left|]. intros ?. right. by apply IH.
Qed.

Lemma find_None_not_elem_of name_ ms : find name_ ms = None ↔ name_ ∉ ms.*1.
Proof.
  induction ms as [|[k w] ms IH]; simpl; [split; [intros _; apply not_elem_of_nil|done]|].
  rewrite not_elem_of_cons. case_bool_decide as Hk.
  - split; [done|]. by intros [? _].
  - rewrite IH. split; [by split|by intros [_ ?]].
Qed.

Lemma elem_of_find name_ ms v : NoDup ms.*1 → (name_, v) ∈ ms → find name_ ms = Some v.
Proof.
  induction ms as [|[k w] ms IH]; simpl; [by intros _ ?%elem_of_nil|].
  rewrite NoDup_cons. intros [Hk Hnd] [[= -> ->]|Hin]%elem_of_cons.
  - by rewrite bool_decide_eq_true_2.
  - rewrite bool_decide_eq_false_2; [by apply IH|].
    intros ->. apply Hk. apply list_elem_of_fmap. by exists (name_, v).
Qed.

(** In an object whose members have distinct names, the member of a name
    does not depend on the order of the members. *)
Lemma find_Permutation name_ ms ms' : NoDup ms.*1 → ms ≡ₚ ms' → find name_ ms = find name_ ms'.
Proof.
  intros Hnd Hperm.
  assert (Hnd' : NoDup ms'.*1) by (by rewrite <- Hperm).
  destruct (find name_ ms) as [v|] eqn:Hv.
  - symmetry. apply elem_of_find; [done|]. rewrite <- Hperm. by apply find_Some_elem_of.
  - symmetry. apply find_None_not_elem_of. rewrite <- Hperm. by apply find_None_not_elem_of.
Qed.

Lemma removelast_last {A} (l : list A) x :
  List.last (Some <$> l) None = Some x → removelast l ++ [x] = l.
Proof.
  induction l as [|y l IH]; [done|]. destruct l as [|z l]; [by intros [= ->]|].
  intros H. change (y :: (removelast (z :: l) ++ [x]) = y :: z :: l). f_equal. by apply IH.
Qed.

(** What the removal of rapidjson leaves: the members without the first
    one of that name, in some order; the object as it was when it has no
    member of that name. *)
Lemma remove_first_spec name_ l ms :
  List.last (Some <$> ms) None = Some l →
  ((name_ ∉ ms.*1) ∧ remove_first name_ l ms = ms) ∨
  (∃ l1 v l2, ms = l1 ++ (name_, v) :: l2 ∧ (name_ ∉ l1.*1) ∧
              remove_first name_ l ms ≡ₚ l1 ++ l2).
Proof.
  induction ms as [|[k w] ms IH]; [done|]. intros Hlast. simpl.
  case_bool_decide as Hk.
  - subst k. right. exists [], w, ms. split_and!; [done|apply not_elem_of_nil|].
    simpl. destruct ms as [|m ms]; [done|].
    rewrite Permutation_cons_append. by rewrite (removelast_last (m :: ms) l).
  - destruct ms as [|m ms].
    { left. split; [|done]. simpl. rewrite not_elem_of_cons. split; [done|apply not_elem_of_nil]. }
    destruct (IH Hlast) as [[Hno ->]|(l1 & v & l2 & Heq & Hno & Hperm)].
    + left. split; [|done]. rewrite fmap_cons, not_elem_of_cons. by split.
    + right. exists ((k, w) :: l1), v, l2. rewrite Heq. split_and!; [done| |].
      * rewrite fmap_cons, not_elem_of_cons. by split.
      * rewrite <- Heq. simpl. by rewrite Hperm.
Qed.

Lemma RemoveMember_spec name_ ms :
  ∃ ms', RemoveMember name_ (Object ms) = Some (Object ms') ∧
    (((name_ ∉ ms.*1) ∧ ms' = ms) ∨
     (∃ l1 v l2, ms = l1 ++ (name_, v) :: l2 ∧ (name_ ∉ l1.*1) ∧ ms' ≡ₚ l1 ++ l2)).
Proof.
  unfold RemoveMember. simpl. destruct (List.last (Some <$> ms) None) as [l|] eqn:Hlast.
  - eexists. split; [done|]. by apply remove_first_spec.
  - exists ms. split; [done|]. left. split; [|done].
    destruct ms as [|m ms _] using rev_ind; [apply not_elem_of_nil|].
    rewrite fmap_app in Hlast. simpl in Hlast. by rewrite last_last in Hlast.
Qed.

(** Under distinct names, the removal takes the member of that name away
    and leaves the others. *)
Lemma RemoveMember_find name_ ms :
  NoDup ms.*1 →
  ∃ ms', RemoveMember name_ (Object ms) = Some (Object ms') ∧ NoDup ms'.*1 ∧
    find name_ ms' = None ∧ ∀ k, k ≠ name_ → find k ms' = find k ms.
Proof.
  intros Hnd. destruct (RemoveMember_spec name_ ms)
    as (ms' & Hrm & [[Hno ->]|(l1 & v & l2 & -> & Hno & Hperm)]).
  - exists ms. split_and!; [done|done|by apply find_None_not_elem_of|done].
  - exists ms'. rewrite fmap_app, fmap_cons in Hnd. simpl in Hnd.
    apply NoDup_app in Hnd as (Hnd1 & Hdisj & [Hnot Hnd2]%NoDup_cons).
    assert (Hnd' : NoDup (l1 ++ l2).*1).
    { rewrite fmap_app. apply NoDup_app. split_and!; [done| |done].
      intros x Hx Hx2. apply (Hdisj x Hx). by right. }
    split_and!; [done|by rewrite Hperm| |].
    + rewrite <- (find_Permutation name_ (l1 ++ l2) ms') by done.
      apply find_None_not_elem_of. rewrite fmap_app, not_elem_of_app. done.
    + intros k Hk. rewrite <- (find_Permutation k (l1 ++ l2) ms') by done.
      clear -Hk. induction l1 as [|[k' w] l1 IH]; simpl.
      * by rewrite bool_decide_eq_false_2 by done.
      * by rewrite IH.
Qed.

Lemma find_app name_ l1 l2 :
  find name_ (l1 ++ l2) = match find name_ l1 with Some v => Some v | None => find name_ l2 end.
Proof.
  induction l1 as [|[k w] l1 IH]; simpl; [done|]. by case_bool_decide.
Qed.

Lemma sendResult_envelope ms result_ st :
  NoDup ms.*1 → "result" ∉ ms.*1 →
  ∃ ms', sendResult (Object ms) result_ st = Ok () (log (Wrote ByResult (Object ms')) st) ∧
    find "result" ms' = Some result_ ∧ find "method" ms' = None ∧ find "params" ms' = None ∧
    ∀ k, k ≠ "method" → k ≠ "params" → k ≠ "result" → find k ms' = find k ms.
Proof.
  intros Hnd Hres.
  assert (Hnd0 : NoDup (ms ++ [("result", result_)]).*1).
  { rewrite fmap_app. apply NoDup_app. split_and!; [done| |apply NoDup_singleton].
    by intros x Hx ->%list_elem_of_singleton. }
  destruct (RemoveMember_find "method" _ Hnd0) as (ms1 & Hrm1 & Hnd1 & Hm1 & Hk1).
  destruct (RemoveMember_find "params" _ Hnd1) as (ms2 & Hrm2 & Hnd2 & Hp2 & Hk2).
  exists ms2. split_and!.
  - unfold sendResult, lbind. simpl. rewrite Hrm1. simpl. by rewrite Hrm2.
  - rewrite Hk2, Hk1 by done. rewrite find_app.
    apply find_None_not_elem_of in Hres. by rewrite Hres.
  - by rewrite Hk2.
  - done.
  - intros k ? ? ?. rewrite Hk2, Hk1 by done. rewrite find_app. simpl.
    rewrite bool_decide_eq_false_2 by done. by destruct (find k ms).
Qed.

Lemma sendError_envelope ms code str st :
  NoDup ms.*1 → "error" ∉ ms.*1 →
  ∃ ms', sendError (Object ms) code str st = Ok () (log (Wrote ByError (Object ms')) st) ∧
    find "error" ms' = Some (Object [("code", Number code); ("message", String str)]) ∧
    find "method" ms' = None ∧ find "params" ms' = None ∧
    ∀ k, k ≠ "method" → k ≠ "params" → k ≠ "error" → find k ms' = find k ms.
Proof.
  intros Hnd Herr.
  destruct (RemoveMember_find "method" _ Hnd) as (ms1 & Hrm1 & Hnd1 & Hm1 & Hk1).
  destruct (RemoveMember_find "params" _ Hnd1) as (ms2 & Hrm2 & Hnd2 & Hp2 & Hk2).
  eexists. split_and!.
  - unfold sendError, lbind. rewrite Hrm1. simpl. rewrite Hrm2. simpl. done.
  - rewrite find_app, Hk2, Hk1 by done.
    apply find_None_not_elem_of in Herr. by rewrite Herr.
  - rewrite find_app, Hk2, Hm1 by done. done.
  - rewrite find_app, Hp2. done.
  - intros k ? ? ?. rewrite find_app, Hk2, Hk1 by done. simpl.
    rewrite bool_decide_eq_false_2 by done. by destruct (find k ms).
Qed.


(** *** What the dispatch writes *)

(** Steps that keep [I], when the passes on the analysis and the two
    senders of requests and notifications do. *)
Ltac kept :=
  repeat match goal with
  | |- keeps _ (lret _) => apply keeps_lret
  | |- keeps _ abort => apply keeps_abort
  | |- keeps _ (assert _) => apply keeps_assert
  | |- keeps _ (ENFORCE _) => apply keeps_ENFORCE
  | |- keeps _ (get _) => apply keeps_get
  | |- keeps _ (when _ _) => apply keeps_when
  | |- keeps _ (lbind _ _) => apply keeps_lbind; [|intros ?]
  | |- keeps _ (remoteName2Local _ _) => apply keeps_remoteName2Local
  | |- keeps _ (tryFastPath _) => apply keeps_tryFastPath; assumption
  | |- keeps _ pushErrors => apply keeps_pushErrors; assumption
  | |- keeps _ (on_analysis _) =>
      apply keeps_modify; let st := fresh in intros st ?; auto
  | |- keeps _ (sendRequest _ _ _ _) => solve [auto]
  | |- keeps _ (sendNotification _ _) => solve [auto]
  end.

Lemma dispatch_notification d st method_name :
  member "method" d = Some (String method_name) →
  isNotification (getMethod method_name) = true →
  dispatch d st =
    lbind (ENFORCE (client_may_send (getMethod method_name)))
          (λ _, notified d (getMethod method_name)) st.
Proof.
  intros Hm Hn. unfold dispatch, notified, lbind. rewrite Hm. simpl.
  destruct (ENFORCE _ st); [|done]. by rewrite Hn.
Qed.

Lemma keeps_notified I d method :
  (∀ a st, I st → I (set_analysis a st)) →
  (∀ meth data, keeps I (sendNotification meth data)) →
  (∀ meth data onComplete onFail, keeps I (sendRequest meth data onComplete onFail)) →
  keeps I (notified d method).
Proof.
  intros Ha Hn Hr. unfold notified. kept. destruct (same_method method Exit); kept.
Qed.

Lemma only_sent_log st st' e :
  numbered e = true → only_sent st st' → only_sent st (log e st').
Proof.
  intros He (Hroot & t & Ht & Hall). split; [done|]. exists (t ++ [e]). simpl.
  rewrite Ht, <- app_assoc. split; [done|]. apply Forall_app. split; [done|]. by constructor.
Qed.

Lemma only_sent_sendNotification st meth data : keeps (only_sent st) (sendNotification meth data).
Proof.
  intros st' H. destruct (sendNotification_final meth data st') as [-> | ->]; [done|].
  apply only_sent_log; [done|]. destruct H as (? & t & ? & ?). split; [done|]. by exists t.
Qed.

Lemma only_sent_sendRequest st meth data onComplete onFail :
  keeps (only_sent st) (sendRequest meth data onComplete onFail).
Proof.
  intros st' H. destruct (sendRequest_final meth data onComplete onFail st') as [-> | ->]; [done|].
  apply only_sent_log; [done|]. destruct H as (? & t & ? & ?). split; [done|]. by exists t.
Qed.

(** X13. A notification is never answered.  Whatever the loop does for a
    message whose method is a notification, known or not, it writes no
    result and no error: all that it writes are requests and notifications
    of its own, and the root stays as it is, also when an assertion stops
    it on the way. *)
Theorem notification_not_answered d st method_name :
  member "method" d = Some (String method_name) →
  isNotification (getMethod method_name) = true →
  rootUri (final (dispatch d st)) = rootUri st ∧
  ∃ t, trace (final (dispatch d st)) = trace st ++ t ∧ Forall (λ e, numbered e = true) t.
Proof.
  intros Hm Hn. rewrite (dispatch_notification d st method_name Hm Hn).
  change (only_sent st (final (lbind (ENFORCE (client_may_send (getMethod method_name)))
                                     (λ _, notified d (getMethod method_name)) st))).
  apply keeps_lbind; [apply keeps_ENFORCE|intros _; apply keeps_notified|].
  - intros a st' (? & t & ? & ?). split; [done|]. by exists t.
  - intros. apply only_sent_sendNotification.
  - intros. apply only_sent_sendRequest.
  - split; [done|]. exists []. by rewrite app_nil_r.
Qed.

(** X14. [exit] ends the loop: a message that names the method [exit], taken
    for a notification, leaves the state as it is, writes nothing, and no
    message after it is read.  The loop returns, or stops on the assertion
    that the client may send the method. *)
Theorem exit_ends_the_loop d st input :
  member "method" d = Some (String "exit") → ¬ is_reply d →
  isNotification (getMethod "exit") = true →
  runLSP (Some d :: input) st =
    (if enforce_aborts && negb (client_may_send (getMethod "exit")) then Abort st else Ok () st).
Proof.
  intros Hm Hno Hn. rewrite runLSP_cons. unfold lbind at 1.
  rewrite (handleReplies_no_reply d st (member_Object _ _ _ Hm) Hno).
  unfold lbind at 1. rewrite (dispatch_notification d st "exit" Hm Hn).
  unfold lbind, ENFORCE. destruct (enforce_aborts && _); [done|]. simpl.
  unfold notified, same_method, lbind. rewrite !getMethod_name. simpl. done.
Qed.

Lemma dispatch_request d st method_name :
  member "method" d = Some (String method_name) →
  isNotification (getMethod method_name) = false →
  dispatch d st =
    lbind (ENFORCE (client_may_send (getMethod method_name)))
          (λ _, requested d (getMethod method_name)) st.
Proof.
  intros Hm Hn. unfold dispatch, requested, lbind. rewrite Hm. simpl.
  destruct (ENFORCE _ st); [|done]. by rewrite Hn.
Qed.

Lemma sendResult_Object ms result_ st :
  ∃ ms', sendResult (Object ms) result_ st = Ok () (log (Wrote ByResult (Object ms')) st) ∧
    (NoDup ms.*1 → "result" ∉ ms.*1 →
     find "id" ms' = find "id" ms ∧ find "method" ms' = None ∧ find "params" ms' = None ∧
     find "result" ms' = Some result_).
Proof.
  destruct (decide (NoDup ms.*1 ∧ "result" ∉ ms.*1)) as [[Hnd Hres]|Hno].
  - destruct (sendResult_envelope ms result_ st Hnd Hres) as (ms' & Hsend & Hr & Hm & Hp & Hk).
    exists ms'. split; [done|]. intros _ _. split_and!; [by apply Hk|done..].
  - destruct (RemoveMember_Object "method" (ms ++ [("result", result_)])) as (ms1 & Hms1).
    destruct (RemoveMember_Object "params" ms1) as (ms2 & Hms2).
    exists ms2. split; [|intros ??; by destruct Hno].
    unfold sendResult, lbind. simpl. rewrite Hms1. simpl. by rewrite Hms2.
Qed.

Lemma sendError_Object ms code str st :
  ∃ ms', sendError (Object ms) code str st = Ok () (log (Wrote ByError (Object ms')) st) ∧
    (NoDup ms.*1 → "error" ∉ ms.*1 →
     find "id" ms' = find "id" ms ∧ find "method" ms' = None ∧ find "params" ms' = None ∧
     find "error" ms' = Some (Object [("code", Number code); ("message", String str)])).
Proof.
  destruct (decide (NoDup ms.*1 ∧ "error" ∉ ms.*1)) as [[Hnd Herr]|Hno].
  - destruct (sendError_envelope ms code str st Hnd Herr) as (ms' & Hsend & Hr & Hm & Hp & Hk).
    exists ms'. split; [done|]. intros _ _. split_and!; [by apply Hk|done..].
  - destruct (RemoveMember_Object "method" ms) as (ms1 & Hms1).
    destruct (RemoveMember_Object "params" ms1) as (ms2 & Hms2).
    eexists. split; [|intros ??; by destruct Hno].
    unfold sendError, lbind. rewrite Hms1. simpl. rewrite Hms2. simpl. done.
Qed.

Lemma not_reply_find ms :
  ¬ is_reply (Object ms) → ("result" ∉ ms.*1) ∧ ("error" ∉ ms.*1).
Proof.
  intros Hno. split; apply find_None_not_elem_of.
  - destruct (find "result" ms) eqn:E; [|done]. destruct Hno. exists ms. split; [done|].
    left. by rewrite E.
  - destruct (find "error" ms) eqn:E; [|done]. destruct Hno. exists ms. split; [done|].
    right. by rewrite E.
Qed.

(** The reply to an answer that was computed in the state [st1]. *)
Lemma reply_answered ms st st1 result_ errorCode errorString :
  trace st1 = trace st → requestCounter st1 = requestCounter st →
  awaitingResponse st1 = awaitingResponse st → analysis st1 = analysis st →
  ∃ st' by_ resp,
    lbind (if bool_decide (errorCode = 0%Z) then sendResult (Object ms) result_
           else sendError (Object ms) errorCode errorString) (λ _, lret true) st1
      = Ok true st' ∧
    rootUri st' = rootUri st1 ∧
    answered st st' by_ resp ∧ echoes (Object ms) resp.
Proof.
  intros Ht Hc Ha Han. unfold lbind. case_bool_decide.
  - destruct (sendResult_Object ms result_ st1) as (ms' & -> & Hecho).
    eexists _, ByResult, (Object ms'). split; [done|]. split; [done|]. split.
    + split_and!; simpl; [by left|by rewrite Ht|done..].
    + intros ms0 [= <-] Hnd [Hres _]%not_reply_find.
      destruct (Hecho Hnd Hres) as (? & ? & ? & Hr). unfold member. simpl.
      split_and!; [done..|]. left. by rewrite Hr.
  - destruct (sendError_Object ms errorCode errorString st1) as (ms' & -> & Hecho).
    eexists _, ByError, (Object ms'). split; [done|]. split; [done|]. split.
    + split_and!; simpl; [by right|by rewrite Ht|done..].
    + intros ms0 [= <-] Hnd [_ Herr]%not_reply_find.
      destruct (Hecho Hnd Herr) as (? & ? & ? & Hr). unfold member. simpl.
      split_and!; [done..|]. right. by rewrite Hr.
Qed.

(** X15. A request is answered once.  When the loop comes to the end of its
    work for a message whose method is a request, it has written one
    document, a result or an error, and nothing else, and it goes on;
    counter, awaited replies and analysis are as they were.  When the
    members of the request have distinct names the reply carries the [id]
    of the request, and neither [method] nor [params].  When an assertion
    stops the loop on the way, nothing was written. *)
Theorem request_answered_once d st method_name :
  member "method" d = Some (String method_name) →
  isNotification (getMethod method_name) = false →
  match dispatch d st with
  | Ok continue st' =>
      continue = true ∧ ∃ by_ resp, answered st st' by_ resp ∧ echoes d resp
  | Abort st' => trace st' = trace st
  end.
Proof.
  intros Hm Hn. rewrite (dispatch_request d st method_name Hm Hn).
  destruct d as [| | | | |ms]; try done.
  unfold lbind at 1. destruct (ENFORCE_cases (client_may_send (getMethod method_name)) st)
    as [-> | ->]; [|done].
  unfold requested. unfold lbind at 1.
  set (send := λ answer : Value * Z * string,
         let '(result_, errorCode, errorString) := answer in
         lbind (if bool_decide (errorCode = 0%Z) then sendResult (Object ms) result_
                else sendError (Object ms) errorCode errorString) (λ _, lret true)).
  assert (Hsend : ∀ answer st1,
    trace st1 = trace st → requestCounter st1 = requestCounter st →
    awaitingResponse st1 = awaitingResponse st → analysis st1 = analysis st →
    match send answer st1 with
    | Ok continue st' =>
        continue = true ∧ ∃ by_ resp, answered st st' by_ resp ∧ echoes (Object ms) resp
    | Abort st' => trace st' = trace st
    end).
  { intros [[result_ errorCode] errorString] st1 Ht Hc Ha Han. unfold send.
    destruct (reply_answered ms st st1 result_ errorCode errorString Ht Hc Ha Han)
      as (st' & by_ & resp & -> & _ & ? & ?). split; [done|]. by exists by_, resp. }
  destruct (same_method _ Initialize).
  { unfold lbind at 1. destruct (members _ _ ≫= GetString) as [root|]; [|done].
    exact (Hsend (serverCap, 0%Z, "") (set_rootUri root st) eq_refl eq_refl eq_refl eq_refl). }
  destruct (same_method _ Shutdown).
  { exact (Hsend (Null, 0%Z, "") st eq_refl eq_refl eq_refl eq_refl). }
  destruct (same_method _ TextDocumentDocumentSymbol).
  { unfold lbind at 1. destruct (members _ _ ≫= GetString) as [uri|]; [|done].
    unfold lbind, get, assert, lret. cbv beta iota.
    destruct (documentSymbols (rootUri st) uri (analysis st)) as [result_|]; [|done].
    exact (Hsend (result_, 0%Z, "") st eq_refl eq_refl eq_refl eq_refl). }
  unfold lbind at 1. destruct (ENFORCE_cases (negb (isSupported (getMethod method_name))) st)
    as [-> | ->]; [|done].
  exact (Hsend (Null, MethodNotFound, "Unknown method: " +:+ name (getMethod method_name)) st
               eq_refl eq_refl eq_refl eq_refl).
Qed.

(** *** The replies that the loop awaits *)

Lemma sent_ids_app t1 t2 : sent_ids (t1 ++ t2) = sent_ids t1 ++ sent_ids t2.
Proof. apply omap_app. Qed.

Lemma accounted_runLSP input : keeps accounted (runLSP input).
Proof.
  apply keeps_runLSP.
  - by intros a st H.
  - by intros u st H.
  - intros doc st H. split; intros key; simpl;
      rewrite sent_ids_app, called_ids_app; simpl; rewrite !app_nil_r; apply H.
  - intros meth data st H.
    destruct (sendNotification_final meth data st) as [-> | ->]; [done|].
    intros key. simpl. rewrite sent_ids_app, called_ids_app. simpl. rewrite !app_nil_r. apply H.
  - intros meth data onComplete onFail st H.
    destruct (sendRequest_final meth data onComplete onFail st) as [-> | ->]; [done|].
    intros key. simpl. rewrite sent_ids_app, called_ids_app. simpl. rewrite app_nil_r.
    rewrite elem_of_app, list_elem_of_singleton, (H key).
    destruct (decide (key = request_id (requestCounter st + 1))) as [->|Hne].
    + rewrite lookup_insert_eq. split; [intros _; right; by eexists|by right].
    + rewrite lookup_insert_ne by done. split; [intros [?|?]; [done|by destruct Hne]|by left].
  - intros key handler which arg st H Hkey key'. simpl.
    rewrite sent_ids_app, called_ids_app. simpl. rewrite app_nil_r.
    rewrite elem_of_app, list_elem_of_singleton, (H key').
    destruct (decide (key' = key)) as [->|Hne].
    + rewrite lookup_delete_eq. split; [intros _; left; by right|].
      intros _. right. by rewrite Hkey.
    + rewrite lookup_delete_ne by done. split; [intros [?|?]; [left; by left|by right]|].
      intros [[?|?]|?]; [by left|done|by right].
Qed.

(** X16. The replies awaited are those of the requests that were written and
    not yet answered.  Over any run that starts with nothing awaited and
    nothing written, a handler is registered under an id exactly when a
    request with this id was written and no reply to it has been
    handled. *)
Theorem awaited_are_sent input st :
  awaitingResponse st = ∅ → trace st = [] →
  ∀ key,
    is_Some (awaitingResponse (final (runLSP input st)) !! key) ↔
    key ∈ sent_ids (trace (final (runLSP input st))) ∧
    key ∉ called_ids (trace (final (runLSP input st))).
Proof.
  intros Hmap Htrace key.
  assert (Hacc : accounted st).
  { intros k. rewrite Hmap, Htrace. simpl. rewrite lookup_empty. split.
    - by intros ?%elem_of_nil.
    - intros [?%elem_of_nil|[? [=]]]; done. }
  pose proof (accounted_runLSP input st Hacc key) as Hkey.
  destruct (called_once_runLSP input st (called_once_start st Hmap Htrace)) as (_ & Hgone & _).
  split.
  - intros Hsome. split; [apply Hkey; by right|].
    intros Hcalled. specialize (Hgone key Hcalled). rewrite Hgone in Hsome. by destruct Hsome.
  - intros [Hsent Hnot]. apply Hkey in Hsent as [?|?]; done.
Qed.

(** *** The root *)

Lemma same_root_sendNotification u meth data :
  keeps (λ st, rootUri st = u) (sendNotification meth data).
Proof.
  intros st H. by destruct (sendNotification_final meth data st) as [-> | ->].
Qed.

Lemma same_root_sendRequest u meth data onComplete onFail :
  keeps (λ st, rootUri st = u) (sendRequest meth data onComplete onFail).
Proof.
  intros st H. by destruct (sendRequest_final meth data onComplete onFail st) as [-> | ->].
Qed.

Lemma same_root_dispatch u d :
  member "method" d ≠ Some (String "initialize") →
  keeps (λ st, rootUri st = u) (dispatch d).
Proof.
  intros Hne st Hst.
  destruct (member "method" d ≫= GetString) as [method_name|] eqn:Hm; cycle 1.
  { unfold dispatch, lbind. by rewrite Hm. }
  assert (Hmember : member "method" d = Some (String method_name)).
  { destruct (member "method" d) as [[]|]; try done. simpl in Hm. by injection Hm as ->. }
  assert (Hname : method_name ≠ "initialize") by (intros ->; done).
  destruct (isNotification (getMethod method_name)) eqn:Hn.
  - rewrite (dispatch_notification d st method_name Hmember Hn).
    apply keeps_lbind; [apply keeps_ENFORCE|intros _; apply keeps_notified|done].
    + done.
    + intros. apply same_root_sendNotification.
    + intros. apply same_root_sendRequest.
  - rewrite (dispatch_request d st method_name Hmember Hn).
    apply keeps_lbind; [apply keeps_ENFORCE| |done]. intros _.
    unfold requested, same_method. rewrite getMethod_name. simpl.
    rewrite bool_decide_eq_false_2 by done.
    apply keeps_lbind.
    + repeat (case_bool_decide; kept).
    + intros [[result_ errorCode] errorString]. kept.
      case_bool_decide; [apply keeps_sendResult|apply keeps_sendError]; by intros.
Qed.

Lemma same_root_handleReplies u d : keeps (λ st, rootUri st = u) (handleReplies d).
Proof.
  apply keeps_handleReplies.
  - done.
  - intros. apply same_root_sendNotification.
  - done.
Qed.

(** X17. The root is set by [initialize] and by nothing else.  Over any
    messages of which none names the method [initialize], the root stays
    as it is.  A request [initialize] that the loop answers has set the
    root to the string [params.rootUri] and is answered with the
    capabilities of the server. *)
Theorem rootUri_only_initialize :
  (∀ input st,
     (∀ d, Some d ∈ input → member "method" d ≠ Some (String "initialize")) →
     rootUri (final (runLSP input st)) = rootUri st) ∧
  (∀ ms st st' continue,
     find "method" ms = Some (String "initialize") →
     isNotification (getMethod "initialize") = false →
     dispatch (Object ms) st = Ok continue st' →
     members ["params"; "rootUri"] (Object ms) = Some (String (rootUri st')) ∧
     ∃ resp, trace st' = trace st ++ [Wrote ByResult resp] ∧
       (NoDup ms.*1 → ¬ is_reply (Object ms) → member "result" resp = Some serverCap)).
Proof.
  split.
  - intros input st Hall. remember (rootUri st) as u eqn:Hu. symmetry in Hu.
    revert st Hu. induction input as [|[d|] input IH]; intros st Hu; [done| |done].
    rewrite runLSP_cons.
    assert (Hd : member "method" d ≠ Some (String "initialize")) by (apply Hall; left).
    assert (Hrest : keeps (λ st, rootUri st = u) (runLSP input)).
    { intros st1 Hst1. apply IH; [|done]. intros d' ?. apply Hall. by right. }
    revert st Hu. change (keeps (λ st, rootUri st = u)
      (lbind (handleReplies d) (λ replied,
         if replied then runLSP input
         else lbind (dispatch d) (λ continue, if continue then runLSP input else lret tt)))).
    apply keeps_lbind; [apply same_root_handleReplies|intros [|]; [done|]].
    apply keeps_lbind; [by apply same_root_dispatch|intros [|]; [done|apply keeps_lret]].
  - intros ms st st' continue Hm Hn H.
    rewrite (dispatch_request (Object ms) st "initialize" Hm Hn) in H.
    unfold lbind at 1 in H.
    destruct (ENFORCE_cases (client_may_send (getMethod "initialize")) st) as [E|E];
      rewrite E in H; [|done].
    unfold requested, same_method in H. rewrite getMethod_name in H. simpl in H.
    unfold lbind at 1 2 in H.
    destruct (members ["params"; "rootUri"] (Object ms)) as [[| | |u| |]|] eqn:Hroot; try done.
    simpl in H. unfold lbind, modify in H. simpl in H.
    destruct (sendResult_Object ms serverCap (set_rootUri u st)) as (ms' & Hsend & Hecho).
    unfold lbind in Hsend. rewrite Hsend in H. injection H as <- <-. simpl. split.
    + done.
    + exists (Object ms'). split; [done|].
      intros Hnd [Hres _]%not_reply_find. by destruct (Hecho Hnd Hres) as (_ & _ & _ & ?).
Qed.

(** X18. A change to a document outside the root is passed over.  For a
    [textDocument/didChange] whose URI does not start with the root, the
    loop leaves the state as it is and writes nothing: no file is handed
    to the analysis and no diagnostics are pushed.  The loop goes on, or
    stops on the assertion that the client may send the method. *)
Theorem didChange_outside_root d st edits uri content :
  member "method" d = Some (String "textDocument/didChange") →
  isNotification (getMethod "textDocument/didChange") = true →
  member "params" d = Some (Object edits) →
  members ["textDocument"; "uri"] (Object edits) ≫= GetString = Some uri →
  (change ← (member "contentChanges" (Object edits) ≫= at_index 0);
   member "text" change ≫= GetString) = Some content →
  startsWith uri (rootUri st) = false →
  dispatch d st =
    (if enforce_aborts && negb (client_may_send (getMethod "textDocument/didChange"))
     then Abort st else Ok true st).
Proof.
  intros Hm Hn Hparams Huri Hcontent Hout.
  rewrite (dispatch_notification d st _ Hm Hn).
  unfold lbind, ENFORCE. destruct (enforce_aborts && _); [done|]. simpl.
  unfold notified, same_method. rewrite !getMethod_name.
  rewrite Hparams. unfold lbind, ENFORCE. simpl. rewrite andb_false_r. simpl.
  simpl in Huri, Hcontent. rewrite Huri. simpl. rewrite Hcontent. simpl. by rewrite Hout.
Qed.

(** *** Lines and payloads *)

Lemma one_line_nil : one_line [].
Proof. split; apply not_elem_of_nil. Qed.

Lemma one_line_cons c line : c ≠ LF → c ≠ CR → one_line line → one_line (c :: line).
Proof. intros ?? [??]. split; rewrite not_elem_of_cons; by split. Qed.

Lemma one_line_cons_inv c line : one_line (c :: line) → c ≠ LF ∧ c ≠ CR ∧ one_line line.
Proof.
  intros [[??]%not_elem_of_cons [??]%not_elem_of_cons]. split_and!; try done; by intros <-.
Qed.

(** What [safeGetline] reads: the characters before the first end of
    line, which is a line feed, a carriage return with a line feed, or a
    carriage return alone; or all the characters, at the end of the
    input. *)
Lemma safeGetline_loop_spec sb t :
  ∃ line rest more, safeGetline_loop sb t = (more, t ++ line, rest) ∧ one_line line ∧
    if more then
      sb = line ++ LF :: rest ∨ sb = line ++ CR :: LF :: rest ∨
      (sb = line ++ CR :: rest ∧ head rest ≠ Some LF)
    else sb = line ∧ rest = [].
Proof.
  revert t. induction sb as [|c sb IH]; intros t; simpl.
  { exists [], [], false. rewrite app_nil_r. split_and!; [done|apply one_line_nil|done..]. }
  case_bool_decide as Hlf.
  { subst c. exists [], sb, true. rewrite app_nil_r.
    split_and!; [done|apply one_line_nil|by left]. }
  case_bool_decide as Hcr.
  { subst c. destruct sb as [|c' sb'].
    - exists [], [], true. rewrite app_nil_r.
      split_and!; [done|apply one_line_nil|]. right; right. by split.
    - case_bool_decide as Hlf'.
      + subst c'. exists [], sb', true. rewrite app_nil_r.
        split_and!; [done|apply one_line_nil|]. right; by left.
      + exists [], (c' :: sb'), true. rewrite app_nil_r.
        split_and!; [done|apply one_line_nil|]. right; right. split; [done|].
        simpl. by intros [= ->]. }
  destruct (IH (t ++ [c])) as (line & rest & more & -> & Hline & Hsb).
  exists (c :: line), rest, more. rewrite <- app_assoc. simpl.
  split_and!; [done|by apply one_line_cons|].
  destruct more.
  - destruct Hsb as [-> |[-> |[-> ?]]]; auto.
  - destruct Hsb as [-> ->]. done.
Qed.

Lemma safeGetline_shorter sb line rest :
  safeGetline sb = (true, line, rest) → length rest < length sb.
Proof.
  unfold safeGetline. destruct (safeGetline_loop_spec sb []) as (l & r & more & -> & _ & Hsb).
  intros [= -> <- <-]. destruct Hsb as [-> |[-> |[-> _]]]; rewrite length_app; simpl; lia.
Qed.

Lemma safeGetline_loop_line t line :
  one_line line →
  (∀ rest, safeGetline_loop (line ++ LF :: rest) t = (true, t ++ line, rest)) ∧
  (∀ rest, safeGetline_loop (line ++ CR :: LF :: rest) t = (true, t ++ line, rest)) ∧
  (∀ rest, head rest ≠ Some LF →
           safeGetline_loop (line ++ CR :: rest) t = (true, t ++ line, rest)) ∧
  safeGetline_loop line t = (false, t ++ line, []).
Proof.
  revert t. induction line as [|c line IH]; intros t Hline; simpl.
  - rewrite app_nil_r. split_and!; try done.
    intros [|c' rest] Hrest; [done|]. rewrite bool_decide_eq_false_2; [done|].
    intros ->. by apply Hrest.
  - apply one_line_cons_inv in Hline as (? & ? & Hline).
    rewrite !bool_decide_eq_false_2 by done.
    replace (t ++ c :: line) with ((t ++ [c]) ++ line) by (by rewrite <- app_assoc).
    by apply IH.
Qed.

(** X20. [safeGetline] reads one line.  A line that holds neither a line feed
    nor a carriage return is read back from the input whether it ends with
    a line feed, with a carriage return and a line feed, or with a carriage
    return alone, and the input goes on after the end of the line.  At the
    end of the input the characters left are in the line, and the result
    is false: the caller does not take them for a line.  Whatever the
    input, the line read holds no end of line, and the input is the line,
    one of the three ends of line, and the characters left. *)
Theorem safeGetline_reads_a_line :
  (∀ line, one_line line →
     (∀ rest, safeGetline (line ++ LF :: rest) = (true, line, rest)) ∧
     (∀ rest, safeGetline (line ++ CR :: LF :: rest) = (true, line, rest)) ∧
     (∀ rest, head rest ≠ Some LF → safeGetline (line ++ CR :: rest) = (true, line, rest)) ∧
     safeGetline line = (false, line, [])) ∧
  (∀ sb more line rest, safeGetline sb = (more, line, rest) →
     one_line line ∧
     if more then
       sb = line ++ LF :: rest ∨ sb = line ++ CR :: LF :: rest ∨
       (sb = line ++ CR :: rest ∧ head rest ≠ Some LF)
     else sb = line ∧ rest = []).
Proof.
  split.
  - intros line Hline. apply (safeGetline_loop_line [] line Hline).
  - intros sb more line rest. unfold safeGetline.
    destruct (safeGetline_loop_spec sb []) as (l & r & m & -> & Hl & Hsb).
    by intros [= <- <- <-].
Qed.

Lemma pretty_N_char_plain x : plain_char (pretty_N_char x).
Proof. unfold pretty_N_char. repeat case_match; by split_and!. Qed.

Lemma pretty_N_go_plain x s :
  Forall plain_char (of_string s) → Forall plain_char (of_string (pretty_N_go x s)).
Proof.
  revert s. induction (N.lt_wf_0 x) as [x _ IH]; intros s Hs.
  assert (x = 0 ∨ 0 < x)%N as [->|?] by lia; [by rewrite pretty_N_go_0|].
  rewrite pretty_N_go_step by done. apply IH; [by apply N.div_lt|].
  constructor; [apply pretty_N_char_plain|done].
Qed.

Lemma pretty_nat_plain (n : nat) : Forall plain_char (of_string (pretty n)).
Proof.
  unfold pretty, pretty_nat, pretty, pretty_N. case_decide.
  - by repeat constructor.
  - apply pretty_N_go_plain. constructor.
Qed.

Lemma plain_one_line line : Forall plain_char line → one_line line.
Proof.
  intros H. split; intros Hin; rewrite Forall_forall in H;
    destruct (H _ Hin) as (? & ? & ?); done.
Qed.

Lemma c_str_plain s : NUL ∉ s → c_str s = s.
Proof.
  induction s as [|c s IH]; [done|]. intros [??]%not_elem_of_cons. simpl.
  rewrite bool_decide_eq_false_2 by done. by rewrite IH.
Qed.

Lemma Content_Length_plain n : Forall plain_char (Content_Length n).
Proof.
  apply Forall_app. split; [|apply pretty_nat_plain].
  repeat constructor; done.
Qed.

Lemma headers_line turns line rest length_ :
  one_line line → line ≠ [] →
  headers (S turns) (line ++ CR :: LF :: rest) length_ =
  headers turns rest (default length_ (sscanf_Content_Length (c_str line))).
Proof.
  intros Hline Hne. simpl.
  destruct (safeGetline_loop_line [] line Hline) as (_ & H & _).
  unfold safeGetline. rewrite H. simpl. by rewrite bool_decide_eq_false_2.
Qed.

Lemma headers_block turns lines rest length_ :
  Forall (λ line, one_line line ∧ line ≠ []) lines → length lines < turns →
  headers turns (header_block lines ++ CR :: LF :: rest) length_ = (scanned length_ lines, rest).
Proof.
  revert turns length_. induction lines as [|line lines IH]; intros turns length_ Hall Hturns.
  - destruct turns as [|turns]; [simpl in Hturns; lia|]. done.
  - apply Forall_cons in Hall as [[Hline Hne] Hall].
    destruct turns as [|turns]; [simpl in Hturns; lia|].
    unfold header_block. rewrite fmap_cons. simpl mjoin.
    rewrite <- !app_assoc. simpl app at 2.
    rewrite headers_line by done. apply IH; [done|]. simpl in Hturns. lia.
Qed.

Lemma header_block_length lines : length lines ≤ length (header_block lines).
Proof.
  induction lines as [|line lines IH]; [done|].
  unfold header_block in *. rewrite fmap_cons. simpl mjoin.
  rewrite !length_app. simpl. lia.
Qed.

Lemma headers_block_read lines rest :
  Forall (λ line, one_line line ∧ line ≠ []) lines →
  read_headers (header_block lines ++ CR :: LF :: rest) = (scanned (-1) lines, rest).
Proof.
  intros Hall. unfold read_headers. apply headers_block; [done|].
  pose proof (header_block_length lines). rewrite length_app. simpl. lia.
Qed.

(** X21. The header block.  After header lines that are ended by a carriage
    return and a line feed and followed by an empty line, [length] is the
    number that [sscanf] stored for the last line on which it stored one,
    and -1 when there is no such line; the lines that do not match are
    passed over, and the input goes on after the empty line. *)
Theorem read_headers_block lines rest :
  Forall (λ line, one_line line ∧ line ≠ []) lines →
  read_headers (header_block lines ++ CR :: LF :: rest) = (scanned (-1) lines, rest).
Proof. apply headers_block_read. Qed.

Lemma header_block_one line rest :
  header_block [line] ++ CR :: LF :: rest = line ++ [CR; LF; CR; LF] ++ rest.
Proof. unfold header_block. simpl. by rewrite app_nil_r, <- app_assoc. Qed.

Lemma read_headers_Content_Length n rest :
  sscanf_Content_Length (Content_Length n) = Some (Z.of_nat n) →
  read_headers (Content_Length n ++ [CR; LF; CR; LF] ++ rest) = (Z.of_nat n, rest).
Proof.
  intros Hscan.
  pose proof (Content_Length_plain n) as Hplain.
  rewrite <- header_block_one. rewrite headers_block_read.
  - unfold scanned. cbn [foldl]. rewrite c_str_plain; [by rewrite Hscan|].
    intros Hin. rewrite Forall_forall in Hplain. by destruct (Hplain _ Hin) as (_ & _ & ?).
  - constructor; [|done]. split; [by apply plain_one_line|]. by destruct n.
Qed.

Lemma read_body_whole text rest json :
  read_body (length text) (text ++ rest) json = (text, rest).
Proof.
  unfold read_body. rewrite take_app_length, drop_app_length. f_equal.
  rewrite drop_ge; [by rewrite app_nil_r|]. rewrite length_take. lia.
Qed.

Lemma outResult_app text rest :
  NUL ∉ text →
  outResult text ++ rest = Content_Length (length text) ++ [CR; LF; CR; LF] ++ text ++ rest.
Proof. intros H. unfold outResult, Content_Length. by rewrite c_str_plain, <- !app_assoc. Qed.

(** The bounds on the turns are never reached. *)
Lemma headers_consumes turns sb length_ length' sb' :
  headers turns sb length_ = (length', sb') →
  length sb' ≤ length sb ∧ (length' ≠ length_ → length sb' < length sb).
Proof.
  revert sb length_. induction turns as [|turns IH]; intros sb length_; simpl.
  { intros [= <- <-]. split; [done|]. by intros []. }
  destruct (safeGetline sb) as [[more line] rest] eqn:Hline.
  destruct more.
  - pose proof (safeGetline_shorter _ _ _ Hline).
    case_bool_decide.
    + intros [= <- <-]. split; [lia|]. by intros [].
    + intros [? _]%IH. split; [lia|intros _; lia].
  - intros [= <- <-]. split; [|by intros []].
    unfold safeGetline in Hline.
    destruct (safeGetline_loop_spec sb []) as (l & r & m & Heq & _ & Hsb).
    rewrite Heq in Hline. injection Hline as -> _ ->. destruct Hsb as [_ ->]. simpl. lia.
Qed.

Lemma headers_turns turns turns' sb length_ :
  length sb < turns → length sb < turns' →
  headers turns sb length_ = headers turns' sb length_.
Proof.
  revert turns' sb length_. induction turns as [|turns IH]; intros [|turns'] sb length_ ??;
    [lia..|]. simpl.
  destruct (safeGetline sb) as [[more line] rest] eqn:Hline.
  destruct more; [|done]. pose proof (safeGetline_shorter _ _ _ Hline).
  case_bool_decide; [done|]. apply IH; lia.
Qed.

Lemma payloads_turns turns turns' sb json :
  length sb < turns → length sb < turns' →
  payloads turns sb json = payloads turns' sb json.
Proof.
  revert turns' sb json. induction turns as [|turns IH]; intros [|turns'] sb json ??;
    [lia..|]. simpl.
  destruct (read_headers sb) as [length_ sb'] eqn:Hheaders.
  apply headers_consumes in Hheaders as [? Hless].
  case_bool_decide; [done|]. unfold read_body.
  destruct (Parse _); [|done]. f_equal.
  assert (length sb' < length sb) by (apply Hless; lia).
  apply IH; rewrite length_drop; lia.
Qed.

Lemma payloads_S turns sb json :
  payloads (S turns) sb json =
  let '(length_, sb) := read_headers sb in
  if bool_decide (length_ < 0)%Z then []
  else
    let '(json, sb) := read_body (Z.to_nat length_) sb json in
    match Parse (c_str json) with
    | None => [None]
    | Some d => Some d :: payloads turns sb json
    end.
Proof. done. Qed.

(** One turn of the loop on the characters that [sendRaw] writes for a
    text parses this very text, and goes on with the input that follows
    and with the text in the buffer. *)
Lemma payloads_outResult text rest json turns :
  sscanf_Content_Length (Content_Length (length text)) = Some (Z.of_nat (length text)) →
  NUL ∉ text →
  payloads (S turns) (outResult text ++ rest) json =
    match Parse text with
    | Some d => Some d :: payloads turns rest text
    | None => [None]
    end.
Proof.
  intros Hscan Hnul. rewrite payloads_S, outResult_app by done.
  rewrite (read_headers_Content_Length (length text) (text ++ rest) Hscan).
  rewrite bool_decide_eq_false_2 by lia. rewrite Nat2Z.id, read_body_whole.
  by rewrite c_str_plain.
Qed.

Lemma payloads_end turns json : payloads turns [] json = [].
Proof. by destruct turns. Qed.

Lemma runLSP_ext d input input' st :
  (∀ st', runLSP input st' = runLSP input' st') →
  runLSP (Some d :: input) st = runLSP (Some d :: input') st.
Proof.
  intros H. rewrite !runLSP_cons. unfold lbind.
  destruct (handleReplies d st) as [[|] st1|]; [apply H| |done].
  destruct (dispatch d st1) as [[|] st2|]; [apply H|done..].
Qed.

Lemma runLSP_payloads texts json turns st :
  Forall readable texts → length texts ≤ turns →
  runLSP (payloads turns (mjoin (outResult <$> texts)) json) st = runLSP (Parse <$> texts) st.
Proof.
  revert json turns st. induction texts as [|text texts IH]; intros json turns st Hall Hturns.
  { simpl. by rewrite payloads_end. }
  apply Forall_cons in Hall as [[Hscan Hnul] Hall].
  destruct turns as [|turns]; [simpl in Hturns; lia|].
  rewrite fmap_cons.
  change (mjoin (outResult text :: (outResult <$> texts)))
    with (outResult text ++ mjoin (outResult <$> texts)).
  rewrite payloads_outResult by done.
  rewrite fmap_cons. destruct (Parse text) as [d|]; [|done].
  apply runLSP_ext. intros st'. apply IH; [done|]. simpl in Hturns. lia.
Qed.

Lemma outResult_length text : 0 < length (outResult text).
Proof. unfold outResult. rewrite length_app. simpl. lia. Qed.

Lemma frames_length texts : length texts ≤ length (mjoin (outResult <$> texts)).
Proof.
  induction texts as [|text texts IH]; [done|].
  rewrite fmap_cons.
  change (mjoin (outResult text :: (outResult <$> texts)))
    with (outResult text ++ mjoin (outResult <$> texts)).
  rewrite length_app.
  pose proof (outResult_length text). simpl. lia.
Qed.

(** X22. What [sendRaw] writes is read back.  On an input that is what
    [sendRaw] writes for a sequence of texts, one after the other, the loop
    works on the documents that these texts parse to, in this order, up to
    the first that does not parse: provided that [sscanf] reads the number
    of each header as it was written, and that no text holds a null
    character. *)
Theorem runLSP_on_frames texts st :
  Forall readable texts →
  runLSP_on (mjoin (outResult <$> texts)) st = runLSP (Parse <$> texts) st.
Proof.
  intros Hall. unfold runLSP_on. apply runLSP_payloads; [done|].
  pose proof (frames_length texts). lia.
Qed.

Lemma read_body_short (cut prev : bytes) :
  length cut ≤ length prev →
  read_body (length prev) cut prev = (cut ++ drop (length cut) prev, []).
Proof.
  intros Hle. unfold read_body.
  rewrite take_app_length, (take_ge cut), (drop_ge cut) by lia. done.
Qed.

(** X23. A payload that the end of the input cuts short is filled up from
    the payload before it.  The buffer of the loop keeps its characters
    from one turn to the next: when a header announces as many characters
    as the text before had, and the input ends after fewer, the loop
    parses what it has read followed by the rest of the text before.  An
    input that ends right after such a header makes the loop work on the
    document before a second time. *)
Theorem runLSP_on_cut_short text cut d st :
  readable text → Parse text = Some d → length cut ≤ length text → NUL ∉ cut →
  runLSP_on (outResult text ++ Content_Length (length text) ++ [CR; LF; CR; LF] ++ cut) st =
    runLSP [Some d; Parse (cut ++ drop (length cut) text)] st.
Proof.
  intros [Hscan Hnul] Hd Hle Hcut.
  unfold runLSP_on. rewrite length_app.
  pose proof (outResult_length text).
  destruct (length (outResult text)) as [|k]; [lia|]. simpl plus.
  rewrite payloads_outResult by done. rewrite Hd.
  apply runLSP_ext. intros st'. rewrite payloads_S.
  rewrite (read_headers_Content_Length (length text) cut Hscan).
  rewrite bool_decide_eq_false_2 by lia. rewrite Nat2Z.id, read_body_short by done.
  rewrite c_str_plain.
  - destruct (Parse (cut ++ _)) as [d'|]; [|done]. by rewrite payloads_end.
  - rewrite not_elem_of_app. split; [done|]. intros Hin. apply Hnul.
    by apply (subseteq_drop (length cut) text).
Qed.

(** *** The related information of a diagnostic *)

Lemma for_each_from_app {A B} (body : B → A → option B) vars (l1 l2 : list A) :
  for_each_from body vars (l1 ++ l2) =
  for_each_from body vars l1 ≫= λ vars, for_each_from body vars l2.
Proof.
  revert vars. induction l1 as [|x l1 IH]; intros vars; [done|]. simpl.
  destruct (body vars x) as [vars'|]; [apply IH|done].
Qed.

Lemma message_turn_moved files root sectionHeader relatedInformation errorLine :
  message_turn files root sectionHeader (relatedInformation, Null, Null) errorLine = None.
Proof. unfold message_turn. by destruct (formattedMessageFilePath _ _ _). Qed.

Lemma message_turn_Some files root sectionHeader vars errorLine vars' :
  message_turn files root sectionHeader vars errorLine = Some vars' →
  vars'.1.2 = Null ∧ vars'.2 = Null.
Proof.
  unfold message_turn. destruct vars as [[relatedInformation relatedInfo] location].
  intros H. repeat (apply bind_Some in H as (? & _ & H)). by injection H as <-.
Qed.

Lemma section_turn_two files root relatedInformation section :
  2 ≤ length (messages section) → section_turn files root relatedInformation section = None.
Proof.
  unfold section_turn. destruct (messages section) as [|line1 [|line2 lines]];
    [simpl; lia..|]. intros _. cbn [for_each_from].
  destruct (message_turn files root (header section) (relatedInformation, Object [], Object []) line1)
    as [[[v1 v2] v3]|] eqn:H1; [|done].
  apply message_turn_Some in H1 as [H2 H3]. cbn [fst snd] in *. subst.
  cbn [mbind option_bind]. by rewrite message_turn_moved.
Qed.

Lemma section_turn_one files root l section :
  length (messages section) ≤ 1 →
  (∀ errorLine, errorLine ∈ messages section →
     is_Some (files !! file_of (line_loc errorLine))) →
  section_turn files root (Array l) section = Some (Array (l ++ related files root section)).
Proof.
  unfold section_turn, related. destruct (messages section) as [|errorLine [|? ?]];
    [|simpl|simpl; lia].
  { intros _ _. simpl. by rewrite app_nil_r. }
  intros _ Hfiles. destruct (Hfiles errorLine) as [file Hfile]; [by left|].
  unfold message_turn, formattedMessageFilePath. rewrite Hfile. simpl.
  unfold DiagnosticRelatedInformation.
  by destruct (formattedMessage errorLine) as [|c s] eqn:Hmessage.
Qed.

Lemma relatedInformation_from files root l sections :
  Forall (λ section, length (messages section) ≤ 1) sections →
  (∀ section errorLine, section ∈ sections → errorLine ∈ messages section →
     is_Some (files !! file_of (line_loc errorLine))) →
  for_each_from (section_turn files root) (Array l) sections =
    Some (Array (l ++ (sections ≫= related files root))).
Proof.
  revert l. induction sections as [|section sections IH]; intros l Hone Hfiles.
  { simpl. by rewrite app_nil_r. }
  apply Forall_cons in Hone as [Hone Hall]. simpl.
  rewrite section_turn_one; [|done|].
  - simpl. rewrite IH; [by rewrite <- app_assoc|done|].
    intros s e Hs He. apply (Hfiles s e); [by right|done].
  - intros e He. apply (Hfiles section e); [by left|done].
Qed.

(** X24. The related information of a complex error is built only when no
    section has more than one message.  A section of two messages or more
    stops the process on an assertion of rapidjson: after the first
    message the values [location] and [relatedInfo] were moved from, and
    are null.  When every section has at most one message, and the files
    of the messages are there, the array holds one entry for each section
    that has a message, in the order of the sections: the location of the
    message, and its text, or the header of the section when it has no
    text; a section without messages gives no entry. *)
Theorem relatedInformation_one_message files root sections :
  (Exists (λ section, 2 ≤ length (messages section)) sections →
   relatedInformation files root sections = None) ∧
  (Forall (λ section, length (messages section) ≤ 1) sections →
   (∀ section errorLine, section ∈ sections → errorLine ∈ messages section →
      is_Some (files !! file_of (line_loc errorLine))) →
   relatedInformation files root sections =
     Some (Array (sections ≫= related files root))).
Proof.
  split.
  - intros (section & Hin & Htwo)%Exists_exists.
    apply list_elem_of_split in Hin as (pre & post & ->).
    unfold relatedInformation. rewrite for_each_from_app.
    destruct (for_each_from _ _ pre) as [v|]; [|done]. simpl.
    by rewrite section_turn_two.
  - intros Hone Hfiles. unfold relatedInformation.
    by rewrite relatedInformation_from.
Qed.
End Loop.

Arguments mkLoop {Analysis} _ _ _ _ _.
Arguments rootUri {Analysis} _.
Arguments requestCounter {Analysis} _.
Arguments awaitingResponse {Analysis} _.
Arguments analysis {Analysis} _.
Arguments trace {Analysis} _.
Arguments Ok {Analysis A} _ _.
Arguments Abort {Analysis A} _.
Arguments final {Analysis A} _.
Arguments lret {Analysis A} _ _.
Arguments lbind {Analysis A B} _ _ _.
Arguments log {Analysis} _ _.
Arguments set_awaitingResponse {Analysis} _ _.
Arguments called_once {Analysis} _.

(** *** The slow path ([LSPLoop::runSlowPath]) *)

Section SlowPath.

Variable Reference : ast.NodeClass → bool.
Variable shared : gmap ast.addr ast.Expression.

(** The order in which the compiler evaluates the arguments of the
    constructor calls of the copy. *)
Variable order : ast.NodeClass → list nat.

(** The global state and the passes over it are collaborators of the
    loop: [enterFile], [index] (which allocates the trees it returns),
    [GlobalState::deepCopy], [resolve] and [typecheck]. *)
Variable GlobalState : Type.
Variable Error : Type.
Variable enterFile : File → GlobalState → GlobalState * ast.FileRef.
Variable index :
  GlobalState → list string → list ast.FileRef → ast.addr →
  list ast.ptr * GlobalState * ast.addr.
Variable deepCopyGS : GlobalState → GlobalState.
Variable resolve : GlobalState → list ast.ptr → GlobalState * list ast.ptr.
Variable typecheck : GlobalState → list ast.ptr → GlobalState.

Record Indexer := mkIndexer {
  initialGS : GlobalState;
  finalGs : option GlobalState;
  indexed : list ast.ptr;
  errorsAccumulated : gmap ast.FileRef (list Error);
  updatedErrors : list ast.FileRef;
}.

Local Notation "x <- m ;; k" := (ast.bind m (fun x => k))
  (at level 100, m at next level, right associativity).

(** [invalidateAllErrors()] *)
Definition invalidateAllErrors (st : Indexer) : Indexer :=
  mkIndexer (initialGS st) (finalGs st) (indexed st) ∅ [].

(** The first loop of [runSlowPath]: the copy of every tree of the cache
    that is not null, as [deepCopy] returns it. *)
Fixpoint copyIndexed (fuel : nat) (trees : list ast.ptr) : ast.M (list ast.ptr) :=
  match trees with
  | [] => ast.ret []
  | None :: trees => copyIndexed fuel trees
  | Some tree :: trees =>
      c <- ast.deepCopy Reference shared order fuel tree;;
      cs <- copyIndexed fuel trees;;
      ast.ret (c :: cs)
  end.

(** The second loop: [initialGS->enterFile(t)] for every changed file. *)
Fixpoint enterFiles (changedFiles : list File) (gs : GlobalState)
  : GlobalState * list ast.FileRef :=
  match changedFiles with
  | [] => (gs, [])
  | t :: changedFiles =>
      let '(gs, ref) := enterFile t gs in
      let '(gs, refs) := enterFiles changedFiles gs in
      (gs, ref :: refs)
  end.

(** The vector [indexedCopies] when it is handed to [resolve], with the
    global state at that point. *)
Definition workingVector (fuel : nat) (changedFiles : list File) (st : Indexer)
  : ast.M (list ast.ptr * GlobalState) :=
  indexedCopies <- copyIndexed fuel (indexed st);;
  let '(gs, changedFileRefs) := enterFiles changedFiles (initialGS st) in
  fresh <- (λ n, let '(trees, gs, n') := index gs [] changedFileRefs n in
                 ast.Done (trees, gs) n');;
  ast.ret (indexedCopies ++ fresh.1, fresh.2).

(** [runSlowPath(changedFiles)] *)
Definition runSlowPath (fuel : nat) (changedFiles : list File) (st : Indexer)
  : ast.M Indexer :=
  let st := invalidateAllErrors st in
  working <- workingVector fuel changedFiles st;;
  let '(indexedCopies, gs) := working in
  let '(gs', resolved) := resolve (deepCopyGS gs) indexedCopies in
  ast.ret (mkIndexer gs (Some (typecheck gs' resolved)) (indexed st)
                     (errorsAccumulated st) (updatedErrors st)).




(** *** The cache of indexed trees ([LSPLoop::reIndex]) *)

(** [gs->filesUsed()], [f.data(gs, true).source_type] and
    [opts.inputFileNames]. *)
Variable filesUsed : GlobalState → nat.
Variable source_type_of : GlobalState → ast.FileRef → SourceType.
Variable inputFileNames : list string.

(** The files that a later [reIndex] hands to [index]: every normal file,
    from the file 1 on. *)
Definition normal_files (gs : GlobalState) : list ast.FileRef :=
  List.filter (λ f, bool_decide (source_type_of gs f = Normal)) (seq 1 (filesUsed gs - 1)).

(** One turn of the loop of [reIndex]: the vector is made long enough,
    with null pointers, and the tree goes to the place of its file. *)
Definition place (indexed : list ast.ptr) (t : ast.ptr) : ast.M (list ast.ptr) :=
  match t with
  | None => ast.fault
  | Some e =>
    let id := ast.file (ast.loc_of e) in
    let indexed :=
      if bool_decide (length indexed ≤ id)
      then indexed ++ replicate (id + 1 - length indexed) None
      else indexed in
    ast.ret (<[id := Some e]> indexed)
  end.

Fixpoint place_all (indexed : list ast.ptr) (trees : list ast.ptr) : ast.M (list ast.ptr) :=
  match trees with
  | [] => ast.ret indexed
  | t :: trees => indexed <- place indexed t;; place_all indexed trees
  end.

(** [reIndex(initial)] *)
Definition reIndex (initial : bool) (st : Indexer) : ast.M Indexer :=
  let inputFiles := if initial then [] else normal_files (initialGS st) in
  let inputNames := if initial then inputFileNames else [] in
  found <- (λ n, let '(trees, gs, n') := index (initialGS st) inputNames inputFiles n in
                 ast.Done (trees, gs) n');;
  indexed <- place_all [] found.1;;
  ast.ret (mkIndexer found.2 (finalGs st) indexed (errorsAccumulated st) (updatedErrors st)).

(** The last tree of the file [f] among [trees]. *)
Definition last_of_file (f : ast.FileRef) (trees : list ast.Expression) : option ast.Expression :=
  last (List.filter (λ e, bool_decide (ast.file (ast.loc_of e) = f)) trees).

Lemma resize_lookup (indexed : list ast.ptr) id :
  let indexed' := if bool_decide (length indexed ≤ id)
                  then indexed ++ replicate (id + 1 - length indexed) None
                  else indexed in
  length indexed' = length indexed `max` S id ∧
  ∀ i, indexed' !! i =
       if bool_decide (i < length indexed) then indexed !! i
       else if bool_decide (i ≤ id) then Some None else None.
Proof.
  simpl. destruct (decide (length indexed ≤ id)) as [Hle|Hgt].
  - rewrite bool_decide_eq_true_2 by done. split.
    + rewrite length_app, length_replicate. lia.
    + intros i. destruct (decide (i < length indexed)) as [Hlt|Hge].
      * rewrite bool_decide_eq_true_2 by done. by rewrite lookup_app_l.
      * rewrite bool_decide_eq_false_2 by done. rewrite lookup_app_r by lia.
        destruct (decide (i ≤ id)).
        -- rewrite bool_decide_eq_true_2 by done. apply lookup_replicate_2. lia.
        -- rewrite bool_decide_eq_false_2 by done. apply lookup_replicate_None. lia.
  - rewrite bool_decide_eq_false_2 by done. split; [lia|].
    intros i. destruct (decide (i < length indexed)) as [Hlt|Hge].
    + by rewrite bool_decide_eq_true_2.
    + rewrite bool_decide_eq_false_2 by done. rewrite bool_decide_eq_false_2 by lia.
      apply lookup_ge_None. lia.
Qed.

Lemma place_Done indexed t n indexed' n' :
  place indexed t n = ast.Done indexed' n' →
  ∃ e, t = Some e ∧ n' = n ∧
    length indexed' = length indexed `max` S (ast.file (ast.loc_of e)) ∧
    ∀ i, indexed' !! i =
         if bool_decide (i = ast.file (ast.loc_of e)) then Some (Some e)
         else if bool_decide (i < length indexed) then indexed !! i
         else if bool_decide (i ≤ ast.file (ast.loc_of e)) then Some None
         else None.
Proof.
  destruct t as [e|]; [|done]. simpl. intros [= <- <-]. exists e.
  destruct (resize_lookup indexed (ast.file (ast.loc_of e))) as [Hlen Hlook].
  simpl in Hlen, Hlook. split_and!; [done..| |].
  - by rewrite length_insert.
  - intros i. destruct (decide (i = ast.file (ast.loc_of e))) as [->|Hi].
    + rewrite (bool_decide_eq_true_2 (_ = _)) by done. apply list_lookup_insert_eq. lia.
    + rewrite (bool_decide_eq_false_2 (i = _)) by done.
      rewrite list_lookup_insert_ne by done. apply Hlook.
Qed.

Lemma last_of_file_cons f e trees :
  last_of_file f (e :: trees) =
  match last_of_file f trees with
  | Some e' => Some e'
  | None => if bool_decide (ast.file (ast.loc_of e) = f) then Some e else None
  end.
Proof.
  unfold last_of_file. simpl. case_bool_decide; [|by destruct (last _)].
  rewrite last_cons. by destruct (last _).
Qed.

Lemma last_of_file_Some f e trees :
  last_of_file f trees = Some e → ast.file (ast.loc_of e) = f ∧ e ∈ trees.
Proof.
  unfold last_of_file. intros H%last_Some_elem_of.
  apply list_elem_of_In, List.filter_In in H as [H ?%bool_decide_eq_true].
  split; [done|]. by apply list_elem_of_In.
Qed.

Lemma place_all_Done indexed trees n indexed' n' :
  place_all indexed trees n = ast.Done indexed' n' →
  ∃ es, trees = Some <$> es ∧ n' = n ∧
    ∀ f e, indexed' !! f = Some (Some e) ↔
           last_of_file f es = Some e ∨
           (last_of_file f es = None ∧ indexed !! f = Some (Some e)).
Proof.
  revert indexed n. induction trees as [|t trees IH]; intros indexed n H; simpl in H.
  { injection H as <- <-. exists []. split_and!; [done..|]. intros f e. split; [by right|].
    by intros [?|[_ ?]]. }
  apply ast.bind_Done in H as (ix1 & n1 & Hplace & H).
  apply place_Done in Hplace as (e0 & -> & -> & _ & Hix1).
  destruct (IH _ _ H) as (es & -> & -> & Hlook).
  exists (e0 :: es). split_and!; [done..|]. intros f e.
  rewrite Hlook, last_of_file_cons, Hix1. clear.
  destruct (last_of_file f es) as [e'|].
  { split; (intros [?|[[=] _]]; by left). }
  destruct (decide (f = ast.file (ast.loc_of e0))) as [->|Hne].
  - rewrite !bool_decide_eq_true_2 by done. split.
    + intros [[=]|[_ [= ->]]]. by left.
    + intros [[= ->]|[[=] _]]. by right.
  - rewrite !(bool_decide_eq_false_2 (_ = _)) by done.
    destruct (decide (f < length indexed)).
    + by rewrite bool_decide_eq_true_2 by done.
    + rewrite bool_decide_eq_false_2 by done.
      assert (indexed !! f = None) as -> by (apply lookup_ge_None; lia).
      case_bool_decide; (split; intros [[=]|[_ [=]]]).
Qed.

(** X19. The cache after [reIndex].  When [reIndex] returns, it has handed to
    [index] the names of the input files, the first time, and later every
    normal file of [initialGS]; no tree that [index] returned is null; and
    the cache holds, at the place of each file, the last of the trees of
    this file, and null pointers elsewhere.  What the cache held before is
    gone.  Every tree of the cache lies at the place of its own file. *)
Theorem reIndex_places initial st n st' n' :
  reIndex initial st n = ast.Done st' n' →
  ∃ trees,
    index (initialGS st) (if initial then inputFileNames else [])
          (if initial then [] else normal_files (initialGS st)) n
      = (Some <$> trees, initialGS st', n') ∧
    (∀ f e, indexed st' !! f = Some (Some e) ↔ last_of_file f trees = Some e) ∧
    (∀ f e, indexed st' !! f = Some (Some e) → ast.file (ast.loc_of e) = f ∧ e ∈ trees) ∧
    finalGs st' = finalGs st ∧ errorsAccumulated st' = errorsAccumulated st ∧
    updatedErrors st' = updatedErrors st.
Proof.
  unfold reIndex. intros H.
  apply ast.bind_Done in H as ([found gs] & n1 & Hindex & H).
  apply ast.bind_Done in H as (ix & n2 & Hplace & H).
  apply ast.ret_Done in H as [-> ->]. simpl in *.
  destruct (index _ _ _ n) as [[trees gs'] n1'] eqn:E. injection Hindex as <- <- <-.
  apply place_all_Done in Hplace as (es & -> & -> & Hlook).
  exists es. split; [done|].
  assert (Hiff : ∀ f e, ix !! f = Some (Some e) ↔ last_of_file f es = Some e).
  { intros f e. rewrite Hlook. split; [by intros [?|[_ ?]]|by left]. }
  split_and!; [done| |done..].
  intros f e Hf%Hiff. by apply last_of_file_Some.
Qed.

(** *** The accumulated errors ([silenceError], [LSPLoop::drainErrors]) *)

(** [core::ErrorClass] with the three classes that are silenced, [e->what]
    and [e->loc.file]. *)
Variable ErrorClass : Type.
Context `{EqDecision ErrorClass}.
Variable what : Error → ErrorClass.
Variable error_file : Error → ast.FileRef.
Variables RedefinitionOfMethod DuplicateVariableDeclaration RedefinitionOfParents : ErrorClass.

(** [f.data(gs).source_type]: the type of the file, unless [data] asserts
    on this file. *)
Variable data_source_type : GlobalState → ast.FileRef → option SourceType.

(** [silenceError(what)] *)
Definition silenceError (what_ : ErrorClass) : bool :=
  if bool_decide (what_ = RedefinitionOfMethod)
     || bool_decide (what_ = DuplicateVariableDeclaration)
     || bool_decide (what_ = RedefinitionOfParents)
  then true else false.

(** One turn of the first loop of [drainErrors], on [errorsAccumulated]
    and [updatedErrors]. *)
Definition accumulate (vars : gmap ast.FileRef (list Error) * list ast.FileRef) (e : Error)
  : gmap ast.FileRef (list Error) * list ast.FileRef :=
  let '(errors, updated) := vars in
  if silenceError (what e) then vars else
  let file := error_file e in
  let errors := <[file := default [] (errors !! file) ++ [e]]> errors in
  if bool_decide (last updated = Some file) then (errors, updated)
  else (errors, updated ++ [file]).

(** The second loop: the entries of the files that are tombstones are
    erased. *)
Definition erase_tombstones (gs : GlobalState) (errors : gmap ast.FileRef (list Error))
  : option (gmap ast.FileRef (list Error)) :=
  if bool_decide (map_Forall (λ file _, is_Some (data_source_type gs file)) errors)
  then Some (filter (λ entry, data_source_type gs entry.1 ≠ Some TombStone) errors)
  else None.

(** [drainErrors()], on the errors [drained] that the queue of [initialGS]
    hands over. *)
Definition drainErrors (drained : list Error) (st : Indexer) : option Indexer :=
  let '(errors, updated) := foldl accumulate (errorsAccumulated st, updatedErrors st) drained in
  errors ← erase_tombstones (initialGS st) errors;
  Some (mkIndexer (initialGS st) (finalGs st) (indexed st) errors updated).

(** The errors of [drained] that are kept for the file [f]. *)
Definition kept_for (f : ast.FileRef) (drained : list Error) : list Error :=
  List.filter (λ e, negb (silenceError (what e)) && bool_decide (error_file e = f)) drained.

Lemma accumulate_spec errors updated e errors' updated' :
  accumulate (errors, updated) e = (errors', updated') →
  (∀ f, default [] (errors' !! f) = default [] (errors !! f) ++ kept_for f [e]) ∧
  (∀ f, is_Some (errors' !! f) ↔
        is_Some (errors !! f) ∨ (silenceError (what e) = false ∧ error_file e = f)) ∧
  (∃ new, updated' = updated ++ new ∧
     (∀ f, f ∈ new ↔ silenceError (what e) = false ∧ error_file e = f ∧
                      last updated ≠ Some f)) ∧
  (silenceError (what e) = false → last updated' = Some (error_file e)).
Proof.
  unfold accumulate, kept_for. simpl.
  destruct (silenceError (what e)) eqn:Hsilent; simpl.
  { intros [= <- <-]. split_and!.
    - intros f. by rewrite app_nil_r.
    - intros f. split; [by left|]. by intros [?|[? _]].
    - exists []. rewrite app_nil_r. split; [done|]. intros f. rewrite elem_of_nil.
      split; [done|]. by intros [? _].
    - done. }
  intros H.
  assert (errors' = <[error_file e := default [] (errors !! error_file e) ++ [e]]> errors)
    as -> by (by case_bool_decide; injection H as <- <-).
  split_and!.
  - intros f. destruct (decide (error_file e = f)) as [<-|Hne].
    + rewrite lookup_insert_eq. by rewrite bool_decide_eq_true_2.
    + rewrite lookup_insert_ne by done. rewrite bool_decide_eq_false_2 by done.
      by rewrite app_nil_r.
  - intros f. destruct (decide (error_file e = f)) as [<-|Hne].
    + rewrite lookup_insert_eq. split; [by right|by eexists].
    + rewrite lookup_insert_ne by done. split; [by left|]. by intros [?|[_ ?]].
  - case_bool_decide as Hlast; injection H as <-.
    + exists []. rewrite app_nil_r. split; [done|]. intros f. rewrite elem_of_nil.
      split; [done|]. intros (_ & <- & ?). done.
    + exists [error_file e]. split; [done|]. intros f. rewrite list_elem_of_singleton.
      split; [by intros ->|]. by intros (_ & <- & _).
  - intros _. case_bool_decide as Hlast; injection H as <-; [done|].
    by rewrite last_snoc.
Qed.

Lemma kept_for_app f l1 l2 : kept_for f (l1 ++ l2) = kept_for f l1 ++ kept_for f l2.
Proof. unfold kept_for. induction l1 as [|e l1 IH]; [done|]. simpl. rewrite IH. by destruct (_ && _). Qed.

Lemma elem_of_kept_for f e drained :
  e ∈ kept_for f drained ↔ e ∈ drained ∧ silenceError (what e) = false ∧ error_file e = f.
Proof.
  unfold kept_for. rewrite list_elem_of_In, filter_In, <- list_elem_of_In.
  rewrite andb_true_iff, negb_true_iff, bool_decide_eq_true. tauto.
Qed.

Lemma foldl_accumulate drained errors updated errors' updated' :
  foldl accumulate (errors, updated) drained = (errors', updated') →
  (∀ f, default [] (errors' !! f) = default [] (errors !! f) ++ kept_for f drained) ∧
  (∀ f, is_Some (errors' !! f) ↔ is_Some (errors !! f) ∨ kept_for f drained ≠ []) ∧
  (∃ new, updated' = updated ++ new ∧
     (∀ f, f ∈ new → kept_for f drained ≠ []) ∧
     (∀ f, kept_for f drained ≠ [] → f ∈ updated')).
Proof.
  revert errors updated. induction drained as [|e drained IH]; intros errors updated;
    cbn [foldl].
  { intros [= <- <-]. split_and!.
    - intros f. by rewrite app_nil_r.
    - intros f. split; [by left|]. by intros [?|?].
    - exists []. rewrite app_nil_r. split; [done|]. split; [by intros f ?%elem_of_nil|done]. }
  destruct (accumulate (errors, updated) e) as [errors1 updated1] eqn:H1.
  intros (Herr & Hdom & new & -> & Hnew & Hall)%IH.
  apply accumulate_spec in H1 as (Herr1 & Hdom1 & (new1 & -> & Hnew1) & Hlast).
  assert (Hcons : ∀ f, kept_for f (e :: drained) = kept_for f [e] ++ kept_for f drained).
  { intros f. apply (kept_for_app f [e] drained). }
  assert (Hone : ∀ f, kept_for f [e] ≠ [] ↔ silenceError (what e) = false ∧ error_file e = f).
  { intros f. unfold kept_for. simpl. destruct (silenceError (what e)); simpl.
    - split; [done|]. by intros [? _].
    - case_bool_decide; split; try done. by intros [_ ?]. }
  split_and!.
  - intros f. by rewrite Herr, Herr1, Hcons, app_assoc.
  - intros f. rewrite Hdom, Hdom1, Hcons, <- Hone.
    destruct (kept_for f [e]), (kept_for f drained); simpl; intuition congruence.
  - exists (new1 ++ new). rewrite app_assoc. split; [done|]. split.
    + intros f [Hf|Hf]%elem_of_app; rewrite Hcons.
      * apply Hnew1 in Hf as (? & ? & _). assert (kept_for f [e] ≠ []) by (by apply Hone).
        by destruct (kept_for f [e]).
      * apply Hnew in Hf. destruct (kept_for f [e]); [done|done].
    + intros f Hf. rewrite Hcons in Hf.
      destruct (kept_for f drained) as [|e' l] eqn:Hd.
      * rewrite app_nil_r in Hf. apply Hone in Hf as [Hs <-].
        apply elem_of_app. left. apply last_Some_elem_of. by apply Hlast.
      * apply Hall. by rewrite Hd.
Qed.

(** X25. What [drainErrors] keeps.  When it returns, the errors of a file that
    is no tombstone are those it had, followed by the errors that the
    queue handed over for this file, in their order, without the silenced
    ones; a file that is a tombstone has no errors left, whatever it had;
    no silenced error is among the errors of any file.  [updatedErrors]
    grows at its end, by files for which an error was kept, and holds
    every such file. *)
Theorem drainErrors_accumulates drained st st' :
  drainErrors drained st = Some st' →
  (∀ f, data_source_type (initialGS st) f = Some TombStone → errorsAccumulated st' !! f = None) ∧
  (∀ f, data_source_type (initialGS st) f ≠ Some TombStone →
     default [] (errorsAccumulated st' !! f) =
       default [] (errorsAccumulated st !! f) ++ kept_for f drained) ∧
  (∀ f e, e ∈ kept_for f drained ↔
          e ∈ drained ∧ silenceError (what e) = false ∧ error_file e = f) ∧
  (∃ new, updatedErrors st' = updatedErrors st ++ new ∧
     (∀ f, f ∈ new → kept_for f drained ≠ [])) ∧
  (∀ f, kept_for f drained ≠ [] → f ∈ updatedErrors st') ∧
  initialGS st' = initialGS st ∧ finalGs st' = finalGs st ∧ indexed st' = indexed st.
Proof.
  unfold drainErrors.
  destruct (foldl accumulate _ drained) as [errors updated] eqn:Hfold.
  apply foldl_accumulate in Hfold as (Herr & _ & new & -> & Hnew & Hall).
  unfold erase_tombstones. case_bool_decide as Hdata; [|done].
  simpl. intros [= <-]. simpl. split_and!; try done.
  - intros f Hf. apply map_lookup_filter_None. right. intros l _. simpl. by intros [].
  - intros f Hf. rewrite <- Herr.
    destruct (errors !! f) as [l|] eqn:Hl.
    + erewrite map_lookup_filter_Some_2; [done..|]. simpl. done.
    + replace (filter _ errors !! f) with (@None (list Error)); [done|].
      symmetry. apply map_lookup_filter_None. by left.
  - intros f e. apply elem_of_kept_for.
  - by exists new.
Qed.

End SlowPath.
(** *** The loop on concrete messages

    The table holds the methods that the loop names and no other; the
    analysis is a stub that reports one file with errors at every push. *)

Definition stub_diagnostics (root : string) (a : unit) : list (option Value) * unit :=
  ([Some (Object [("uri", String (root +:+ "/a.rb")); ("diagnostics", Array [])])], a).

Definition stub_symbols (root uri : string) (a : unit) : option Value := Some (Array []).

Definition stub_position (loc : unit) : (Z * Z) * (Z * Z) := ((3, 5), (3, 9))%Z.

Definition start : LSPLoop unit := mkLoop "file:///w" 0 ∅ tt [].

Definition run : list (option Value) → LSPLoop unit → result unit unit :=
  runLSP unit (λ _ a, a) (λ _ a, a) stub_diagnostics stub_symbols named true.

Definition hover : Value :=
  Object [("jsonrpc", String "2.0"); ("id", Number 1);
          ("method", String "textDocument/hover"); ("params", Object [])].

Definition initialized : Value :=
  Object [("jsonrpc", String "2.0"); ("method", String "initialized"); ("params", Object [])].

Definition watched : Value :=
  Object [("jsonrpc", String "2.0"); ("method", String "workspace/didChangeWatchedFiles");
          ("params", Object [("changes", Array [])])].

Definition files_read : Value :=
  Object [("jsonrpc", String "2.0"); ("id", String "ruby-typer-req-1"); ("result", Array [])].

(** The state after a first [readFile] request. *)
Definition awaiting_one : LSPLoop unit :=
  mkLoop "file:///w" 1 {[ "ruby-typer-req-1" := mkHandler ApplyEdits Nothing ]} tt
         [Wrote ByRequest
            (Object [("id", String "ruby-typer-req-1"); ("method", String "readFile");
                     ("params", Object [("changes", Array [])])])].

(** C4 fails on a request named [textDocument/hover], which the table
    does not hold: the loop writes nothing, where the claim has it reply
    with the error -32601. *)
Lemma unknown_request_unanswered :
  ("textDocument/hover" ∉ (name <$> named)) ∧
  run [Some hover] start = Ok tt start ∧
  trace (final (run [Some hover] start)) = [].
Proof.
  split_and!; [|reflexivity..].
  unfold named. simpl. rewrite !not_elem_of_cons. split_and!; try done. apply not_elem_of_nil.
Qed.

(** The table with one more method: a request that the client may send
    and that is marked as not supported. *)
Definition with_hover : list LSPMethod :=
  named ++ [mkMethod "textDocument/hover" false ClientInitiated false].

(** A [readFile] request, which only the server sends. *)
Definition read_file : Value :=
  Object [("jsonrpc", String "2.0"); ("id", Number 2);
          ("method", String "readFile"); ("params", Object [])].

Lemma hover_no_reply : ¬ is_reply hover.
Proof. intros (ms & [= <-] & [[? [=]]|[? [=]]]). Qed.

Lemma read_file_no_reply : ¬ is_reply read_file.
Proof. intros (ms & [= <-] & [[? [=]]|[? [=]]]). Qed.

Lemma named_in_with_hover m : m ∈ named → name m ∈ name <$> with_hover.
Proof.
  intros Hm. apply list_elem_of_fmap. exists m. split; [done|].
  unfold with_hover. apply elem_of_app. by left.
Qed.

(** With the table of the loop, [textDocument/hover] gets no reply and the
    loop goes on, and a [readFile] request of the client stops the loop on
    the first assertion; with [textDocument/hover] in the table as a
    request that is not supported, it gets the error -32601. *)
Lemma unknown_method_gets_no_reply_witness :
  (dispatch unit (λ _ a, a) (λ _ a, a) stub_diagnostics stub_symbols named true
            hover start = Ok true start ∧
   run [Some hover; Some initialized] start = run [Some initialized] start) ∧
  (∃ ms,
     let answer :=
       Object (ms ++ [("error", Object [("code", Number MethodNotFound);
                                        ("message", String ("Unknown method: " +:+ "textDocument/hover"))])]) in
     dispatch unit (λ _ a, a) (λ _ a, a) stub_diagnostics stub_symbols with_hover true
              hover start
       = Ok true (log (Wrote ByError answer) start) ∧
     runLSP unit (λ _ a, a) (λ _ a, a) stub_diagnostics stub_symbols with_hover true
            [Some hover; Some initialized] start
       = runLSP unit (λ _ a, a) (λ _ a, a) stub_diagnostics stub_symbols with_hover true
                [Some initialized] (log (Wrote ByError answer) start)) ∧
  (dispatch unit (λ _ a, a) (λ _ a, a) stub_diagnostics stub_symbols named true
            read_file start = Abort start ∧
   run [Some read_file; Some initialized] start = Abort start).
Proof.
  split; [|split].
  - destruct (unknown_method_gets_no_reply unit (λ _ a, a) (λ _ a, a) stub_diagnostics
                stub_symbols named true hover start "textDocument/hover" [Some initialized])
      as (Hunknown & _ & _).
    + intros m Hm. apply list_elem_of_fmap. by exists m.
    + reflexivity.
    + exact hover_no_reply.
    + apply Hunknown. unfold named. simpl. rewrite !not_elem_of_cons.
      split_and!; try done. apply not_elem_of_nil.
  - destruct (unknown_method_gets_no_reply unit (λ _ a, a) (λ _ a, a) stub_diagnostics
                stub_symbols with_hover true hover start "textDocument/hover"
                [Some initialized])
      as (_ & Herror & _).
    + exact named_in_with_hover.
    + reflexivity.
    + exact hover_no_reply.
    + apply Herror.
      * reflexivity.
      * simpl. rewrite !not_elem_of_cons. split_and!; try done. apply not_elem_of_nil.
      * right. split; reflexivity.
  - destruct (unknown_method_gets_no_reply unit (λ _ a, a) (λ _ a, a) stub_diagnostics
                stub_symbols named true read_file start "readFile" [Some initialized])
      as (_ & _ & Hstop).
    + intros m Hm. apply list_elem_of_fmap. by exists m.
    + reflexivity.
    + exact read_file_no_reply.
    + apply Hstop.
      * reflexivity.
      * simpl. rewrite !not_elem_of_cons. split_and!; try done. apply not_elem_of_nil.
      * reflexivity.
      * left. reflexivity.
Defined.

(** C7 fails on a run in which a notification goes out before the first
    request: the first request carries the number 2. *)
Lemma first_request_is_not_1 :
  ∃ st' notification params,
    requestCounter start = 0%Z ∧
    run [Some initialized; Some watched] start = Ok tt st' ∧
    trace st' =
      [Wrote ByNotification notification;
       Wrote ByRequest (Object [("id", String "ruby-typer-req-2");
                                ("method", String "readFile"); ("params", params)])].
Proof. eexists _, _, _. split_and!; reflexivity. Qed.

Lemma request_ids_numbered_witness :
  member "id" (Object [("id", String "ruby-typer-req-2"); ("method", String "readFile");
                       ("params", Object [("changes", Array [])])])
    = Some (String (request_id
        (requestCounter start + 1 +
         count_numbered
           [Wrote ByNotification
              (Object [("method", String "textDocument/publishDiagnostics");
                       ("params", Object [("uri", String "file:///w/a.rb");
                                          ("diagnostics", Array [])])])]))) ∧
  (requestCounter start <
   requestCounter start + 1 +
   count_numbered
     [Wrote ByNotification
        (Object [("method", String "textDocument/publishDiagnostics");
                 ("params", Object [("uri", String "file:///w/a.rb");
                                    ("diagnostics", Array [])])])])%Z ∧
  ∀ t3 doc' t4, [] = t3 ++ Wrote ByRequest doc' :: t4 →
    ∃ k', (requestCounter start + 1 +
           count_numbered
             [Wrote ByNotification
                (Object [("method", String "textDocument/publishDiagnostics");
                         ("params", Object [("uri", String "file:///w/a.rb");
                                            ("diagnostics", Array [])])])] < k')%Z ∧
          member "id" doc' = Some (String (request_id k')).
Proof.
  apply (request_ids_numbered unit (λ _ a, a) (λ _ a, a) stub_diagnostics
           stub_symbols named true [Some initialized; Some watched] start).
  - reflexivity.
  - reflexivity.
Defined.

Lemma awaiting_one_called_once : called_once awaiting_one.
Proof.
  split_and!; simpl.
  - apply NoDup_nil_2.
  - by intros key ?%elem_of_nil.
  - intros key [?%elem_of_nil|[h Hh]]; [done|].
    apply lookup_singleton_Some in Hh as [<- _]. by exists 1%Z.
Qed.

(** A reply whose id is a number, as JSON-RPC allows, and one whose id is
    a string that nothing awaits. *)
Definition numbered_reply : Value :=
  Object [("jsonrpc", String "2.0"); ("id", Number 1); ("result", Array [])].

Definition late_reply : Value :=
  Object [("jsonrpc", String "2.0"); ("id", String "ruby-typer-req-9"); ("result", Array [])].

Lemma numbered_reply_is_reply : is_reply numbered_reply.
Proof.
  exists [("jsonrpc", String "2.0"); ("id", Number 1); ("result", Array [])].
  split; [reflexivity|]. left. by eexists.
Qed.

(** C10 fails on a reply whose id is a number: no entry awaits it, and it
    is not dropped: the loop stops on the assertion of [GetString], and the
    message that follows is not read. *)
Lemma reply_with_number_stops :
  is_reply numbered_reply ∧
  awaitingResponse start = ∅ ∧
  handleReplies unit (λ _ a, a) stub_diagnostics true numbered_reply start = Abort start ∧
  run [Some numbered_reply; Some initialized] start = Abort start ∧
  run [Some initialized] start ≠ Abort start.
Proof. split; [exact numbered_reply_is_reply|]. by split_and!. Qed.

Lemma replies_are_consumed_witness :
  (∃ callback arg,
     (member "result" files_read = Some arg ∧ callback = ApplyEdits ∨
      member "result" files_read = None ∧ member "error" files_read = Some arg ∧
        callback = Nothing) ∧
     handleReplies unit (λ _ a, a) stub_diagnostics true files_read awaiting_one =
       lbind (call unit (λ _ a, a) stub_diagnostics true callback arg) (λ _, lret true)
             (log (Called "ruby-typer-req-1" callback arg)
                  (set_awaitingResponse
                     (delete "ruby-typer-req-1" (awaitingResponse awaiting_one))
                     awaiting_one))) ∧
  (handleReplies unit (λ _ a, a) stub_diagnostics true late_reply awaiting_one
     = Ok true awaiting_one ∧
   run [Some late_reply; Some initialized] awaiting_one = run [Some initialized] awaiting_one) ∧
  (handleReplies unit (λ _ a, a) stub_diagnostics true numbered_reply awaiting_one
     = Abort awaiting_one ∧
   run [Some numbered_reply; Some initialized] awaiting_one = Abort awaiting_one).
Proof.
  split; [|split].
  - destruct (replies_are_consumed unit (λ _ a, a) (λ _ a, a) stub_diagnostics
                stub_symbols named true files_read awaiting_one [])
      as (_ & _ & _ & _ & Hcall & _).
    + exists [("jsonrpc", String "2.0"); ("id", String "ruby-typer-req-1"); ("result", Array [])].
      split; [reflexivity|]. left. by eexists.
    + exact awaiting_one_called_once.
    + apply (Hcall "ruby-typer-req-1" (mkHandler ApplyEdits Nothing)); reflexivity.
  - destruct (replies_are_consumed unit (λ _ a, a) (λ _ a, a) stub_diagnostics
                stub_symbols named true late_reply awaiting_one [Some initialized])
      as (_ & _ & Hdrop & _).
    + exists [("jsonrpc", String "2.0"); ("id", String "ruby-typer-req-9"); ("result", Array [])].
      split; [reflexivity|]. left. by eexists.
    + exact awaiting_one_called_once.
    + apply Hdrop. right. exists "ruby-typer-req-9". split; reflexivity.
  - destruct (replies_are_consumed unit (λ _ a, a) (λ _ a, a) stub_diagnostics
                stub_symbols named true numbered_reply awaiting_one [Some initialized])
      as (_ & _ & _ & Hstop & _).
    + exact numbered_reply_is_reply.
    + exact awaiting_one_called_once.
    + apply (Hstop (Number 1)); reflexivity.
Defined.

Lemma loc2Range_bijection_witness :
  zero_based (to_range ((3, 5), (3, 9))%Z) ∧
  loc2Range unit stub_position tt =
    Object [("start", Object [("line", Number 2); ("character", Number 4)]);
            ("end", Object [("line", Number 2); ("character", Number 8)])].
Proof.
  destruct (loc2Range_bijection unit stub_position) as (Hrange & _ & _ & Hzero & _).
  split.
  - apply Hzero. unfold one_based. simpl. lia.
  - apply Hrange.
Defined.




(** *** URIs, messages and frames on concrete inputs *)

Definition shutdown : Value :=
  Object [("jsonrpc", String "2.0"); ("id", Number 1); ("method", String "shutdown")].

Definition exit_ : Value := Object [("jsonrpc", String "2.0"); ("method", String "exit")].

(** The files of a global state: no file at 0, then two files. *)
Definition two_files : list File :=
  [mkFile "" "" TombStone; mkFile "a.rb" "" Normal; mkFile "b.rb" "" Normal].

Lemma localName2Remote_inverse_witness :
  start = start ∧ "file:///w/a.rb" = "file:///w" +:+ "/" +:+ "a.rb" ∧
  remoteName2Local unit true "file:///w" "file:///w/a.rb" start = Ok "a.rb" start.
Proof.
  apply (localName2Remote_inverse unit true "file:///w" "a.rb" "file:///w/a.rb" start start).
  reflexivity.
Defined.

Lemma fileRef2Uri_inverse_witness :
  fileRef2Uri unit true two_files "file:///w" 2 start = Ok "file:///w/b.rb" start ∧
  ∃ g file',
    uri2FileRef unit true two_files "file:///w" "file:///w/b.rb" start = Ok g start ∧
    live two_files g file' ∧ path file' = "b.rb" ∧ g ≤ 2 ∧
    ((∀ i file'', live two_files i file'' → path file'' = "b.rb" → 2 ≤ i) → g = 2).
Proof.
  apply (fileRef2Uri_inverse unit true two_files "file:///w" 2 (mkFile "b.rb" "" Normal) start).
  - split_and!; [reflexivity|lia|discriminate].
  - right. reflexivity.
Defined.


Lemma notification_not_answered_witness :
  rootUri (final (dispatch unit (λ _ a, a) (λ _ a, a) stub_diagnostics stub_symbols
                    named true initialized start)) = rootUri start ∧
  ∃ t, trace (final (dispatch unit (λ _ a, a) (λ _ a, a) stub_diagnostics stub_symbols
                       named true initialized start)) = trace start ++ t ∧
       Forall (λ e, numbered e = true) t.
Proof.
  apply (notification_not_answered unit (λ _ a, a) (λ _ a, a) stub_diagnostics
           stub_symbols named true initialized start "initialized"); reflexivity.
Defined.

Lemma exit_ends_the_loop_witness :
  run [Some exit_; Some initialized] start =
    (if true && negb (client_may_send (getMethod named "exit")) then Abort start
     else Ok () start).
Proof.
  apply (exit_ends_the_loop unit (λ _ a, a) (λ _ a, a) stub_diagnostics
           stub_symbols named true exit_ start [Some initialized]).
  - reflexivity.
  - intros (ms & [= <-] & [[? [=]]|[? [=]]]).
  - reflexivity.
Defined.

Lemma request_answered_once_witness :
  match dispatch unit (λ _ a, a) (λ _ a, a) stub_diagnostics stub_symbols named true
          shutdown start with
  | Ok continue st' =>
      continue = true ∧ ∃ by_ resp, answered unit start st' by_ resp ∧ echoes shutdown resp
  | Abort st' => trace st' = trace start
  end.
Proof.
  apply (request_answered_once unit (λ _ a, a) (λ _ a, a) stub_diagnostics
           stub_symbols named true shutdown start "shutdown"); reflexivity.
Defined.

Lemma awaited_are_sent_witness :
  is_Some (awaitingResponse (final (run [Some initialized; Some watched] start))
             !! "ruby-typer-req-2") ↔
  "ruby-typer-req-2" ∈ sent_ids (trace (final (run [Some initialized; Some watched] start))) ∧
  "ruby-typer-req-2" ∉ called_ids (trace (final (run [Some initialized; Some watched] start))).
Proof.
  apply (awaited_are_sent unit (λ _ a, a) (λ _ a, a) stub_diagnostics stub_symbols
           named true [Some initialized; Some watched] start); reflexivity.
Defined.

(** An index that finds two trees for the file 1 and one for the file 0. *)
Definition in_file (f : ast.FileRef) (value : nat) : ast.Expression :=
  ast.Literal 1 (ast.mkLoc f 0 0) value.

Definition stub_index (gs : unit) (names : list string) (files : list ast.FileRef)
    (n : ast.addr) : list ast.ptr * unit * ast.addr :=
  ([Some (in_file 1 10); Some (in_file 0 20); Some (in_file 1 30)], gs, n).

Lemma reIndex_places_witness :
  ∃ trees,
    stub_index tt ["a.rb"] [] 10 = (Some <$> trees, tt, 10) ∧
    (∀ f e, [Some (in_file 0 20); Some (in_file 1 30)] !! f = Some (Some e) ↔
            last_of_file f trees = Some e) ∧
    (∀ f e, [Some (in_file 0 20); Some (in_file 1 30)] !! f = Some (Some e) →
            ast.file (ast.loc_of e) = f ∧ e ∈ trees) ∧
    @None unit = None ∧ (∅ : gmap ast.FileRef (list unit)) = ∅ ∧ @nil ast.FileRef = [].
Proof.
  apply (reIndex_places unit unit stub_index (λ _, 3) (λ _ _, Normal) ["a.rb"] true
           (mkIndexer unit unit tt None [] ∅ []) 10
           (mkIndexer unit unit tt None [Some (in_file 0 20); Some (in_file 1 30)] ∅ []) 10).
  reflexivity.
Defined.

(** A [sscanf] that reads the number 2, and a parser that knows one text. *)
Definition stub_sscanf (line : bytes) : option Z :=
  if bool_decide (line = of_string "Content-Length: 2") then Some 2%Z else None.

Definition stub_Parse (text : bytes) : option Value :=
  if bool_decide (text = of_string "{}") then Some initialized else None.

Lemma read_headers_block_witness :
  read_headers stub_sscanf
    (header_block [of_string "Content-Type: x"; of_string "Content-Length: 2"]
       ++ CR :: LF :: of_string "{}") =
  (scanned stub_sscanf (-1) [of_string "Content-Type: x"; of_string "Content-Length: 2"],
   of_string "{}").
Proof.
  apply (read_headers_block stub_sscanf
           [of_string "Content-Type: x"; of_string "Content-Length: 2"] (of_string "{}")).
  repeat constructor; try discriminate; apply (bool_decide_unpack _); reflexivity.
Defined.

Lemma readable_braces : readable stub_sscanf (of_string "{}").
Proof. split; [reflexivity|]. apply (bool_decide_unpack _). reflexivity. Defined.

Lemma runLSP_on_frames_witness :
  runLSP_on unit (λ _ a, a) (λ _ a, a) stub_diagnostics stub_symbols named true
    stub_sscanf stub_Parse (mjoin (outResult <$> [of_string "{}"; of_string "{}"])) start =
  run (stub_Parse <$> [of_string "{}"; of_string "{}"]) start.
Proof.
  apply (runLSP_on_frames unit (λ _ a, a) (λ _ a, a) stub_diagnostics stub_symbols
           named true stub_sscanf stub_Parse [of_string "{}"; of_string "{}"] start).
  repeat constructor; try reflexivity; apply (bool_decide_unpack _); reflexivity.
Defined.

Lemma runLSP_on_cut_short_witness :
  runLSP_on unit (λ _ a, a) (λ _ a, a) stub_diagnostics stub_symbols named true
    stub_sscanf stub_Parse
    (outResult (of_string "{}") ++ Content_Length (length (of_string "{}"))
       ++ [CR; LF; CR; LF] ++ []) start =
  run [Some initialized; stub_Parse ([] ++ drop (length (@nil Ascii.ascii)) (of_string "{}"))]
      start.
Proof.
  apply (runLSP_on_cut_short unit (λ _ a, a) (λ _ a, a) stub_diagnostics stub_symbols
           named true stub_sscanf stub_Parse (of_string "{}") [] initialized start).
  - exact readable_braces.
  - reflexivity.
  - simpl. lia.
  - apply not_elem_of_nil.
Defined.

(** The document before a header that the end of the input follows is
    worked on twice: the notification of the diagnostics goes out
    twice. *)
Lemma cut_short_pushes_twice :
  ∃ st' notification,
    runLSP_on unit (λ _ a, a) (λ _ a, a) stub_diagnostics stub_symbols named true
      stub_sscanf stub_Parse
      (of_string "Content-Length: 2" ++ [CR; LF; CR; LF] ++ of_string "{}"
         ++ of_string "Content-Length: 2" ++ [CR; LF; CR; LF]) start = Ok tt st' ∧
    trace st' = [Wrote ByNotification notification; Wrote ByNotification notification].
Proof. eexists _, _. split; reflexivity. Qed.

(** Errors as pairs of a class and a file; the classes 1, 2 and 3 are
    silenced. *)
Definition stub_drain : list (nat * nat) → Indexer unit (nat * nat) → option (Indexer unit (nat * nat)) :=
  drainErrors unit (nat * nat) nat fst snd 1 2 3
    (λ _ f, Some (if bool_decide (f = 4) then TombStone else Normal)).

Definition drained_errors : list (nat * nat) := [(0, 5); (1, 5); (0, 4); (7, 5)].

Definition drained_to : Indexer unit (nat * nat) :=
  mkIndexer unit (nat * nat) tt None [] {[ 5 := [(0, 5); (7, 5)] ]} [5; 4; 5].

Lemma drainErrors_accumulates_witness :
  errorsAccumulated unit (nat * nat) drained_to !! 4 = None ∧
  errorsAccumulated unit (nat * nat) drained_to !! 5 = Some [(0, 5); (7, 5)] ∧
  updatedErrors unit (nat * nat) drained_to = [5; 4; 5].
Proof.
  destruct (drainErrors_accumulates unit (nat * nat) nat fst snd 1 2 3
              (λ _ f, Some (if bool_decide (f = 4) then TombStone else Normal))
              drained_errors (mkIndexer unit (nat * nat) tt None [] ∅ []) drained_to)
    as (Htomb & _).
  - reflexivity.
  - split_and!; [apply Htomb|..]; reflexivity.
Defined.

(** A section of two messages stops the loop over the sections; a section
    of one message gives its entry. *)
Definition a_line (text : string) : ErrorLine unit := mkErrorLine unit tt text.

Lemma two_messages_stop :
  relatedInformation unit stub_position (λ _, 1) two_files "file:///w"
    [mkErrorSection unit "Note:" [a_line "first"; a_line "second"]] = None ∧
  relatedInformation unit stub_position (λ _, 1) two_files "file:///w"
    [mkErrorSection unit "Note:" [a_line ""]; mkErrorSection unit "Empty" []] =
  Some (Array [DiagnosticRelatedInformation "file:///w/a.rb" (to_range ((3, 5), (3, 9))%Z)
                 "Note:"]).
Proof. split; reflexivity. Qed.

Definition changed_outside : Value :=
  Object [("jsonrpc", String "2.0"); ("method", String "textDocument/didChange");
          ("params", Object [("textDocument", Object [("uri", String "file:///x/a.rb")]);
                             ("contentChanges", Array [Object [("text", String "1")]])])].

Lemma didChange_outside_root_witness :
  dispatch unit (λ _ a, a) (λ _ a, a) stub_diagnostics stub_symbols named true
    changed_outside start =
  (if true && negb (client_may_send (getMethod named "textDocument/didChange"))
   then Abort start else Ok true start).
Proof.
  apply (didChange_outside_root unit (λ _ a, a) (λ _ a, a) stub_diagnostics
           stub_symbols named true changed_outside start
           [("textDocument", Object [("uri", String "file:///x/a.rb")]);
            ("contentChanges", Array [Object [("text", String "1")]])]
           "file:///x/a.rb" "1"); reflexivity.
Defined.
End realmain.
